(** * path-scanner: a shallow embedding of the scan pipeline and its executor

    The development follows the three source files of the repository:
    - [app/scanner.py]: path resolution, tree walk, CSV output, retention
      cleanup, upload throttle and the [scan_task] pipeline;
    - [app/main.py] and [app/api.py]: the job registry, [run_action], the
      three registered actions, the scheduler registration and the HTTP
      trigger.

    Conventions of the embedding.
    - A Python [str] is the [string] of its bytes: the UTF-8 bytes of its
      characters, and for a character that [os.fsdecode] made of a byte
      outside UTF-8 (a lone surrogate) that byte.  What Python does by
      code points (ordering, the class [\d], encoding) is done on the
      decoded text.
    - A [pathlib] path is its tuple of parts, anchor first
      ([Path "/data/a"] has parts ["/"; "data"; "a"]).
    - A value of the configuration is a [json] value; a Python [float] is
      a binary64 number ([spec_float] at precision 53).
    - Effects are explicit: a function that reads the clock, the file system
      or the remote store takes what it observed as an argument, and a
      function that writes returns the new state.  A call into the
      operating system raises what the operating system answers: the
      answers are part of what a run meets ([OS]).
    - A Python exception is a value of [exn]; a call that may raise returns
      a [result]. *)

From Stdlib Require Import Ascii OrderedTypeEx QArith SpecFloat.
From stdpp Require Import gmap strings list sorting fin_maps pretty.

Local Open Scope string_scope.
Local Open Scope list_scope.

(** * Part I: the program *)


(** ** Text: a [str] and its bytes *)

Module Text.

Local Open Scope N_scope.

Definition ord (c : ascii) : N := N_of_ascii c.

(** The code point that [surrogateescape] puts for a byte that is not part
    of well-formed UTF-8. *)
Definition escaped (b : N) : N := 0xDC00 + b.

Definition is_surrogate (cp : N) : bool := (0xD800 <=? cp) && (cp <? 0xE000).

Definition continuation (b : N) : bool := (128 <=? b) && (b <? 192).

Definition code2 (b1 b2 : N) : N := (b1 - 192) * 64 + (b2 - 128).
Definition code3 (b1 b2 b3 : N) : N :=
  (b1 - 224) * 4096 + (b2 - 128) * 64 + (b3 - 128).
Definition code4 (b1 b2 b3 b4 : N) : N :=
  (b1 - 240) * 262144 + (b2 - 128) * 4096 + (b3 - 128) * 64 + (b4 - 128).

(** Well-formed sequences of two, three and four bytes: the lead byte,
    continuation bytes, and a code point that needs this length, is no
    surrogate and lies within the code space. *)
Definition well2 (b1 b2 : N) : bool :=
  (192 <=? b1) && (b1 <? 224) && continuation b2 && (128 <=? code2 b1 b2).

Definition well3 (b1 b2 b3 : N) : bool :=
  (224 <=? b1) && (b1 <? 240) && continuation b2 && continuation b3
  && (2048 <=? code3 b1 b2 b3) && negb (is_surrogate (code3 b1 b2 b3)).

Definition well4 (b1 b2 b3 b4 : N) : bool :=
  (240 <=? b1) && (b1 <? 248) && continuation b2 && continuation b3
  && continuation b4
  && (65536 <=? code4 b1 b2 b3 b4) && (code4 b1 b2 b3 b4 <? 1114112).

Definition try2 (b1 : N) (s1 : string) : option (N * string) :=
  match s1 with
  | String c2 s2 =>
      if well2 b1 (ord c2) then Some (code2 b1 (ord c2), s2) else None
  | _ => None
  end.

Definition try3 (b1 : N) (s1 : string) : option (N * string) :=
  match s1 with
  | String c2 (String c3 s3) =>
      if well3 b1 (ord c2) (ord c3)
      then Some (code3 b1 (ord c2) (ord c3), s3) else None
  | _ => None
  end.

Definition try4 (b1 : N) (s1 : string) : option (N * string) :=
  match s1 with
  | String c2 (String c3 (String c4 s4)) =>
      if well4 b1 (ord c2) (ord c3) (ord c4)
      then Some (code4 b1 (ord c2) (ord c3) (ord c4), s4) else None
  | _ => None
  end.

(** The first character of a text and what follows it: a byte below 128
    is its own code point; a well-formed sequence is the code point it
    encodes; any other byte is escaped by itself. *)
Definition next (s : string) : option (N * string) :=
  match s with
  | EmptyString => None
  | String c1 s1 =>
      let b1 := ord c1 in
      if b1 <? 128 then Some (b1, s1)
      else
        match try2 b1 s1 with
        | Some r => Some r
        | None =>
            match try3 b1 s1 with
            | Some r => Some r
            | None =>
                match try4 b1 s1 with
                | Some r => Some r
                | None => Some (escaped b1, s1)
                end
            end
        end
  end.

Fixpoint decode_go (fuel : nat) (s : string) : list N :=
  match fuel with
  | O => []
  | S fuel' =>
      match next s with
      | Some (cp, rest) => cp :: decode_go fuel' rest
      | None => []
      end
  end.

(** [os.fsdecode]: the code points of the [str] that stands for a byte
    string, with the UTF-8 codec and the [surrogateescape] handler.  Every
    step takes at least one byte, so the length of the text is fuel
    enough. *)
Definition decode (s : string) : list N := decode_go (String.length s) s.

(** [os.fsencode], one code point at a time. *)
Definition chr (b : N) : ascii := ascii_of_N b.

Definition encode1 (cp : N) : string :=
  if cp <? 128 then String (chr cp) ""
  else if (0xDC80 <=? cp) && (cp <? 0xDD00) then String (chr (cp - 0xDC00)) ""
  else if cp <? 2048 then
    String (chr (192 + cp / 64)) (String (chr (128 + cp mod 64)) "")
  else if cp <? 65536 then
    String (chr (224 + cp / 4096))
      (String (chr (128 + (cp / 64) mod 64)) (String (chr (128 + cp mod 64)) ""))
  else
    String (chr (240 + cp / 262144))
      (String (chr (128 + (cp / 4096) mod 64))
         (String (chr (128 + (cp / 64) mod 64))
            (String (chr (128 + cp mod 64)) ""))).

Fixpoint encode (cps : list N) : string :=
  match cps with
  | [] => ""
  | cp :: rest => encode1 cp +:+ encode rest
  end.

(** [str.encode("utf-8")] goes through when the text has no surrogate,
    that is, when its bytes are well-formed UTF-8. *)
Definition encodable (s : string) : bool :=
  forallb (fun cp => negb (is_surrogate cp)) (decode s).

(** [a < b] on [str]: the code points are compared in order, and a text
    that starts another is the smaller. *)
Fixpoint codes_ltb (a b : list N) : bool :=
  match a, b with
  | _, [] => false
  | [], _ :: _ => true
  | x :: a', y :: b' => if x =? y then codes_ltb a' b' else x <? y
  end.

Definition str_ltb (a b : string) : bool := codes_ltb (decode a) (decode b).

(** The code points of the class [\d] of [re] on a [str]: the decimal
    digits of Unicode 14.0 (general category Nd), which come in runs of
    ten; these are the zeros of the runs. *)
Definition decimal_zeros : list N :=
  [0x30; 0x660; 0x6F0; 0x7C0; 0x966; 0x9E6; 0xA66; 0xAE6; 0xB66; 0xBE6;
   0xC66; 0xCE6; 0xD66; 0xDE6; 0xE50; 0xED0; 0xF20; 0x1040; 0x1090; 0x17E0;
   0x1810; 0x1946; 0x19D0; 0x1A80; 0x1A90; 0x1B50; 0x1BB0; 0x1C40; 0x1C50;
   0xA620; 0xA8D0; 0xA900; 0xA9D0; 0xA9F0; 0xAA50; 0xABF0; 0xFF10; 0x104A0;
   0x10D30; 0x11066; 0x110F0; 0x11136; 0x111D0; 0x112F0; 0x11450; 0x114D0;
   0x11650; 0x116C0; 0x11730; 0x118E0; 0x11950; 0x11C50; 0x11D50; 0x11DA0;
   0x16A60; 0x16AC0; 0x16B50; 0x1D7CE; 0x1D7D8; 0x1D7E2; 0x1D7EC; 0x1D7F6;
   0x1E140; 0x1E2F0; 0x1E950; 0x1FBF0].

Definition is_decimal (cp : N) : bool :=
  existsb (fun zero => (zero <=? cp) && (cp <? zero + 10)) decimal_zeros.

End Text.

Export Text.

(** ** Paths ([pathlib.PurePath]) *)

Module PathModel.

(** The parts of a path: [PurePath.parts]. *)
Definition Path := list string.

(** [PurePath.__lt__]: the parts are compared as Python compares sequences;
    the first position where they differ decides, by the order of [str],
    and a strict prefix is smaller. *)
Fixpoint parts_lt (p q : Path) : bool :=
  match p, q with
  | _, [] => false
  | [], _ :: _ => true
  | a :: p', b :: q' =>
      if String.eqb a b then parts_lt p' q' else str_ltb a b
  end.

(** [sorted] only asks [<]; it places [p] before [q] when [q < p] fails. *)
Definition path_le (p q : Path) : Prop := parts_lt q p = false.

#[global] Instance path_le_dec p q : Decision (path_le p q).
Proof. unfold path_le. apply _. Defined.

(** [sorted(paths)].  Python's sort is stable; on a total order whose
    equivalent elements are equal every sort returns the same list. *)
Definition sorted (paths : list Path) : list Path := merge_sort path_le paths.

(** [p.is_relative_to(r)]: [r] is [p] or one of its parents, that is, the
    parts of [r] start the parts of [p]. *)
Fixpoint is_relative_to (p r : Path) : bool :=
  match r, p with
  | [], _ => true
  | _ :: _, [] => false
  | b :: r', a :: p' => String.eqb a b && is_relative_to p' r'
  end.

(** One iteration of the loop of [deduplicate_parent_paths]. *)
Definition dedup_step (roots : list Path) (p : Path) : list Path :=
  if existsb (is_relative_to p) roots then roots else roots ++ [p].

(** [deduplicate_parent_paths] (scanner.py, lines 55-60). *)
Definition deduplicate_parent_paths (paths : list Path) : list Path :=
  fold_left dedup_step (sorted paths) [].

(** ["/".join(parts)] *)
Fixpoint join_parts (parts : list string) : string :=
  match parts with
  | [] => ""
  | [a] => a
  | a :: rest => a +:+ "/" +:+ join_parts rest
  end.

(** [str(path)] for a path of the POSIX flavour: the anchor, when the path
    has one, then the other parts joined by ["/"]; the path without parts
    is ["."]. *)
Definition path_str (p : Path) : string :=
  match p with
  | [] => "."
  | first :: rest =>
      if String.prefix "/" first then first +:+ join_parts rest
      else join_parts p
  end.

(** [dirpath / name] for a single-component [name]. *)
Definition path_div (p : Path) (name : string) : Path := p ++ [name].

End PathModel.

Export PathModel.


(** ** Exceptions and calls that may raise *)

Module Py.

(** An exception object: an instance of a subclass of [Exception].
    [exc_msg] is what [str(exc)] gives. *)
Record exn : Type := { exc_type : string; exc_msg : string }.

(** How a call ends: it returns a value or it raises. *)
Inductive result (A : Type) : Type :=
| Ok (a : A)
| Raise (e : exn).
Arguments Ok {A} a.
Arguments Raise {A} e.

(** A computation on a state [S] that may raise; what it wrote before
    raising stays written. *)
Definition M (S A : Type) : Type := S -> S * result A.

#[global] Instance M_ret {S} : MRet (M S) := fun A a s => (s, Ok a).

#[global] Instance M_bind {S} : MBind (M S) := fun A B f m s =>
  match m s with
  | (s', Ok a) => f a s'
  | (s', Raise e) => (s', Raise e)
  end.

Definition raise {S A} (e : exn) : M S A := fun s => (s, Raise e).
Definition get_state {S} : M S S := fun s => (s, Ok s).
Definition modify {S} (f : S -> S) : M S unit := fun s => (f s, Ok tt).

(** A call that touches no state. *)
Definition lift_result {S A} (r : result A) : M S A := fun s => (s, r).

(** [try: body except Exception as exc: handler(exc)] *)
Definition try_except {S A} (body : M S A) (handler : exn -> M S A) : M S A :=
  fun s =>
    match body s with
    | (s', Ok a) => (s', Ok a)
    | (s', Raise e) => handler e s'
    end.

Definition TypeError (msg : string) : exn :=
  {| exc_type := "TypeError"; exc_msg := msg |}.

Definition ValueError (msg : string) : exn :=
  {| exc_type := "ValueError"; exc_msg := msg |}.

Definition OverflowError (msg : string) : exn :=
  {| exc_type := "OverflowError"; exc_msg := msg |}.

Definition RuntimeError (msg : string) : exn :=
  {| exc_type := "RuntimeError"; exc_msg := msg |}.

Definition AttributeError (msg : string) : exn :=
  {| exc_type := "AttributeError"; exc_msg := msg |}.

Definition KeyError (key : string) : exn :=
  {| exc_type := "KeyError"; exc_msg := key |}.

End Py.

Export Py.


(** ** Values: numbers and what [json.load] returns *)

Module Values.

(** A Python [float]: a binary64 number. *)
Definition float : Type := spec_float.
Definition prec : Z := 53.
Definition emax : Z := 1024.

(** [float(n)] *)
Definition float_of_Z (n : Z) : float := binary_normalize prec emax n 0 false.

(** [x - y] and [x * y] on floats, rounded to the nearest, ties to even. *)
Definition fsub (x y : float) : float := SFsub prec emax x y.
Definition fmul (x y : float) : float := SFmul prec emax x y.

(** [x >= y] on floats; a comparison with a NaN is false. *)
Definition fge (x y : float) : bool := SFleb y x.

(** [x >= k] for a float and an [int]: Python compares the two values
    exactly, without rounding the integer. *)
Definition fge_int (x : float) (k : Z) : bool :=
  match x with
  | S754_nan => false
  | S754_infinity s => negb s
  | S754_zero _ => (k <=? 0)%Z
  | S754_finite s m e =>
      let v := cond_Zopp s (Zpos m) in
      if (0 <=? e)%Z then (k <=? v * 2 ^ e)%Z else (k * 2 ^ (- e) <=? v)%Z
  end.

#[local] Unset Elimination Schemes.

(** A value of the configuration or of a request body. *)
Inductive json : Type :=
| JNull
| JBool (b : bool)
| JInt (n : Z)
| JFloat (x : float)
| JString (s : string)
| JArray (items : list json)
| JObject (members : list (string * json)).

#[local] Set Elimination Schemes.

(** [bool(v)]: the truth value that [if v] and [not v] test. *)
Definition truth (v : json) : bool :=
  match v with
  | JNull => false
  | JBool b => b
  | JInt n => negb (n =? 0)%Z
  | JFloat x => match x with S754_zero _ => false | _ => true end
  | JString s => match s with EmptyString => false | _ => true end
  | JArray items => match items with [] => false | _ => true end
  | JObject members => match members with [] => false | _ => true end
  end.

(** [type(v).__name__] *)
Definition type_name (v : json) : string :=
  match v with
  | JNull => "NoneType"
  | JBool _ => "bool"
  | JInt _ => "int"
  | JFloat _ => "float"
  | JString _ => "str"
  | JArray _ => "list"
  | JObject _ => "dict"
  end.

(** [d.get(key)] on the dictionary that [json.load] builds of an object:
    of two members with the same key the later one is kept. *)
Fixpoint dict_get (members : list (string * json)) (key : string) : option json :=
  match members with
  | [] => None
  | (k, v) :: rest =>
      match dict_get rest key with
      | Some v' => Some v'
      | None => if String.eqb k key then Some v else None
      end
  end.

(** [elapsed >= interval_days * 86400] for a float [elapsed].  The product
    is an [int] for an integer and for [True], a float for a float, a
    longer text or list for a text or a list, which a float is not
    compared with; a dictionary has no product. *)
Definition elapsed_ge (elapsed : float) (interval_days : json) : result bool :=
  match interval_days with
  | JBool b => Ok (fge_int elapsed ((if b then 1 else 0) * 86400))
  | JInt n => Ok (fge_int elapsed (n * 86400))
  | JFloat x => Ok (fge elapsed (fmul x (float_of_Z 86400)))
  | JString _ =>
      Raise (TypeError "'>=' not supported between instances of 'float' and 'str'")
  | JArray _ =>
      Raise (TypeError "'>=' not supported between instances of 'float' and 'list'")
  | JObject _ =>
      Raise (TypeError "unsupported operand type(s) for *: 'dict' and 'int'")
  | JNull =>
      Raise (TypeError "unsupported operand type(s) for *: 'NoneType' and 'int'")
  end.

End Values.

Export Values.


Section Resolver.

(** [Path(p).resolve()] reads the file system (current directory, symbolic
    links); the resolver is what the run observed: the resolved path, or
    the exception of the call (a [RuntimeError] for a loop of symbolic
    links, up to Python 3.12). *)
Variable resolve : string -> result Path.

(** [normalize_paths] (scanner.py, lines 51-52): the comprehension stops at
    the first path whose resolution raises. *)
Fixpoint normalize_paths (paths : list string) : result (list Path) :=
  match paths with
  | [] => Ok []
  | p :: rest =>
      match resolve p with
      | Raise e => Raise e
      | Ok q =>
          match normalize_paths rest with
          | Raise e => Raise e
          | Ok qs => Ok (q :: qs)
          end
      end
  end.

End Resolver.


(** ** TreeScanner: [os.walk] and [scan_root] *)

Module Walk.

#[local] Unset Elimination Schemes.

(** What [os.scandir] shows of a directory, as far as the walk looks at it.
    [SubDir] is an entry whose [is_dir()] holds (a directory, or a symbolic
    link to one when [is_link]); its listing is [None] when [scandir] on it
    fails.  Every other entry is a [NonDir]. *)
Inductive entry : Type :=
| NonDir (name : string)
| SubDir (name : string) (is_link : bool) (listing : option (list entry)).

#[local] Set Elimination Schemes.

(** What is found at a path given as a root: nothing; something that
    [scandir] cannot list; a directory with its listing; or [StatFails],
    when [stat] on the path fails for another reason than the path not
    being there, so that [root.exists()] raises. *)
Inductive node : Type :=
| Missing
| Unlistable
| Listing (entries : list entry)
| StatFails (e : exn).

Definition filesystem := Path -> node.

(** [root.exists()] *)
Definition exists_ (fs : filesystem) (root : Path) : result bool :=
  match fs root with
  | Missing => Ok false
  | StatFails e => Raise e
  | _ => Ok true
  end.

Definition dirs_of (es : list entry) : list string :=
  flat_map (fun e => match e with SubDir n _ _ => [n] | NonDir _ => [] end) es.

Definition nondirs_of (es : list entry) : list string :=
  flat_map (fun e => match e with NonDir n => [n] | SubDir _ _ _ => [] end) es.

(** One item of the walk: [(dirpath, dirnames, filenames)]. *)
Definition triple : Type := Path * list string * list string.

(** [os.walk(top, followlinks=...)], top-down, [onerror] unset.  The
    consumer of the generator edits [dirnames] in place before the walk
    resumes, and the walk descends into what is left: [keep] is the test
    the consumer applies to each name.  [walk_into] is the body of the loop
    [for dirname in dirs], [walk] the call on the top directory. *)
Fixpoint walk_into (followlinks : bool) (keep : string -> bool)
    (top : Path) (e : entry) {struct e} : list triple :=
  match e with
  | NonDir _ => []
  | SubDir dirname is_link listing =>
      if keep dirname && (followlinks || negb is_link) then
        match listing with
        | Some es =>
            let new_path := path_div top dirname in
            (new_path, dirs_of es, nondirs_of es) ::
            flat_map (walk_into followlinks keep new_path) es
        | None => []
        end
      else []
  end.

Definition walk (followlinks : bool) (keep : string -> bool)
    (top : Path) (es : list entry) : list triple :=
  (top, dirs_of es, nondirs_of es) ::
  flat_map (walk_into followlinks keep top) es.

(** A scan record: the dictionary [scan_root] yields. *)
Record ScanRecord : Type := {
  type : string;
  root_path : string;
  full_path : string;
  name : string
}.

(** [d.startswith(".") or d == "@eaDir"] *)
Definition skipped (d : string) : bool :=
  String.prefix "." d || String.eqb d "@eaDir".

Definition kept (d : string) : bool := negb (skipped d).

(** The body of the loop of [scan_root] for one item of the walk. *)
Definition records_of (root : Path) (t : triple) : list ScanRecord :=
  let '(dirpath, dirnames, filenames) := t in
  let dirnames := filter (fun d => Is_true (kept d)) dirnames in
  map (fun d => {| type := "dir"; root_path := path_str root;
                   full_path := path_str (path_div dirpath d); name := d |})
      dirnames
  ++ flat_map (fun f =>
       if skipped f then []
       else [{| type := "file"; root_path := path_str root;
                full_path := path_str (path_div dirpath f); name := f |}])
     filenames.

(** [scan_root] (scanner.py, lines 65-95), run to the end. *)
Definition scan_root (fs : filesystem) (root : Path) (follow_symlinks : bool)
    : list ScanRecord :=
  match fs root with
  | Listing es => flat_map (records_of root) (walk follow_symlinks kept root es)
  | Missing | Unlistable | StatFails _ => []
  end.

End Walk.

Export Walk.


(** ** RecordSink: [write_csv] *)

Module Csv.

(** The characters the [excel] dialect of the [csv] module gives a meaning:
    the delimiter, the quote character (code 34) and the two characters of
    the line terminator. *)
Definition comma : ascii := ","%char.
Definition dquote : ascii := "034"%char.
Definition CR : ascii := "013"%char.
Definition LF : ascii := "010"%char.

Definition lineterminator : string := String CR (String LF "").

(** A character that makes the writer quote the field ([QUOTE_MINIMAL]). *)
Definition special (c : ascii) : bool :=
  Ascii.eqb c comma || Ascii.eqb c dquote || Ascii.eqb c CR || Ascii.eqb c LF.

Fixpoint has_special (field : string) : bool :=
  match field with
  | EmptyString => false
  | String c rest => special c || has_special rest
  end.

(** [doublequote]: a quote character inside a field is written twice. *)
Fixpoint escape (field : string) : string :=
  match field with
  | EmptyString => EmptyString
  | String c rest =>
      if Ascii.eqb c dquote then String dquote (String dquote (escape rest))
      else String c (escape rest)
  end.

Definition quote_field (field : string) : string :=
  if has_special field
  then String dquote (escape field +:+ String dquote "")
  else field.

Fixpoint join_fields (fields : list string) : string :=
  match fields with
  | [] => ""
  | [f] => quote_field f
  | f :: rest => quote_field f +:+ String comma (join_fields rest)
  end.

(** [csv.writer.writerow]: a row whose only field is empty is written as a
    pair of quotes, so that the line is not blank. *)
Definition writerow (fields : list string) : string :=
  match fields with
  | [EmptyString] => String dquote (String dquote lineterminator)
  | _ => join_fields fields +:+ lineterminator
  end.

(** The column names of [write_csv]. *)
Definition fieldnames : list string := ["type"; "root_path"; "full_path"; "name"].

(** [rowdict.get(key)] on the dictionary that [scan_root] yields. *)
Definition rowdict_get (row : ScanRecord) (key : string) : option string :=
  if String.eqb key "type" then Some (type row)
  else if String.eqb key "root_path" then Some (root_path row)
  else if String.eqb key "full_path" then Some (full_path row)
  else if String.eqb key "name" then Some (name row)
  else None.

(** [DictWriter._dict_to_list]: the values in the order of the columns, a
    missing key giving [restval], the empty string.  A record has no key
    outside the columns, so the check of [extrasaction] passes. *)
Definition dict_to_list (row : ScanRecord) : list string :=
  map (fun key => default "" (rowdict_get row key)) fieldnames.

Definition writeheader : string := writerow fieldnames.

Fixpoint writerows (rows : list ScanRecord) : string :=
  match rows with
  | [] => ""
  | row :: rest => writerow (dict_to_list row) +:+ writerows rest
  end.

(** [write_csv] (scanner.py, lines 100-110): the text written to
    [output_file]. *)
Definition write_csv (rows : list ScanRecord) : string :=
  writeheader +:+ writerows rows.

(** *** Reading a record file back

    A reader of comma-separated text with the standard quoting: a field is
    bare or enclosed in quotes, a quote inside a quoted field is doubled, a
    line ends with CR LF.  The repository has no reader; this one states
    what the quoting is for, and the output of [write_csv] is read back
    with it. *)
Inductive rstate : Type := FieldStart | Unquoted | Quoted | QuoteSeen | AfterCR.

Fixpoint read (text : string) (st : rstate) (field : string) (row : list string)
    : option (list (list string)) :=
  match text with
  | EmptyString =>
      match st, row with
      | FieldStart, [] => Some []
      | _, _ => None
      end
  | String c rest =>
      match st with
      | FieldStart | Unquoted =>
          if Ascii.eqb c comma then read rest FieldStart "" (row ++ [field])
          else if Ascii.eqb c CR then read rest AfterCR field row
          else if Ascii.eqb c LF then None
          else if Ascii.eqb c dquote then
            match st with
            | FieldStart => read rest Quoted "" row
            | _ => None
            end
          else read rest Unquoted (field +:+ String c "") row
      | Quoted =>
          if Ascii.eqb c dquote then read rest QuoteSeen field row
          else read rest Quoted (field +:+ String c "") row
      | QuoteSeen =>
          if Ascii.eqb c dquote then read rest Quoted (field +:+ String dquote "") row
          else if Ascii.eqb c comma then read rest FieldStart "" (row ++ [field])
          else if Ascii.eqb c CR then read rest AfterCR field row
          else None
      | AfterCR =>
          if Ascii.eqb c LF
          then cons (row ++ [field]) <$> read rest FieldStart "" []
          else None
      end
  end.

Definition read_csv (text : string) : option (list (list string)) :=
  read text FieldStart "" [].

End Csv.

Export Csv.


(** ** The output directory and the operating system *)

Module Store.

(** A directory entry of the output directory, a symbolic link counting
    as what it leads to.  [is_file] is what [f.is_file()] tells; [mtime] is
    the value of [datetime.fromtimestamp(f.stat().st_mtime)], a naive local
    date and time, counted in microseconds from 0001-01-01 00:00:00. *)
Record file : Type := { is_file : bool; mtime : Z; content : string }.

(** What [should_upload_to_oss] can find at the marker path: nothing; a
    file that cannot be read or whose text is not a number ([OSError],
    [ValueError]); or the number that [float] makes of its text, the time
    of the last upload in seconds. *)
Inductive marker_state : Type :=
| MarkerAbsent
| MarkerUnreadable
| MarkerTime (last_ts : float).

(** The output directory: its entries by name, and beside them the upload
    marker [.last_oss_upload]; the dated files and the latest file are
    taken to go by other names than the marker. *)
Record World : Type := { out_dir : gmap string file; marker : marker_state }.

Definition set_out_dir (d : gmap string file) (w : World) : World :=
  {| out_dir := d; marker := marker w |}.

Definition set_marker (m : marker_state) (w : World) : World :=
  {| out_dir := out_dir w; marker := m |}.

(** The calls that the pipeline makes into the operating system, one for
    each place of the source that makes one. *)
Inductive io_op : Type :=
| Mkdir                         (* out_dir.mkdir(parents=True, exist_ok=True) *)
| OpenDated (name : string)     (* open(output_file, "w", ...) of write_csv *)
| ReadDated (name : string)     (* output_file.read_bytes() *)
| WriteLatest (name : string)   (* latest_csv.write_bytes(...) *)
| Iterdir                       (* output_dir.iterdir() *)
| IsFile (name : string)        (* f.is_file() *)
| Stat (name : string)          (* datetime.fromtimestamp(f.stat().st_mtime) *)
| Unlink (name : string)        (* f.unlink() *)
| LatestExists (name : string)  (* latest_csv.exists() *)
| MarkerExists.                 (* marker_path.exists() *)

(** What the operating system answers during one call of a function of
    the pipeline.
    - [fault op] is the exception that the call [op] ends with, [None]
      when the call goes through.
    - [torn op], for a call that writes a file and fails, is the text that
      the failed call leaves in the file, [None] when it leaves the
      directory as it was.
    - [strerror op] is the text of the [OSError] of a call that cannot go
      through as the output directory stands.
    - [rank] gives the order in which [iterdir] yields the names of the
      directory, the lower rank first.
    - [elsewhere p] tells whether something exists at a path [p] that
      leads outside the entries of the output directory. *)
Record OS : Type := {
  fault : io_op -> option exn;
  torn : io_op -> option string;
  strerror : io_op -> string;
  rank : string -> nat;
  elsewhere : string -> bool
}.

(** A call that changes nothing in the directory. *)
Definition call {S} (os : OS) (op : io_op) : M S unit := fun s =>
  match fault os op with
  | Some e => (s, Raise e)
  | None => (s, Ok tt)
  end.

(** [split("/")] *)
Fixpoint split_slash (s : string) : list string :=
  match s with
  | EmptyString => [""]
  | String c rest =>
      if Ascii.eqb c "/" then "" :: split_slash rest
      else
        match split_slash rest with
        | first :: others => String c first :: others
        | [] => [String c ""]
        end
  end.

(** The entry of the output directory that [out_dir / name] denotes.  The
    join drops empty components and ["."]; a [name] that starts with a
    slash replaces the directory.  The path is an entry of the directory
    when one component is left and it is not [".."]; otherwise it is the
    directory itself or leads elsewhere, and the value is [None]. *)
Definition entry_name (name : string) : option string :=
  if String.prefix "/" name then None
  else
    match filter (fun part => part <> "" /\ part <> ".") (split_slash name) with
    | [part] => if String.eqb part ".." then None else Some part
    | _ => None
    end.

(** Writing a file: when the call goes through the entry is a plain file
    with the text, stamped [now]; when it fails it is left as it was or
    torn.  Whether the call goes through is the answer of the operating
    system, also where the name is taken by a directory. *)
Definition store (name text : string) (now : Z) (w : World) : World :=
  set_out_dir (<[name := {| is_file := true; mtime := now; content := text |}]>
                 (out_dir w)) w.

Definition write_entry (os : OS) (op : io_op) (name text : string) (now : Z)
    : M World unit := fun w =>
  match fault os op with
  | Some e =>
      match torn os op with
      | Some residue => (store name residue now w, Raise e)
      | None => (w, Raise e)
      end
  | None => (store name text now w, Ok tt)
  end.

End Store.

Export Store.


(** ** RetentionManager: [cleanup_old_outputs] *)

Module Retention.

Definition LATEST_CSV_NAME : string := "scan_latest.csv".

(** Match a literal piece of the pattern at the front of the text; what is
    left of the text is returned. *)
Fixpoint literal (lit : string) (s : list N) : option (list N) :=
  match lit with
  | EmptyString => Some s
  | String a lit' =>
      match s with
      | b :: s' => if (ord a =? b)%N then literal lit' s' else None
      | [] => None
      end
  end.

(** [\d{n}] *)
Fixpoint digits (n : nat) (s : list N) : option (list N) :=
  match n with
  | O => Some s
  | S n' =>
      match s with
      | c :: s' => if is_decimal c then digits n' s' else None
      | [] => None
      end
  end.

(** [$] without [re.MULTILINE]: the end of the text, or the position
    before a newline that ends the text. *)
Definition at_end (s : list N) : bool :=
  match s with
  | [] => true
  | [c] => (c =? 10)%N
  | _ => false
  end.

(** [re.compile(r"^scan_\d{8}_\d{6}\.csv$").match(name)] *)
Definition pattern_match (name : string) : bool :=
  let after : option (list N) :=
    s1 ← literal "scan_" (decode name);
    s2 ← digits 8 s1;
    s3 ← literal "_" s2;
    s4 ← digits 6 s3;
    literal ".csv" s4 in
  match after with
  | Some rest => at_end rest
  | None => false
  end.

Definition microseconds_per_day : Z := 86400 * 1000000.

(** The last instant of [datetime.max], 9999-12-31 23:59:59.999999. *)
Definition datetime_max : Z := 3652059 * microseconds_per_day - 1.

(** [modf] on a number [m * 2^e]: its integer part, and the mantissa of
    its fraction at the same exponent. *)
Definition modf (m e : Z) : Z * Z :=
  if (0 <=? e)%Z then (m * 2 ^ e, 0)%Z
  else
    let ip := Z.quot m (2 ^ (- e)) in
    (ip, m - ip * 2 ^ (- e))%Z.

(** The microsecond that a remainder [fm * 2^e] below one microsecond
    rounds to, to the nearest, a tie going to the even total. *)
Definition round_leftover (us fm e : Z) : Z :=
  if (fm =? 0)%Z then 0%Z
  else
    match (2 * Z.abs fm ?= 2 ^ (- e))%Z with
    | Lt => 0%Z
    | Gt => Z.sgn fm
    | Eq => if Z.even us then 0%Z else Z.sgn fm
    end.

(** The microseconds of [timedelta(days=x)] for a float [x], before the
    check of the range: the whole days are exact, the fraction of a day is
    multiplied in floating point and rounded to the microsecond. *)
Definition float_days (x : float) : result Z :=
  match x with
  | S754_nan => Raise (ValueError "cannot convert float NaN to integer")
  | S754_infinity _ =>
      Raise (OverflowError "cannot convert float infinity to integer")
  | S754_zero _ => Ok 0%Z
  | S754_finite s m e =>
      let '(ip, fm) := modf (cond_Zopp s (Zpos m)) e in
      let us := (ip * microseconds_per_day)%Z in
      if (fm =? 0)%Z then Ok us
      else
        let frac := binary_normalize prec emax fm e false in
        match fmul (float_of_Z microseconds_per_day) frac with
        | S754_finite s2 m2 e2 =>
            let '(ip2, fm2) := modf (cond_Zopp s2 (Zpos m2)) e2 in
            let us2 := (us + ip2)%Z in
            Ok (us2 + round_leftover us2 fm2 e2)%Z
        | _ => Ok us
        end
  end.

(** [timedelta(days=keep_days)], in microseconds.  The days of the result
    must fit a C [int] and have a magnitude of at most 999999999. *)
Definition timedelta_days (keep_days : json) : result Z :=
  let checked (us : Z) : result Z :=
    let days := (us / microseconds_per_day)%Z in
    if negb ((- 2 ^ 31 <=? days)%Z && (days <? 2 ^ 31)%Z)
    then Raise (OverflowError "Python int too large to convert to C int")
    else if (999999999 <? Z.abs days)%Z
    then Raise (OverflowError
                  ("days=" +:+ pretty days +:+ "; must have magnitude <= 999999999"))
    else Ok us in
  match keep_days with
  | JBool b => checked ((if b then 1 else 0) * microseconds_per_day)%Z
  | JInt n => checked (n * microseconds_per_day)%Z
  | JFloat x =>
      match float_days x with
      | Ok us => checked us
      | Raise e => Raise e
      end
  | _ =>
      Raise (TypeError ("unsupported type for timedelta days component: "
                        +:+ type_name keep_days))
  end.

(** [now - delta] on [datetime]: the difference must be a date of the
    years 1 to 9999. *)
Definition datetime_sub (now delta : Z) : result Z :=
  let t := (now - delta)%Z in
  if (0 <=? t)%Z && (t <=? datetime_max)%Z then Ok t
  else Raise (OverflowError "date value out of range").

(** The chain of tests of the loop body: the entries that reach
    [f.unlink()]. *)
Definition expired (expire_before : Z) (name : string) (f : file) : bool :=
  if negb (is_file f) then false
  else if String.eqb name LATEST_CSV_NAME then false
  else if negb (pattern_match name) then false
  else (mtime f <? expire_before)%Z.

(** What [iterdir] yields: the entries of the directory, in the order of
    the operating system. *)
Definition by_rank (os : OS) (a b : string * file) : Prop :=
  (rank os a.1 <= rank os b.1)%nat.

#[global] Instance by_rank_dec os a b : Decision (by_rank os a b).
Proof. unfold by_rank. apply _. Defined.

Definition listing (os : OS) (w : World) : list (string * file) :=
  merge_sort (by_rank os) (map_to_list (out_dir w)).

(** The loop of [cleanup_old_outputs] over the entries still to visit;
    [removed] is the count so far. *)
Fixpoint cleanup_loop (os : OS) (expire_before : Z)
    (entries : list (string * file)) (removed : nat) : M World nat :=
  match entries with
  | [] => mret removed
  | (name, f) :: rest =>
      _ ← call os (IsFile name);
      if negb (is_file f) then cleanup_loop os expire_before rest removed
      else if String.eqb name LATEST_CSV_NAME
      then cleanup_loop os expire_before rest removed
      else if negb (pattern_match name)
      then cleanup_loop os expire_before rest removed
      else
        _ ← call os (Stat name);
        if (mtime f <? expire_before)%Z then
          _ ← call os (Unlink name);
          _ ← modify (fun w => set_out_dir (delete name (out_dir w)) w);
          cleanup_loop os expire_before rest (S removed)
        else cleanup_loop os expire_before rest removed
  end.

(** [cleanup_old_outputs] (scanner.py, lines 115-139).  [now] is what
    [datetime.now()] returned.  The number returned is the count that the
    function logs. *)
Definition cleanup_old_outputs (os : OS) (now : Z) (keep_days : json)
    : M World nat := fun w =>
  match timedelta_days keep_days with
  | Raise e => (w, Raise e)
  | Ok delta =>
      match datetime_sub now delta with
      | Raise e => (w, Raise e)
      | Ok expire_before =>
          (_ ← call os Iterdir;
           cleanup_loop os expire_before (listing os w) 0) w
      end
  end.

End Retention.

Export Retention.


(** ** Configuration *)

Module Configuration.

(** The fields of [config["oss"]] that decide whether an upload is tried.
    A field is [None] when its key is absent. *)
Record OssConfig : Type := {
  enabled : option json;
  upload_interval_days : option json
}.

(** The fields of the configuration that the pipeline reads.  The
    configuration is a JSON object whose sections are objects; the paths
    and the file names are texts; every other value is whatever JSON value
    the file holds.  [ignore_missing_path] and [follow_symlinks] are the
    keys of [config["scan_options"]], [retention_days] is
    [config.get("retention", {}).get("days")], and [oss] is
    [config.get("oss")], [None] when it is absent or empty.  A field is
    [None] when its key is absent. *)
Record Config : Type := {
  paths : list string;
  ignore_missing_path : option json;
  follow_symlinks : option json;
  latest_filename : string;
  retention_days : option json;
  oss : option OssConfig
}.

End Configuration.

Export Configuration.


(** ** UploadThrottle: [should_upload_to_oss] and [upload_latest_csv_to_oss] *)

Module Upload.

(** [should_upload_to_oss] (scanner.py, lines 144-159).  [m] is what is
    found at the marker path and [now] is the value of [time.time()].
    The test of the marker's existence is made outside the [try] and can
    raise; a marker that cannot be read or parsed lets the upload
    through. *)
Definition should_upload_to_oss (os : OS) (oss_cfg : OssConfig)
    (m : marker_state) (now : float) : result bool :=
  match upload_interval_days oss_cfg with
  | None => Ok true
  | Some interval_days =>
      if negb (truth interval_days) then Ok true
      else
        match fault os MarkerExists with
        | Some e => Raise e
        | None =>
            match m with
            | MarkerAbsent => Ok true
            | MarkerUnreadable => Ok true
            | MarkerTime last_ts => elapsed_ge (fsub now last_ts) interval_days
            end
        end
  end.

(** How the calls into the remote store ended: the body of the [try], from
    building the credentials to [put_object_from_file]. *)
Inductive put_outcome : Type :=
| PutOk (request_id : string)
| PutRaise (e : exn).

(** How [marker_path.write_text] ended: it went through, or it raised and
    left at the marker path what [residue] tells. *)
Inductive mark_outcome : Type :=
| MarkOk
| MarkRaise (e : exn) (residue : marker_state).

(** The branch [upload_latest_csv_to_oss] took.  The function returns
    [None] on every branch; the branch shows in the log line it writes:
    none with the feature off, the warning of the missing latest file, the
    notice of the interval, the notice of the upload with its request id,
    and, for [UploadFailed e], the line of the handler,
    [logging.exception("上传 latest CSV 到 OSS 失败：%s", e)]. *)
Inductive upload_report : Type :=
| SkippedDisabled
| SkippedNoLatest
| SkippedInterval
| Uploaded (request_id : string)
| UploadFailed (e : exn).


(** What one call of [upload_latest_csv_to_oss] meets: the answers of the
    operating system, the clock readings, the answer of the remote store
    and the outcome of writing the marker. *)
Record UploadEnv : Type := {
  upload_os : OS;
  time_checked : float;
  put : put_outcome;
  time_marked : float;
  mark : mark_outcome
}.

(** [mark_oss_upload]: the marker holds [str(time.time())], which [float]
    reads back as the same number. *)
Definition mark_oss_upload (env : UploadEnv) : M World unit := fun w =>
  match mark env with
  | MarkOk => (set_marker (MarkerTime (time_marked env)) w, Ok tt)
  | MarkRaise e residue => (set_marker residue w, Raise e)
  end.

(** [latest_csv.exists()] *)
Definition latest_exists (os : OS) (latest_csv : string) (w : World) : result bool :=
  match fault os (LatestExists latest_csv) with
  | Some e => Raise e
  | None =>
      Ok (match entry_name latest_csv with
          | Some name => bool_decide (is_Some (out_dir w !! name))
          | None => elsewhere os latest_csv
          end)
  end.

(** [upload_latest_csv_to_oss] (scanner.py, lines 167-217); [latest_csv]
    is the configured name of the latest file. *)
Definition upload_latest_csv_to_oss (config : Config) (latest_csv : string)
    (env : UploadEnv) : M World upload_report := fun w =>
  match oss config with
  | None => (w, Ok SkippedDisabled)
  | Some oss_cfg =>
      if negb (truth (default (JBool false) (enabled oss_cfg)))
      then (w, Ok SkippedDisabled)
      else
        match latest_exists (upload_os env) latest_csv w with
        | Raise e => (w, Raise e)
        | Ok false => (w, Ok SkippedNoLatest)
        | Ok true =>
            match should_upload_to_oss (upload_os env) oss_cfg (marker w)
                    (time_checked env) with
            | Raise e => (w, Raise e)
            | Ok false => (w, Ok SkippedInterval)
            | Ok true =>
                try_except
                  (match put env with
                   | PutOk request_id =>
                       _ ← mark_oss_upload env; mret (Uploaded request_id)
                   | PutRaise e => raise e
                   end)
                  (fun e => mret (UploadFailed e)) w
            end
        end
  end.

End Upload.

Export Upload.


(** ** The pipeline: [scan_task] *)

Module Pipeline.

(** What one run of [scan_task] meets outside the output directory: how
    the configured paths resolve, the trees under the roots, the answers
    of the operating system, the clock readings, and what the upload
    meets.  [strftime] is the text that [time.strftime] made of the clock,
    digits and an underscore. *)
Record Env : Type := {
  resolve : string -> result Path;
  fs : filesystem;
  os : OS;
  strftime : string;
  written_at : Z;
  datetime_now : Z;
  upload_env : UploadEnv
}.

(** The message of a missing root, [f"路径不存在：{root}"], its text held as
    UTF-8 bytes. *)
Definition missing_msg (root : Path) : string :=
  "路径不存在：" +:+ path_str root.

(** The loop over the roots of [scan_task] (scanner.py, lines 234-246);
    [rows] is the list built so far. *)
Fixpoint scan_roots (config : Config) (fs : filesystem)
    (rows : list ScanRecord) (roots : list Path) : result (list ScanRecord) :=
  match roots with
  | [] => Ok rows
  | root :: rest =>
      match exists_ fs root with
      | Raise e => Raise e
      | Ok false =>
          if truth (default (JBool true) (ignore_missing_path config))
          then scan_roots config fs rows rest
          else Raise (RuntimeError (missing_msg root))
      | Ok true =>
          scan_roots config fs
            (rows ++ scan_root fs root
                       (truth (default (JBool false) (follow_symlinks config))))
            rest
      end
  end.

(** The line of a record, as the writer hands it to the file. *)
Definition line_of (row : ScanRecord) : string := writerow (dict_to_list row).

(** The rows written before the first one whose line the UTF-8 codec
    refuses. *)
Fixpoint encodable_rows (rows : list ScanRecord) : list ScanRecord :=
  match rows with
  | [] => []
  | row :: rest =>
      if encodable (line_of row) then row :: encodable_rows rest else []
  end.

Definition first_refused (rows : list ScanRecord) : option ScanRecord :=
  List.find (fun row => negb (encodable (line_of row))) rows.

(** How many code points at the front of a text pass a test. *)
Fixpoint span (test : N -> bool) (cps : list N) : nat :=
  match cps with
  | cp :: rest => if test cp then S (span test rest) else O
  | [] => O
  end.

Definition hex_digit (n : N) : ascii :=
  if (n <? 10)%N then chr (48 + n) else chr (87 + n).

(** [str(exc)] of the [UnicodeEncodeError] that the codec raises on a
    line: the place of the first surrogate, or of the first run of
    surrogates. *)
Definition codec_msg (line : string) : string :=
  let cps := decode line in
  let before := span (fun cp => negb (is_surrogate cp)) cps in
  let rest := drop before cps in
  let run := span is_surrogate rest in
  match rest with
  | cp :: _ =>
      if (run =? 1)%nat then
        "'utf-8' codec can't encode character '\u"
        +:+ String (hex_digit (cp / 4096)) (String (hex_digit ((cp / 256) mod 16))
              (String (hex_digit ((cp / 16) mod 16)) (String (hex_digit (cp mod 16)) "")))
        +:+ "' in position " +:+ pretty before +:+ ": surrogates not allowed"
      else
        "'utf-8' codec can't encode characters in position " +:+ pretty before
        +:+ "-" +:+ pretty (before + run - 1)%nat +:+ ": surrogates not allowed"
  | [] => ""
  end.

Definition UnicodeEncodeError (msg : string) : exn :=
  {| exc_type := "UnicodeEncodeError"; exc_msg := msg |}.

Definition FileNotFoundError (msg : string) : exn :=
  {| exc_type := "FileNotFoundError"; exc_msg := msg |}.

(** [write_csv(rows, output_file)] on the output directory: the file is
    opened, then the header and the rows are written; a row that the codec
    refuses ends the call, with the rows before it in the file. *)
Definition write_csv_file (os : OS) (name : string) (rows : list ScanRecord)
    (now : Z) : M World unit := fun w =>
  match fault os (OpenDated name) with
  | Some e =>
      match torn os (OpenDated name) with
      | Some residue => (store name residue now w, Raise e)
      | None => (w, Raise e)
      end
  | None =>
      match first_refused rows with
      | None => (store name (write_csv rows) now w, Ok tt)
      | Some row =>
          (store name (write_csv (encodable_rows rows)) now w,
           Raise (UnicodeEncodeError (codec_msg (line_of row))))
      end
  end.

(** [output_file.read_bytes()] *)
Definition read_file (os : OS) (name : string) : M World string := fun w =>
  match fault os (ReadDated name) with
  | Some e => (w, Raise e)
  | None =>
      match out_dir w !! name with
      | Some f => (w, Ok (content f))
      | None => (w, Raise (FileNotFoundError (strerror os (ReadDated name))))
      end
  end.

(** [latest_csv.write_bytes(bytes)]: the latest file is an entry of the
    output directory, or a file elsewhere that the output directory does
    not show. *)
Definition write_latest (os : OS) (latest_csv bytes : string) (now : Z)
    : M World unit :=
  match entry_name latest_csv with
  | Some name => write_entry os (WriteLatest latest_csv) name bytes now
  | None => call os (WriteLatest latest_csv)
  end.

(** The retention step of [scan_task] and the body of [action_cleanup]:
    [if retention_days: cleanup_old_outputs(out_dir, retention_days)]. *)
Definition retention_step (os : OS) (config : Config) (now : Z) : M World unit :=
  match retention_days config with
  | None => mret tt
  | Some days =>
      if truth days then _ ← cleanup_old_outputs os now days; mret tt
      else mret tt
  end.

(** [scan_task] up to and including the retention cleanup (scanner.py,
    lines 222-263). *)
Definition scan_and_store (config : Config) (env : Env) : M World unit :=
  raw_paths ← lift_result (normalize_paths (resolve env) (paths config));
  let roots := deduplicate_parent_paths raw_paths in
  rows ← lift_result (scan_roots config (fs env) [] roots);
  let output_file := "scan_" +:+ strftime env +:+ ".csv" in
  _ ← call (os env) Mkdir;
  _ ← write_csv_file (os env) output_file rows (written_at env);
  bytes ← read_file (os env) output_file;
  _ ← write_latest (os env) (latest_filename config) bytes (written_at env);
  retention_step (os env) config (datetime_now env).

(** [scan_task] (scanner.py, lines 222-266). *)
Definition scan_task (config : Config) (env : Env) : M World unit :=
  _ ← scan_and_store config env;
  _ ← upload_latest_csv_to_oss config (latest_filename config) (upload_env env);
  mret tt.

End Pipeline.

Export Pipeline.


(** ** The executor: job registry, [run_action] and the actions *)

Module Executor.

(** A job record of the registry [jobs]. *)
Record Job : Type := {
  id : string;
  action : string;
  status : string;
  error : string;
  updated_at : Q
}.

(** The state of the service: the registry and the output directory. *)
Record Process : Type := { jobs : gmap string Job; world : World }.

(** Run a computation on the output directory inside the service. *)
Definition in_world {A} (m : M World A) : M Process A := fun p =>
  let '(w, r) := m (world p) in ({| jobs := jobs p; world := w |}, r).

(** [record_job] (main.py, lines 44-51); [now] is [time.time()]. *)
Definition record_job (job_id name status error : string) (now : Q)
    : M Process unit :=
  modify (fun p =>
    {| jobs := <[job_id := {| id := job_id; action := name; status := status;
                              error := error; updated_at := now |}]> (jobs p);
       world := world p |}).

(** [run_action] (main.py, lines 54-61); [t0] and [t1] are the clock
    readings of its two calls of [record_job]. *)
Definition run_action (name : string) (fn : M World unit) (job_id : string)
    (t0 t1 : Q) : M Process unit :=
  try_except
    (_ ← record_job job_id name "running" "" t0;
     _ ← in_world fn;
     record_job job_id name "success" "" t1)
    (fun exc => record_job job_id name "error" (exc_msg exc) t1).

(** [action_scan]: [scan_task(config)] under [scan_lock].  A call that
    runs alone finds the lock free and frees it on the way out. *)
Definition action_scan (config : Config) (env : Env) : M World unit :=
  scan_task config env.

(** [action_cleanup] (main.py, lines 69-75) *)
Definition action_cleanup (config : Config) (os : OS) (now : Z) : M World unit :=
  retention_step os config now.

(** [action_upload_latest] (main.py, lines 78-81) *)
Definition action_upload_latest (config : Config) (env : UploadEnv)
    : M World unit :=
  _ ← upload_latest_csv_to_oss config (latest_filename config) env; mret tt.

(** The job that [start_scheduler] registers (main.py, lines 96-102):
    [scan_task] itself, with [config] as its argument.  When the trigger
    fires the scheduler calls it; what it raises reaches the scheduler. *)
Definition scheduled_job (config : Config) (env : Env) : M Process unit :=
  in_world (scan_task config env).

(** [trigger_action] with [mode == "sync"] (main.py, lines 165-167): the
    action runs inline and [jobs[job_id]] is returned. *)
Definition trigger_sync (name : string) (fn : M World unit) (job_id : string)
    (t0 t1 : Q) : M Process Job :=
  _ ← run_action name fn job_id t0 t1;
  p ← get_state;
  match jobs p !! job_id with
  | Some job => mret job
  | None => raise (KeyError job_id)
  end.

End Executor.

Export Executor.


(** ** The HTTP handlers *)

Module Http.

(** What a handler answers: a body, or an error status with its detail. *)
Inductive reply (A : Type) : Type :=
| Body (a : A)
| HttpError (status_code : nat) (detail : string).
Arguments Body {A} a.
Arguments HttpError {A} status_code detail.

(** The truth value of [config.get("api", {}).get("token")]: the key is
    there and its string is not empty. *)
Definition truthy (token : option string) : bool :=
  match token with
  | Some (String _ _) => true
  | _ => false
  end.

(** [require_token] of main.py (lines 37-41).  [x_api_token] is the
    header, the empty string when the request has none.  The value is the
    [HTTPException] raised, [None] when the function returns. *)
Definition require_token (token : option string) (x_api_token : string)
    : option (nat * string) :=
  if truthy token && negb (String.eqb x_api_token (default "" token))
  then Some (401%nat, "unauthorized")
  else None.

(** [require_token] of api.py (lines 34-42).  [header] is
    [request.headers.get("X-API-Token")].  The value is the error response
    returned, [None] when the request may go on. *)
Definition require_token_flask (token : option string) (header : option string)
    : option (nat * string) :=
  if negb (truthy token) then None
  else
    let provided := default "" header in
    if negb (String.eqb provided (default "" token))
    then Some (401%nat, "unauthorized")
    else None.

(** [ACTIONS] (main.py, lines 84-88), each action with the readings of the
    run it would make. *)
Definition ACTIONS (config : Config) (env : Env) : list (string * M World unit) :=
  [ ("scan", action_scan config env);
    ("cleanup", action_cleanup config (os env) (datetime_now env));
    ("upload_latest", action_upload_latest config (upload_env env)) ].

(** [ACTIONS.get(name)] *)
Definition ACTIONS_get (config : Config) (env : Env) (name : string)
    : option (M World unit) :=
  snd <$> List.find (fun kv => String.eqb kv.1 name) (ACTIONS config env).

(** What [trigger_action] returns: the job record, or the pair of the id
    and the status [queued]. *)
Inductive triggered : Type :=
| TriggeredJob (job : Job)
| TriggeredQueued (id status : string).

(** [payload.get("mode", "async")] on the body of the request.  [body] is
    what [request.json()] returned, [None] when it raised and the payload
    is the empty dictionary.  A body that is JSON but no object has no
    [get]. *)
Definition mode_of (body : option json) : result json :=
  match body with
  | None => Ok (JString "async")
  | Some (JObject members) => Ok (default (JString "async") (dict_get members "mode"))
  | Some v =>
      Raise (AttributeError ("'" +:+ type_name v +:+ "' object has no attribute 'get'"))
  end.

(** [mode == "sync"] *)
Definition is_sync (mode : json) : bool :=
  match mode with
  | JString s => String.eqb s "sync"
  | _ => false
  end.

(** [trigger_action] (main.py, lines 146-176).  A value [Raise] is an
    exception that leaves the handler.  Beside the reply the value holds
    the thread that the asynchronous branch starts: the steps of that
    thread interleave with the store of [queued] (module [Threads]); here
    the store is made before the thread has stored anything. *)
Definition trigger_action (token : option string) (config : Config) (env : Env)
    (name x_api_token : string) (body : option json) (job_id : string)
    (t0 t1 : Q) : M Process (reply triggered * option (M Process unit)) :=
  match require_token token x_api_token with
  | Some (status_code, detail) => mret (HttpError status_code detail, None)
  | None =>
      match ACTIONS_get config env name with
      | None => mret (HttpError 404%nat "unknown_action", None)
      | Some fn =>
          mode ← lift_result (mode_of body);
          if is_sync mode then
            job ← trigger_sync name fn job_id t0 t1;
            mret (Body (TriggeredJob job), None)
          else
            let thread := run_action name fn job_id t0 t1 in
            _ ← record_job job_id name "queued" "" t0;
            mret (Body (TriggeredQueued job_id "queued"), Some thread)
      end
  end.

(** [get_job] (main.py, lines 179-185) *)
Definition get_job (token : option string) (job_id x_api_token : string)
    : M Process (reply Job) :=
  match require_token token x_api_token with
  | Some (status_code, detail) => mret (HttpError status_code detail)
  | None =>
      p ← get_state;
      match jobs p !! job_id with
      | Some job => mret (Body job)
      | None => mret (HttpError 404%nat "not_found")
      end
  end.

End Http.

Export Http.


(** ** Threads: the lock and the registry under interleaving *)

Module Threads.

(** The steps of the service that touch what its threads share: a store
    into the registry, the two ends of [with scan_lock], the two ends of a
    call of [scan_task], and [thread.start()] on a thread whose target is
    [run_action] with the given action name and job id.  [ok] tells
    whether the action of the run returns or raises. *)
Inductive instr : Type :=
| RecordJob (job_id name status : string)
| Acquire
| Release
| ScanStart
| ScanEnd
| StartThread (name job_id : string) (ok : bool).

Abbreviation program := (list instr).

(** [scan_task(config)] *)
Definition scan_task_prog : program := [ScanStart; ScanEnd].

(** [action_scan]: [with scan_lock: scan_task(config)]; the lock is
    released on both ways out. *)
Definition action_scan_prog : program := [Acquire] ++ scan_task_prog ++ [Release].

(** [ACTIONS[name]]: [action_cleanup] and [action_upload_latest] neither
    take the lock nor call [scan_task]. *)
Definition action_prog (name : string) : program :=
  if String.eqb name "scan" then action_scan_prog else [].

(** [run_action(name, fn, job_id)] *)
Definition run_action_prog (name job_id : string) (ok : bool) : program :=
  [RecordJob job_id name "running"] ++ action_prog name ++
  [RecordJob job_id name (if ok then "success" else "error")].

(** [trigger_action], [mode == "sync"] (main.py, lines 165-167) *)
Definition trigger_sync_prog (name job_id : string) (ok : bool) : program :=
  run_action_prog name job_id ok.

(** [trigger_action], the asynchronous branch (main.py, lines 169-176):
    the thread is started, then the job is recorded as [queued]. *)
Definition trigger_async_prog (name job_id : string) (ok : bool) : program :=
  [StartThread name job_id ok; RecordJob job_id name "queued"].

(** The job that [start_scheduler] adds: [scan_task] with [args=[config]];
    each firing of the trigger runs it on a thread of the scheduler. *)
Definition scheduled_prog : program := scan_task_prog.

(** The shared state: the lock, what each thread has left to do, and the
    stores into the registry in the order they happened. *)
Record state : Type := {
  lock : bool;
  threads : list program;
  written : list (string * string)
}.

Definition init (ts : list program) : state :=
  {| lock := false; threads := ts; written := [] |}.

(** Thread [i] takes its next step, if it has one and is not blocked. *)
Definition step (i : nat) (s : state) : option state :=
  match threads s !! i with
  | Some (ins :: rest) =>
      let ts := <[i := rest]> (threads s) in
      match ins with
      | RecordJob job_id _ status =>
          Some {| lock := lock s; threads := ts;
                  written := written s ++ [(job_id, status)] |}
      | Acquire =>
          if lock s then None
          else Some {| lock := true; threads := ts; written := written s |}
      | Release => Some {| lock := false; threads := ts; written := written s |}
      | ScanStart | ScanEnd =>
          Some {| lock := lock s; threads := ts; written := written s |}
      | StartThread name job_id ok =>
          Some {| lock := lock s; threads := ts ++ [run_action_prog name job_id ok];
                  written := written s |}
      end
  | _ => None
  end.

(** An interleaving: the threads that step, in order. *)
Fixpoint run (schedule : list nat) (s : state) : option state :=
  match schedule with
  | [] => Some s
  | i :: rest => step i s ≫= run rest
  end.

(** A thread is inside [scan_task] when it has started it and not left. *)
Definition in_scan (t : program) : bool :=
  match t with ScanEnd :: _ => true | _ => false end.

(** How many threads a test holds of. *)
Fixpoint count (f : program -> bool) (ts : list program) : nat :=
  match ts with
  | [] => 0
  | t :: rest => (if f t then 1 else 0) + count f rest
  end.

Definition scanning (s : state) : nat := count in_scan (threads s).

(** The statuses stored for a job, in order; the last one is the status
    that [GET /jobs/{id}] shows. *)
Definition history (job_id : string) (s : state) : list string :=
  (filter (fun js => js.1 = job_id) (written s)).*2.

End Threads.

Export Threads.


(** * Part II: the vocabulary of the properties *)

(** The entries a set of roots covers: everything at or below a root. *)
Definition reachable_from (roots : list Path) (e : Path) : Prop :=
  exists r, r ∈ roots /\ r `prefix_of` e.

(** What the loop maintains: the kept roots are pairwise unrelated, and
    they sort before everything still to come. *)
Record dedup_inv (roots rest : list Path) : Prop := {
  inv_nodup : NoDup roots;
  inv_unrelated : forall r p, r ∈ roots -> p ∈ roots -> r `prefix_of` p -> r = p;
  inv_before : forall r p, r ∈ roots -> p ∈ rest -> path_le r p;
  inv_sorted : StronglySorted path_le rest
}.

(** Induction over a directory tree. *)
Section entry_rect.
Variable P : entry -> Prop.
Hypothesis HNonDir : forall n, P (NonDir n).
Hypothesis HNone : forall n l, P (SubDir n l None).
Hypothesis HSome : forall n l es, Forall P es -> P (SubDir n l (Some es)).

Fixpoint entry_tree_ind (e : entry) : P e :=
  match e with
  | NonDir n => HNonDir n
  | SubDir n l None => HNone n l
  | SubDir n l (Some es) =>
      HSome n l es
        ((fix go (es : list entry) : Forall P es :=
            match es with
            | [] => @List.Forall_nil _ P
            | e :: es' => @List.Forall_cons _ P e es' (entry_tree_ind e) (go es')
            end) es)
  end.
End entry_rect.

(** Every directory the walk visits lies below [top], along names that the
    consumer kept. *)
Definition below (top : Path) (t : triple) : Prop :=
  exists rel, t.1.1 = top ++ rel /\ Forall (fun d => skipped d = false) rel.



(** The call gets as far as the put: the feature is on, the latest file is
    found, and the throttle lets the upload through. *)
Definition reaches_put (config : Config) (latest_csv : string) (env : UploadEnv)
    (w : World) : Prop :=
  exists oss_cfg,
    oss config = Some oss_cfg /\
    truth (default (JBool false) (enabled oss_cfg)) = true /\
    latest_exists (upload_os env) latest_csv w = Ok true /\
    should_upload_to_oss (upload_os env) oss_cfg (marker w) (time_checked env)
      = Ok true.





(** A thread holds the lock when the next step on the lock that it has
    left is the release. *)
Fixpoint holds (t : program) : bool :=
  match t with
  | [] => false
  | Acquire :: _ => false
  | Release :: _ => true
  | _ :: rest => holds rest
  end.

(** A program keeps the discipline, starting with the lock held or not
    ([h]), when it takes and frees the lock in turn, ends with the lock
    free, and is inside [scan_task] only while holding the lock. *)
Fixpoint disciplined (h : bool) (t : program) : bool :=
  match t with
  | [] => negb h
  | Acquire :: rest => negb h && disciplined true rest
  | Release :: rest => h && disciplined false rest
  | ScanStart :: rest | ScanEnd :: rest => h && disciplined h rest
  | RecordJob _ _ _ :: rest | StartThread _ _ _ :: rest => disciplined h rest
  end.

(** The programs of the HTTP trigger. *)
Definition http_prog (t : program) : Prop :=
  exists name job_id ok,
    t = trigger_sync_prog name job_id ok \/ t = trigger_async_prog name job_id ok.

(** What every interleaving maintains: each thread keeps the discipline,
    and the lock is taken exactly when one thread holds it. *)
Record lock_inv (s : state) : Prop := {
  inv_disciplined : Forall (fun t => disciplined (holds t) t = true) (threads s);
  inv_holders : count holds (threads s) = if lock s then 1%nat else 0%nat
}.

(** An input that has no proper ancestor among the inputs. *)
Definition minimal_in (inputs : list Path) (r : Path) : Prop :=
  r ∈ inputs /\ forall q, q ∈ inputs -> q `prefix_of` r -> q = r.

(** [descends follow es rel es']: from the listing [es] the walk reaches
    the listing [es'] along the names [rel]; each name is a directory entry
    that is not skipped, that can be listed, and that is not a symbolic
    link unless links are followed. *)
Inductive descends (follow : bool) : list entry -> list string -> list entry -> Prop :=
| descends_here es : descends follow es [] es
| descends_into es n l es1 rel es' :
    SubDir n l (Some es1) ∈ es ->
    skipped n = false ->
    follow || negb l = true ->
    descends follow es1 rel es' ->
    descends follow es (n :: rel) es'.

(** The record of the entry [n], of kind [ty], found along [rel] below
    [root]. *)
Definition record_of (root : Path) (rel : list string) (ty n : string) : ScanRecord :=
  {| type := ty; root_path := path_str root;
     full_path := path_str (root ++ rel ++ [n]); name := n |}.




(** The bounds inside which [cleanup_old_outputs] computes its cutoff from
    a whole number of days. *)
Definition cutoff_in_range (now keep_days : Z) : Prop :=
  (Z.abs keep_days <= 999999999 /\
   0 <= now - keep_days * microseconds_per_day <= datetime_max)%Z.

(** The calls that the loop of a cleanup makes for an entry go through. *)
Definition passes (os : OS) (expire_before : Z) (nf : string * file) : Prop :=
  fault os (IsFile nf.1) = None /\
  (is_file nf.2 = true -> nf.1 <> LATEST_CSV_NAME -> pattern_match nf.1 = true ->
   fault os (Stat nf.1) = None /\
   ((mtime nf.2 < expire_before)%Z -> fault os (Unlink nf.1) = None)).

(** The calls that a cleanup makes into the operating system. *)
Definition cleanup_op (op : io_op) : Prop :=
  match op with
  | Iterdir | IsFile _ | Stat _ | Unlink _ => True
  | _ => False
  end.



(** The threads that an instruction starts, and the store that it makes
    into the registry. *)
Definition spawned (ins : instr) : list program :=
  match ins with
  | StartThread name job_id ok => [run_action_prog name job_id ok]
  | _ => []
  end.

Definition store_of (ins : instr) : list (string * string) :=
  match ins with
  | RecordJob job_id _ status => [(job_id, status)]
  | _ => []
  end.

(** The job ids that a program names. *)
Definition ids_of (ins : instr) : list string :=
  match ins with
  | RecordJob job_id _ _ | StartThread _ job_id _ => [job_id]
  | _ => []
  end.

Definition job_ids (t : program) : list string := flat_map ids_of t.

(** The statuses among those that [keep] selects which a program stores
    for a job, in order: by its own steps ([stores]), and with the steps of
    the threads that it starts ([pending]). *)
Definition stores_of (keep : string -> bool) (job_id : string) (ins : instr)
    : list string :=
  match ins with
  | RecordJob j _ status =>
      if decide (j = job_id) then if keep status then [status] else [] else []
  | _ => []
  end.

Definition stores (keep : string -> bool) (job_id : string) (t : program)
    : list string :=
  flat_map (stores_of keep job_id) t.

Definition pending_of (keep : string -> bool) (job_id : string) (ins : instr)
    : list string :=
  stores_of keep job_id ins ++ flat_map (stores keep job_id) (spawned ins).

Definition pending (keep : string -> bool) (job_id : string) (t : program)
    : list string :=
  flat_map (pending_of keep job_id) t.

(** Wherever a program starts a thread, one of the two, the thread or
    what is left of the program, stores nothing of the kind for the job. *)
Fixpoint tame (keep : string -> bool) (job_id : string) (t : program) : bool :=
  match t with
  | [] => true
  | ins :: rest =>
      (bool_decide (flat_map (stores keep job_id) (spawned ins) = [])
       || bool_decide (pending keep job_id rest = []))
      && tame keep job_id rest
  end.

(** The statuses of the kind stored for a job so far. *)
Definition progress (keep : string -> bool) (job_id : string) (s : state)
    : list string :=
  filter (fun status => keep status = true) (history job_id s).

(** What every interleaving maintains for a job whose stores all come
    from one thread at a time: what is stored and what that thread has yet
    to store make up [statuses], in this order. *)
Definition job_inv (keep : string -> bool) (job_id : string)
    (statuses : list string) (s : state) : Prop :=
  Forall (fun t => tame keep job_id t = true) (threads s) /\
  exists i t,
    threads s !! i = Some t /\
    progress keep job_id s ++ pending keep job_id t = statuses /\
    forall k t', k <> i -> threads s !! k = Some t' -> pending keep job_id t' = [].

(** A program takes and frees the lock in turn and ends with the lock
    free, starting with the lock held or not ([h]). *)
Fixpoint balanced (h : bool) (t : program) : bool :=
  match t with
  | [] => negb h
  | Acquire :: rest => negb h && balanced true rest
  | Release :: rest => h && balanced false rest
  | _ :: rest => balanced h rest
  end.

(** The programs of the service: the HTTP triggers and the scheduled job. *)
Definition service_prog (t : program) : Prop :=
  http_prog t \/ t = scheduled_prog.

Record balance_inv (s : state) : Prop := {
  inv_balanced : Forall (fun t => balanced (holds t) t = true) (threads s);
  inv_holder : count holds (threads s) = if lock s then 1%nat else 0%nat
}.

(** Every thread has run to its end. *)
Definition finished (s : state) : Prop := Forall (fun t => t = []) (threads s).


(** ** Sample inputs *)

(** A small tree under ["/data/a"]: a file, a hidden file, a hidden
    directory, the reserved directory, a plain directory holding a file, and
    a symbolic link to a directory. *)
Definition sample_listing : list entry :=
  [ NonDir "x.txt";
    NonDir ".hidden";
    SubDir ".git" false (Some [NonDir "config"]);
    SubDir "@eaDir" false (Some [NonDir "thumb.jpg"]);
    SubDir "sub" false (Some [NonDir "y.txt"; NonDir "@eaDir"]);
    SubDir "link" true (Some [NonDir "z.txt"]) ].

Definition sample_fs : filesystem := fun p =>
  if decide (p = ["/"; "data"; "a"]) then Listing sample_listing
  else if decide (p = ["/"; "data"; "f"]) then Unlistable
  else Missing.

(** An operating system that lets every call through. *)
Definition quiet_os : OS :=
  {| fault := fun _ => None; torn := fun _ => None; strerror := fun _ => "";
     rank := fun _ => O; elsewhere := fun _ => false |}.

(** A run over the sample tree. *)
Definition sample_resolve (p : string) : Path :=
  if String.eqb p "/data/a" then ["/"; "data"; "a"]
  else if String.eqb p "/data/a/sub" then ["/"; "data"; "a"; "sub"]
  else if String.eqb p "/data/missing" then ["/"; "data"; "missing"]
  else ["/"; p].

Definition day (n : Z) : Z := (n * microseconds_per_day)%Z.

Definition sample_upload_env (answer : put_outcome) : UploadEnv :=
  {| upload_os := quiet_os; time_checked := float_of_Z 1000; put := answer;
     time_marked := float_of_Z 1001; mark := MarkOk |}.

Definition sample_env (answer : put_outcome) : Env :=
  {| resolve := fun p => Ok (sample_resolve p); fs := sample_fs; os := quiet_os;
     strftime := "20240131_120000";
     written_at := day 738915; datetime_now := day 738915;
     upload_env := sample_upload_env answer |}.

Definition sample_config (ignore : option json) : Config :=
  {| paths := ["/data/a"; "/data/a/sub"; "/data/missing"];
     ignore_missing_path := ignore; follow_symlinks := None;
     latest_filename := "scan_latest.csv"; retention_days := Some (JInt 7);
     oss := Some {| enabled := Some (JBool true); upload_interval_days := None |} |}.

Definition empty_world : World := {| out_dir := ∅; marker := MarkerAbsent |}.

(** A configuration whose latest file carries a dated name, and an output
    directory, 30 days after the last run, that holds this latest file, a
    dated file of the same age, a recent dated file and a note. *)
Definition dated_latest_config : Config :=
  {| paths := ["/data/a"]; ignore_missing_path := None; follow_symlinks := None;
     latest_filename := "scan_20240101_000000.csv";
     retention_days := Some (JInt 7); oss := None |}.

Definition dated_latest_dir : gmap string file :=
  <["scan_20240101_000000.csv" := {| is_file := true; mtime := day 738885; content := "" |}]>
  (<["scan_20231231_000000.csv" := {| is_file := true; mtime := day 738884; content := "" |}]>
  (<["scan_20240130_000000.csv" := {| is_file := true; mtime := day 738914; content := "" |}]>
  (<["notes.txt" := {| is_file := true; mtime := day 738000; content := "" |}]> ∅))).

Definition dated_latest_world : World :=
  {| out_dir := dated_latest_dir; marker := MarkerAbsent |}.




(** * Part III: the properties *)

(** ** Facts about text *)

Section TextFacts.

Lemma ord_bound c : (ord c < 256)%N.
Proof. apply N_ascii_bounded. Qed.

Lemma chr_ord c : chr (ord c) = c.
Proof. apply ascii_N_embedding. Qed.

Ltac bytes :=
  unfold well2, well3, well4, continuation, is_surrogate, code2, code3, code4,
    escaped in *;
  repeat match goal with
         | H : _ = true |- _ =>
             progress rewrite ?andb_true_iff, ?negb_true_iff, ?andb_false_iff,
               ?N.leb_le, ?N.leb_gt, ?N.ltb_lt, ?N.ltb_ge in H
         | H : _ = false |- _ =>
             progress rewrite ?andb_true_iff, ?negb_true_iff, ?andb_false_iff,
               ?N.leb_le, ?N.leb_gt, ?N.ltb_lt, ?N.ltb_ge in H
         end.

Lemma encode1_ascii b : (b < 128)%N -> encode1 b = String (chr b) "".
Proof. intros H. unfold encode1. by apply N.ltb_lt in H as ->. Qed.

Lemma encode1_escaped c :
  (128 <= ord c)%N -> encode1 (escaped (ord c)) = String c "".
Proof.
  intros H. pose proof (ord_bound c) as Hb. unfold encode1, escaped.
  destruct (_ <? 128)%N eqn:E1; [bytes; lia|].
  destruct (_ && _) eqn:E2.
  - replace (0xDC00 + ord c - 0xDC00)%N with (ord c) by lia. by rewrite chr_ord.
  - bytes. lia.
Qed.

Lemma encode1_code2 c1 c2 :
  well2 (ord c1) (ord c2) = true ->
  encode1 (code2 (ord c1) (ord c2)) = String c1 (String c2 "").
Proof.
  intros H. unfold encode1.
  set (cp := code2 (ord c1) (ord c2)).
  assert (Hcp : (128 <= cp < 2048 /\ 192 + cp / 64 = ord c1 /\
                 128 + cp mod 64 = ord c2)%N).
  { subst cp. bytes. zify. Z.to_euclidean_division_equations. lia. }
  destruct Hcp as (Hr & -> & ->).
  destruct (cp <? 128)%N eqn:E1; [bytes; lia|].
  destruct (_ && _) eqn:E2; [bytes; lia|].
  destruct (cp <? 2048)%N eqn:E3; [|bytes; lia].
  by rewrite !chr_ord.
Qed.

Lemma encode1_code3 c1 c2 c3 :
  well3 (ord c1) (ord c2) (ord c3) = true ->
  encode1 (code3 (ord c1) (ord c2) (ord c3))
  = String c1 (String c2 (String c3 "")).
Proof.
  intros H. unfold encode1.
  set (cp := code3 (ord c1) (ord c2) (ord c3)).
  assert (Hcp : (2048 <= cp < 65536 /\ (cp < 0xD800 \/ 0xE000 <= cp) /\
                 224 + cp / 4096 = ord c1 /\
                 128 + (cp / 64) mod 64 = ord c2 /\
                 128 + cp mod 64 = ord c3)%N).
  { subst cp. bytes.
    repeat split; zify; Z.to_euclidean_division_equations; lia. }
  destruct Hcp as (Hr & Hs & -> & -> & ->).
  destruct (cp <? 128)%N eqn:E1; [bytes; lia|].
  destruct (_ && _) eqn:E2; [bytes; lia|].
  destruct (cp <? 2048)%N eqn:E3; [bytes; lia|].
  destruct (cp <? 65536)%N eqn:E4; [|bytes; lia].
  by rewrite !chr_ord.
Qed.

Lemma encode1_code4 c1 c2 c3 c4 :
  well4 (ord c1) (ord c2) (ord c3) (ord c4) = true ->
  encode1 (code4 (ord c1) (ord c2) (ord c3) (ord c4))
  = String c1 (String c2 (String c3 (String c4 ""))).
Proof.
  intros H. unfold encode1.
  set (cp := code4 (ord c1) (ord c2) (ord c3) (ord c4)).
  assert (Hcp : (65536 <= cp /\
                 240 + cp / 262144 = ord c1 /\
                 128 + (cp / 4096) mod 64 = ord c2 /\
                 128 + (cp / 64) mod 64 = ord c3 /\
                 128 + cp mod 64 = ord c4)%N).
  { subst cp. bytes.
    repeat split; zify; Z.to_euclidean_division_equations; lia. }
  destruct Hcp as (Hr & -> & -> & -> & ->).
  destruct (cp <? 128)%N eqn:E1; [bytes; lia|].
  destruct (_ && _) eqn:E2; [bytes; lia|].
  destruct (cp <? 2048)%N eqn:E3; [bytes; lia|].
  destruct (cp <? 65536)%N eqn:E4; [bytes; lia|].
  by rewrite !chr_ord.
Qed.

(** A step of the decoder takes the bytes that encode its code point. *)
Lemma next_encode s cp rest : next s = Some (cp, rest) -> s = encode1 cp +:+ rest.
Proof.
  destruct s as [|c1 s1]; [done|]. cbn [next].
  destruct (ord c1 <? 128)%N eqn:E1.
  { intros [= <- <-]. apply N.ltb_lt in E1. by rewrite encode1_ascii, chr_ord. }
  destruct (try2 (ord c1) s1) as [[cp2 r2]|] eqn:E2.
  { intros [= <- <-]. unfold try2 in E2. destruct s1 as [|c2 s2]; [done|].
    destruct (well2 _ _) eqn:W; [|done]. injection E2 as <- <-.
    by rewrite encode1_code2. }
  destruct (try3 (ord c1) s1) as [[cp3 r3]|] eqn:E3.
  { intros [= <- <-]. unfold try3 in E3.
    destruct s1 as [|c2 [|c3 s3]]; try done.
    destruct (well3 _ _ _) eqn:W; [|done]. injection E3 as <- <-.
    by rewrite encode1_code3. }
  destruct (try4 (ord c1) s1) as [[cp4 r4]|] eqn:E4.
  { intros [= <- <-]. unfold try4 in E4.
    destruct s1 as [|c2 [|c3 [|c4 s4]]]; try done.
    destruct (well4 _ _ _ _) eqn:W; [|done]. injection E4 as <- <-.
    by rewrite encode1_code4. }
  intros [= <- <-]. rewrite encode1_escaped; [done|]. by apply N.ltb_ge.
Qed.

Lemma encode1_length cp : (1 <= String.length (encode1 cp))%nat.
Proof. unfold encode1. repeat destruct (_ : bool); simpl; lia. Qed.

Lemma length_append (a b : string) :
  String.length (a +:+ b) = (String.length a + String.length b)%nat.
Proof. induction a as [|c a IH]; simpl; [done|]. by rewrite IH. Qed.

Lemma decode_go_encode fuel s :
  (String.length s <= fuel)%nat -> encode (decode_go fuel s) = s.
Proof.
  revert s. induction fuel as [|fuel IH]; intros s Hlen.
  - destruct s; [done|simpl in Hlen; lia].
  - cbn [decode_go]. destruct (next s) as [[cp rest]|] eqn:E.
    + apply next_encode in E as Hs. cbn [encode]. rewrite IH; [done|].
      rewrite Hs, length_append in Hlen. pose proof (encode1_length cp). lia.
    + destruct s as [|c s]; [done|]. cbn [next] in E.
      destruct (_ <? _)%N; [done|].
      destruct (try2 _ s); [done|]. destruct (try3 _ s); [done|].
      by destruct (try4 _ s).
Qed.

(** Decoding loses nothing: encoding gives the bytes back. *)
Lemma encode_decode s : encode (decode s) = s.
Proof. by apply decode_go_encode. Qed.

Lemma decode_inj a b : decode a = decode b -> a = b.
Proof. intros H. by rewrite <- (encode_decode a), <- (encode_decode b), H. Qed.

Lemma codes_ltb_irrefl a : codes_ltb a a = false.
Proof. induction a as [|x a IH]; simpl; [done|]. by rewrite N.eqb_refl. Qed.

Lemma codes_ltb_trichotomy a b :
  codes_ltb a b = false -> codes_ltb b a = false -> a = b.
Proof.
  revert b. induction a as [|x a IH]; intros [|y b]; simpl; try done.
  rewrite (N.eqb_sym y x). destruct (N.eqb_spec x y) as [->|Hne].
  - intros H1 H2. f_equal. by apply IH.
  - intros H1%N.ltb_ge H2%N.ltb_ge. lia.
Qed.

Lemma codes_ltb_asym a b : codes_ltb a b = true -> codes_ltb b a = false.
Proof.
  revert b. induction a as [|x a IH]; intros [|y b]; simpl; try done.
  rewrite (N.eqb_sym y x). destruct (N.eqb_spec x y) as [->|Hne]; [apply IH|].
  intros H%N.ltb_lt. apply N.ltb_ge. lia.
Qed.

Lemma codes_ltb_trans a b c :
  codes_ltb a b = true -> codes_ltb b c = true -> codes_ltb a c = true.
Proof.
  revert b c. induction a as [|x a IH]; intros [|y b] [|z c]; simpl; try done.
  destruct (N.eqb_spec x y) as [->|Hxy].
  - destruct (N.eqb_spec y z) as [->|Hyz]; [apply IH|done].
  - destruct (N.eqb_spec y z) as [->|Hyz].
    + intros H _. destruct (N.eqb_spec x z); [done|exact H].
    + intros H1%N.ltb_lt H2%N.ltb_lt.
      destruct (N.eqb_spec x z) as [->|]; [lia|]. apply N.ltb_lt. lia.
Qed.

Lemma str_ltb_irrefl a : str_ltb a a = false.
Proof. apply codes_ltb_irrefl. Qed.

Lemma str_ltb_trans a b c :
  str_ltb a b = true -> str_ltb b c = true -> str_ltb a c = true.
Proof. apply codes_ltb_trans. Qed.

Lemma str_ltb_trichotomy a b :
  str_ltb a b = false -> str_ltb b a = false -> a = b.
Proof. intros H1 H2. apply decode_inj. by apply codes_ltb_trichotomy. Qed.

Lemma str_ltb_asym a b : str_ltb a b = true -> str_ltb b a = false.
Proof. apply codes_ltb_asym. Qed.

End TextFacts.

(** ** Facts about the order of paths *)

Section PathOrder.

Lemma parts_lt_irrefl p : parts_lt p p = false.
Proof. induction p as [|a p IH]; simpl; [done|]. by rewrite String.eqb_refl. Qed.

Lemma parts_lt_trichotomy p q :
  parts_lt p q = false -> parts_lt q p = false -> p = q.
Proof.
  revert q. induction p as [|a p IH]; intros [|b q]; simpl; try done.
  rewrite (String.eqb_sym b a).
  destruct (String.eqb_spec a b) as [->|Hne].
  - intros H1 H2. f_equal. by apply IH.
  - intros H1 H2. destruct Hne. by apply str_ltb_trichotomy.
Qed.

Lemma parts_lt_asym p q : parts_lt p q = true -> parts_lt q p = false.
Proof.
  revert q. induction p as [|a p IH]; intros [|b q]; simpl; try done.
  rewrite (String.eqb_sym b a).
  destruct (String.eqb_spec a b) as [->|Hne]; [apply IH|apply str_ltb_asym].
Qed.

Lemma parts_lt_trans p q r :
  parts_lt p q = true -> parts_lt q r = true -> parts_lt p r = true.
Proof.
  revert q r. induction p as [|a p IH]; intros [|b q] [|c r]; simpl; try done.
  destruct (String.eqb_spec a b) as [->|Hab].
  - destruct (String.eqb_spec b c) as [->|Hbc]; [apply IH|done].
  - destruct (String.eqb_spec b c) as [->|Hbc].
    + intros H _. destruct (String.eqb_spec a c); [done|exact H].
    + intros H1 H2. pose proof (str_ltb_trans _ _ _ H1 H2) as H3.
      destruct (String.eqb_spec a c) as [->|]; [|exact H3].
      by rewrite str_ltb_irrefl in H3.
Qed.

#[global] Instance path_le_total : Total path_le.
Proof.
  intros p q. unfold path_le.
  destruct (parts_lt q p) eqn:E; [right; by apply parts_lt_asym|by left].
Qed.

#[global] Instance path_le_trans : Transitive path_le.
Proof.
  intros p q r. unfold path_le. intros Hqp Hrq.
  destruct (parts_lt r p) eqn:E; [|done].
  destruct (parts_lt q r) eqn:E2.
  - by rewrite (parts_lt_trans _ _ _ E2 E) in Hqp.
  - rewrite (parts_lt_trichotomy _ _ Hrq E2) in E. congruence.
Qed.

#[global] Instance path_le_antisym : AntiSymm (=) path_le.
Proof. intros p q Hpq Hqp. by apply parts_lt_trichotomy. Qed.

Lemma is_relative_to_prefix p r : is_relative_to p r = true <-> r `prefix_of` p.
Proof.
  revert p. induction r as [|b r IH]; intros [|a p]; simpl.
  - split; [intros _; apply prefix_nil|done].
  - split; [intros _; apply prefix_nil|done].
  - split; [done|]. intros H. by apply prefix_nil_inv in H.
  - rewrite andb_true_iff, IH. split.
    + intros [->%String.eqb_eq Hp]. by apply prefix_cons.
    + intros H. pose proof (prefix_cons_inv_1 _ _ _ _ H) as ->.
      split; [apply String.eqb_refl|by apply prefix_cons_inv_2 in H].
Qed.

(** A parent never sorts after its descendants. *)
Lemma prefix_path_le r p : r `prefix_of` p -> path_le r p.
Proof.
  unfold path_le. revert p. induction r as [|b r IH]; intros p Hp.
  - by destruct p.
  - destruct p as [|a p]; [by apply prefix_nil_inv in Hp|].
    pose proof (prefix_cons_inv_1 _ _ _ _ Hp) as ->.
    simpl. rewrite String.eqb_refl. apply IH. by apply prefix_cons_inv_2 in Hp.
Qed.

End PathOrder.


(** ** PathResolver: [deduplicate_parent_paths] *)

Section Dedup.

Lemma existsb_relative p roots :
  existsb (is_relative_to p) roots = true <->
  exists r, r ∈ roots /\ r `prefix_of` p.
Proof.
  rewrite existsb_exists. split; intros (r & Hr & Hp); exists r.
  - split; [by apply list_elem_of_In|by apply is_relative_to_prefix].
  - split; [by apply list_elem_of_In|by apply is_relative_to_prefix].
Qed.

Lemma dedup_step_keeps roots p r : r ∈ roots -> r ∈ dedup_step roots p.
Proof.
  unfold dedup_step. destruct (existsb _ _); [done|].
  intros H. apply elem_of_app. by left.
Qed.

Lemma dedup_step_covers roots p : reachable_from (dedup_step roots p) p.
Proof.
  unfold dedup_step. destruct (existsb _ _) eqn:E.
  - by apply existsb_relative.
  - exists p. split; [|done]. apply elem_of_app. right. by left.
Qed.

Lemma dedup_step_from roots p r :
  r ∈ dedup_step roots p -> r ∈ roots \/ r = p.
Proof.
  unfold dedup_step. destruct (existsb _ _); [by left|].
  intros [?| ->%list_elem_of_singleton]%elem_of_app; [by left|by right].
Qed.

Lemma dedup_loop_keeps l roots r :
  r ∈ roots -> r ∈ fold_left dedup_step l roots.
Proof.
  revert roots. induction l as [|p l IH]; intros roots Hr; simpl; [done|].
  apply IH. by apply dedup_step_keeps.
Qed.

Lemma dedup_loop_from l roots r :
  r ∈ fold_left dedup_step l roots -> r ∈ roots \/ r ∈ l.
Proof.
  revert roots. induction l as [|p l IH]; intros roots; simpl; [by left|].
  intros [[H| ->]%dedup_step_from|H]%IH; [by left|right; left|by right; right].
Qed.

Lemma dedup_loop_covers l roots q :
  q ∈ l -> reachable_from (fold_left dedup_step l roots) q.
Proof.
  revert roots. induction l as [|p l IH]; intros roots; simpl.
  - by intros ?%elem_of_nil.
  - intros [->|Hq]%elem_of_cons; [|by apply IH].
    destruct (dedup_step_covers roots p) as (r & Hr & Hp).
    exists r. split; [by apply dedup_loop_keeps|done].
Qed.

Lemma dedup_inv_step roots p rest :
  dedup_inv roots (p :: rest) -> dedup_inv (dedup_step roots p) rest.
Proof.
  intros [Hnd Hun Hbef Hs]. apply StronglySorted_inv in Hs as [Hs Hp].
  unfold dedup_step. destruct (existsb _ _) eqn:E.
  - split; try done. intros r q Hr Hq. apply Hbef; [done|by right].
  - assert (Hnone : forall r, r ∈ roots -> ~ r `prefix_of` p).
    { intros r Hr Hrp.
      assert (existsb (is_relative_to p) roots = true) as E'
        by (apply existsb_relative; eauto).
      congruence. }
    split.
    + apply NoDup_app. split; [done|]. split; [|apply NoDup_singleton].
      intros r Hr ->%list_elem_of_singleton. by apply (Hnone p).
    + intros r q [Hr| ->%list_elem_of_singleton]%elem_of_app
                 [Hq| ->%list_elem_of_singleton]%elem_of_app Hrq; try done.
      * by apply Hun.
      * by destruct (Hnone r).
      * apply (anti_symm path_le); [by apply prefix_path_le|].
        apply Hbef; [done|by left].
    + intros r q [Hr| ->%list_elem_of_singleton]%elem_of_app Hq.
      * apply Hbef; [done|by right].
      * rewrite Forall_forall in Hp. by apply Hp.
    + done.
Qed.

Lemma dedup_inv_loop rest roots :
  dedup_inv roots rest -> dedup_inv (fold_left dedup_step rest roots) [].
Proof.
  revert roots. induction rest as [|p rest IH]; intros roots H; simpl; [done|].
  apply IH. by apply dedup_inv_step.
Qed.

Lemma dedup_inv_start paths : dedup_inv [] (sorted paths).
Proof.
  split.
  - apply NoDup_nil_2.
  - by intros r p ?%elem_of_nil.
  - by intros r p ?%elem_of_nil.
  - apply StronglySorted_merge_sort; apply _.
Qed.

Lemma elem_of_sorted paths p : p ∈ sorted paths <-> p ∈ paths.
Proof. unfold sorted. by rewrite merge_sort_Permutation. Qed.

(** What [normalize_paths] returns holds the resolutions of the configured
    paths, one for each, in order. *)
Lemma normalize_paths_Forall2 resolve paths inputs :
  normalize_paths resolve paths = Ok inputs ->
  Forall2 (fun p q => resolve p = Ok q) paths inputs.
Proof.
  revert inputs. induction paths as [|p paths IH]; intros inputs; simpl.
  - intros [= <-]. constructor.
  - destruct (resolve p) as [q|e] eqn:Hp; [|done].
    destruct (normalize_paths resolve paths) as [qs|e]; [|done].
    intros [= <-]. constructor; [done|by apply IH].
Qed.

Lemma normalize_paths_elem_of resolve paths inputs :
  normalize_paths resolve paths = Ok inputs ->
  forall q, q ∈ inputs <-> exists p, p ∈ paths /\ resolve p = Ok q.
Proof.
  intros H%normalize_paths_Forall2 q.
  induction H as [|p q' paths inputs Hpq _ IH].
  - split; [by intros ?%elem_of_nil|]. by intros (p & ?%elem_of_nil & _).
  - rewrite elem_of_cons, IH. split.
    + intros [->|(p' & Hp' & Hres)].
      * exists p. split; [by left|done].
      * exists p'. split; [by right|done].
    + intros (p' & [->|Hp']%elem_of_cons & Hres).
      * left. congruence.
      * right. by exists p'.
Qed.

Lemma normalize_paths_resolves resolve paths inputs :
  normalize_paths resolve paths = Ok inputs ->
  forall p, p ∈ paths -> exists q, resolve p = Ok q /\ q ∈ inputs.
Proof.
  intros H%normalize_paths_Forall2 p.
  induction H as [|p' q paths inputs Hpq _ IH].
  - by intros ?%elem_of_nil.
  - intros [->|Hp]%elem_of_cons.
    + exists q. split; [done|by left].
    + destruct (IH Hp) as (q' & Hres & Hq'). exists q'. split; [done|by right].
Qed.

End Dedup.

(** C6. For any list of configured paths that all resolve, the roots kept
    by PathResolver hold no path twice and no kept root is a proper
    path-tree descendant of another; every kept root is the resolution of
    a configured path; every configured path resolves to a kept root or to
    a descendant of one; and the kept roots cover exactly the entries that
    the resolutions of the configured paths cover. *)
Theorem deduplicate_minimal_cover
    (resolve : string -> result Path) (paths : list string) (inputs : list Path) :
  normalize_paths resolve paths = Ok inputs ->
  let roots := deduplicate_parent_paths inputs in
  NoDup roots /\
  (forall r p, r ∈ roots -> p ∈ roots -> r `prefix_of` p -> r = p) /\
  (forall r, r ∈ roots -> exists p, p ∈ paths /\ resolve p = Ok r) /\
  (forall p, p ∈ paths -> exists q, resolve p = Ok q /\ reachable_from roots q) /\
  (forall e, reachable_from roots e <->
             exists p q, p ∈ paths /\ resolve p = Ok q /\ q `prefix_of` e).
Proof.
  intros Hnorm roots.
  pose proof (normalize_paths_elem_of _ _ _ Hnorm) as Hin.
  destruct (dedup_inv_loop _ _ (dedup_inv_start inputs)) as [Hnd Hun _ _].
  assert (Hfrom : forall r, r ∈ roots -> r ∈ inputs).
  { intros r Hr.
    apply dedup_loop_from in Hr as [Hr|Hr]; [by apply elem_of_nil in Hr|].
    by apply elem_of_sorted. }
  assert (Hcover : forall q, q ∈ inputs -> reachable_from roots q).
  { intros q Hq. apply dedup_loop_covers. by apply elem_of_sorted. }
  split; [exact Hnd|]. split; [exact Hun|]. split; [|split].
  - intros r Hr. by apply Hin, Hfrom.
  - intros p Hp. destruct (normalize_paths_resolves _ _ _ Hnorm p Hp) as (q & Hq & Hqin).
    exists q. split; [done|]. by apply Hcover.
  - intros e. split.
    + intros (r & Hr & Hre). apply Hfrom, Hin in Hr as (p & Hp & Hres).
      by exists p, r.
    + intros (p & q & Hp & Hres & Hqe).
      destruct (Hcover q) as (r & Hr & Hrq).
      { apply Hin. by exists p. }
      exists r. split; [exact Hr|]. by etrans.
Qed.

Lemma deduplicate_minimal_cover_witness :
  let resolve := fun p => Ok (sample_resolve p) in
  let paths := ["/data/a"; "/data/a/sub"; "/data/missing"] in
  let roots := [["/"; "data"; "a"]; ["/"; "data"; "missing"]] in
  NoDup roots /\
  (forall r p, r ∈ roots -> p ∈ roots -> r `prefix_of` p -> r = p) /\
  (forall r, r ∈ roots -> exists p, p ∈ paths /\ resolve p = Ok r) /\
  (forall p, p ∈ paths -> exists q, resolve p = Ok q /\ reachable_from roots q) /\
  (forall e, reachable_from roots e <->
             exists p q, p ∈ paths /\ resolve p = Ok q /\ q `prefix_of` e).
Proof.
  intros resolve paths roots.
  apply (deduplicate_minimal_cover resolve paths
           [["/"; "data"; "a"]; ["/"; "data"; "a"; "sub"]; ["/"; "data"; "missing"]]).
  vm_compute. reflexivity.
Defined.

(** The example of the specification: ["/data/a"; "/data/a/sub"; "/data/b"]. *)
Example deduplicate_example :
  deduplicate_parent_paths
    [["/"; "data"; "a"]; ["/"; "data"; "a"; "sub"]; ["/"; "data"; "b"]]
  = [["/"; "data"; "a"]; ["/"; "data"; "b"]].
Proof. vm_compute. reflexivity. Qed.

(** Sibling names that share a string prefix are kept apart. *)
Example deduplicate_siblings :
  deduplicate_parent_paths [["/"; "data"; "ab"]; ["/"; "data"; "a"]]
  = [["/"; "data"; "a"]; ["/"; "data"; "ab"]].
Proof. vm_compute. reflexivity. Qed.


(** ** TreeScanner: what the walk emits *)

Section WalkFacts.

Lemma walk_into_below follow e :
  forall top t, t ∈ walk_into follow kept top e -> below top t.
Proof.
  induction e as [n|n l|n l es IH] using entry_tree_ind; intros top t; simpl.
  - by intros ?%elem_of_nil.
  - destruct (kept n && (follow || negb l)); by intros ?%elem_of_nil.
  - destruct (kept n) eqn:Hk; simpl; [|by intros ?%elem_of_nil].
    destruct (follow || negb l); [|by intros ?%elem_of_nil].
    assert (Hn : skipped n = false) by (unfold kept in Hk; by destruct (skipped n)).
    intros [->|Ht]%elem_of_cons.
    + exists [n]. split; [done|]. by constructor.
    + apply list_elem_of_In, in_flat_map in Ht as (e & He & Ht).
      apply list_elem_of_In in He, Ht.
      rewrite Forall_forall in IH.
      destruct (IH e He _ _ Ht) as (rel & Heq & Hrel).
      exists (n :: rel). rewrite Heq. unfold path_div. rewrite <- app_assoc.
      split; [done|]. by constructor.
Qed.

Lemma walk_below follow es top t :
  t ∈ walk follow kept top es -> below top t.
Proof.
  unfold walk. intros [->|Ht]%elem_of_cons.
  - exists []. by rewrite app_nil_r.
  - apply list_elem_of_In, in_flat_map in Ht as (e & _ & Ht).
    apply list_elem_of_In in Ht. by eapply walk_into_below.
Qed.

Lemma records_of_spec root dirpath ds fs r :
  r ∈ records_of root (dirpath, ds, fs) ->
  root_path r = path_str root /\
  full_path r = path_str (path_div dirpath (name r)) /\
  skipped (name r) = false.
Proof.
  unfold records_of. intros [H|H]%elem_of_app.
  - apply list_elem_of_fmap in H as (d & -> & Hd). simpl.
    apply list_elem_of_filter in Hd as [Hd _].
    unfold kept in Hd. by destruct (skipped d).
  - apply list_elem_of_In, in_flat_map in H as (f & _ & H).
    destruct (skipped f) eqn:E; [done|].
    destruct H as [<-|[]]. done.
Qed.

End WalkFacts.

Example scan_root_sample :
  scan_root sample_fs ["/"; "data"; "a"] false =
  [ {| type := "dir"; root_path := "/data/a"; full_path := "/data/a/sub"; name := "sub" |};
    {| type := "dir"; root_path := "/data/a"; full_path := "/data/a/link"; name := "link" |};
    {| type := "file"; root_path := "/data/a"; full_path := "/data/a/x.txt"; name := "x.txt" |};
    {| type := "file"; root_path := "/data/a"; full_path := "/data/a/sub/y.txt"; name := "y.txt" |} ].
Proof. vm_compute. reflexivity. Qed.

Example scan_root_sample_follow :
  map full_path (scan_root sample_fs ["/"; "data"; "a"] true) =
  [ "/data/a/sub"; "/data/a/link"; "/data/a/x.txt"; "/data/a/sub/y.txt";
    "/data/a/link/z.txt" ].
Proof. vm_compute. reflexivity. Qed.

(** C7. Every record that TreeScanner emits for a root [R] carries [R] as
    its root path; its full path is [R] followed by a chain of names that
    ends in the record's name; no name of that chain, the record's name
    included, starts with ["."] or is ["@eaDir"]: such entries are neither
    entered nor emitted. *)
Theorem scan_root_records_below_root
    (fs : filesystem) (root : Path) (follow_symlinks : bool) (r : ScanRecord) :
  r ∈ scan_root fs root follow_symlinks ->
  root_path r = path_str root /\
  (exists rel, full_path r = path_str (root ++ rel) /\
               root `prefix_of` (root ++ rel) /\
               last rel = Some (name r) /\
               Forall (fun d => String.prefix "." d = false /\ d <> "@eaDir") rel) /\
  String.prefix "." (name r) = false /\ name r <> "@eaDir".
Proof.
  assert (Hskip : forall d, skipped d = false ->
                            String.prefix "." d = false /\ d <> "@eaDir").
  { intros d [H1 H2]%orb_false_iff. split; [done|].
    by apply String.eqb_neq. }
  unfold scan_root. destruct (fs root) as [| |es|]; try by intros ?%elem_of_nil.
  intros Hr. apply list_elem_of_In, in_flat_map in Hr as (t & Ht & Hr).
  apply list_elem_of_In in Ht, Hr. destruct t as [[dirpath ds] fns].
  apply walk_below in Ht as (rel & Hrel & Hkept). simpl in Hrel. subst dirpath.
  apply records_of_spec in Hr as (Hroot & Hfull & Hname).
  split; [done|]. split; [|by apply Hskip].
  exists (rel ++ [name r]). unfold path_div in Hfull.
  split; [by rewrite app_assoc|]. split; [by eexists|].
  split; [by rewrite last_snoc|].
  apply Forall_app. split.
  - eapply Forall_impl; [exact Hkept|]. exact Hskip.
  - constructor; [by apply Hskip|constructor].
Qed.

Lemma scan_root_records_below_root_witness :
  let r := {| type := "file"; root_path := "/data/a";
              full_path := "/data/a/sub/y.txt"; name := "y.txt" |} in
  root_path r = "/data/a" /\
  (exists rel, full_path r = path_str (["/"; "data"; "a"] ++ rel) /\
               ["/"; "data"; "a"] `prefix_of` (["/"; "data"; "a"] ++ rel) /\
               last rel = Some (name r) /\
               Forall (fun d => String.prefix "." d = false /\ d <> "@eaDir") rel) /\
  String.prefix "." (name r) = false /\ name r <> "@eaDir".
Proof.
  intros r.
  apply (scan_root_records_below_root sample_fs ["/"; "data"; "a"] false r).
  vm_compute. do 3 right. left.
Defined.


(** ** RecordSink: the record file *)

Example write_csv_empty :
  write_csv [] = "type,root_path,full_path,name" +:+ lineterminator.
Proof. vm_compute. reflexivity. Qed.

Example write_csv_quoting :
  write_csv [ {| type := "file"; root_path := "/data/a";
                 full_path := "/data/a/x,y.txt"; name := "x,y.txt" |} ]
  = "type,root_path,full_path,name" +:+ lineterminator +:+
    "file,/data/a," +:+ String dquote "/data/a/x,y.txt" +:+ String dquote "," +:+
    String dquote "x,y.txt" +:+ String dquote lineterminator.
Proof. vm_compute. reflexivity. Qed.

Example read_csv_quoting :
  read_csv (write_csv [ {| type := "file"; root_path := "/data/a";
                           full_path := "/data/a/x,y.txt"; name := "x,y.txt" |} ])
  = Some [ fieldnames; ["file"; "/data/a"; "/data/a/x,y.txt"; "x,y.txt"] ].
Proof. vm_compute. reflexivity. Qed.

Section CsvFacts.

Lemma append_String c s t : String c s +:+ t = String c (s +:+ t).
Proof. reflexivity. Qed.

Lemma append_empty_l s : "" +:+ s = s.
Proof. reflexivity. Qed.

Lemma append_empty_r s : s +:+ "" = s.
Proof. induction s as [|c s IH]; [done|]. by rewrite append_String, IH. Qed.

Lemma append_assoc s t u : (s +:+ t) +:+ u = s +:+ (t +:+ u).
Proof. induction s as [|c s IH]; [done|]. by rewrite !append_String, IH. Qed.

Lemma append_snoc s c t : (s +:+ String c "") +:+ t = s +:+ String c t.
Proof. by rewrite append_assoc. Qed.

Lemma special_false c :
  special c = false ->
  Ascii.eqb c comma = false /\ Ascii.eqb c dquote = false /\
  Ascii.eqb c CR = false /\ Ascii.eqb c LF = false.
Proof. unfold special. rewrite !orb_false_iff. tauto. Qed.

(** A bare field is read back character by character. *)
Lemma read_bare field : has_special field = false ->
  forall rest acc row,
    read (field +:+ rest) Unquoted acc row = read rest Unquoted (acc +:+ field) row.
Proof.
  induction field as [|c field IH]; intros Hs rest acc row.
  - by rewrite append_empty_l, append_empty_r.
  - simpl in Hs. apply orb_false_iff in Hs as [Hc Hs].
    apply special_false in Hc as (H1 & H2 & H3 & H4).
    rewrite append_String. simpl. rewrite H1, H2, H3, H4.
    by rewrite IH, append_snoc.
Qed.

(** Inside quotes every character is data, and a doubled quote is one. *)
Lemma read_escaped field rest acc row :
  read (escape field +:+ rest) Quoted acc row = read rest Quoted (acc +:+ field) row.
Proof.
  revert acc. induction field as [|c field IH]; intros acc.
  - by rewrite append_empty_l, append_empty_r.
  - simpl. destruct (Ascii.eqb_spec c dquote) as [->|Hne].
    + rewrite !append_String. simpl. by rewrite IH, append_snoc.
    + rewrite append_String. simpl.
      apply Ascii.eqb_neq in Hne. by rewrite Hne, IH, append_snoc.
Qed.

(** A written field, followed by the delimiter or the line end, reads as
    that field. *)
Lemma read_field field c rest row : c = comma \/ c = CR ->
  read (quote_field field +:+ String c rest) FieldStart "" row
  = read (String c rest) Unquoted field row.
Proof.
  intros Hc. unfold quote_field. destruct (has_special field) eqn:Hs.
  - rewrite append_String, append_assoc, append_String, append_empty_l.
    change (read (String dquote ?t) FieldStart "" row) with (read t Quoted "" row).
    rewrite read_escaped, append_empty_l.
    change (read (String dquote ?t) Quoted field row) with (read t QuoteSeen field row).
    by destruct Hc as [-> | ->].
  - destruct field as [|c' field].
    + rewrite append_empty_l. by destruct Hc as [-> | ->].
    + simpl in Hs. apply orb_false_iff in Hs as [Hc' Hs].
      apply special_false in Hc' as (H1 & H2 & H3 & H4).
      rewrite append_String. simpl. rewrite H1, H2, H3, H4.
      by rewrite read_bare.
Qed.

(** A written line reads as one row, and reading goes on after it. *)
Lemma read_join fields rest : fields <> [] -> forall row,
  read (join_fields fields +:+ lineterminator +:+ rest) FieldStart "" row
  = cons (row ++ fields) <$> read rest FieldStart "" [].
Proof.
  induction fields as [|f fields IH]; [done|]. intros _ row.
  destruct fields as [|g fields].
  - simpl join_fields. unfold lineterminator. rewrite append_String.
    rewrite read_field by (by right). done.
  - change (join_fields (f :: g :: fields))
      with (quote_field f +:+ String comma (join_fields (g :: fields))).
    rewrite append_assoc, append_String, read_field by (by left).
    change (read (String comma ?t) Unquoted f row)
      with (read t FieldStart "" (row ++ [f])).
    rewrite IH by done. by rewrite <- app_assoc.
Qed.

Lemma read_writerow fields rest : fields <> [] ->
  read (writerow fields +:+ rest) FieldStart "" []
  = cons fields <$> read rest FieldStart "" [].
Proof.
  intros Hne.
  assert (Hgen : read ((join_fields fields +:+ lineterminator) +:+ rest)
                   FieldStart "" []
                 = cons fields <$> read rest FieldStart "" []).
  { rewrite append_assoc. by rewrite read_join. }
  destruct fields as [|f fields]; [done|].
  destruct f as [|c f]; [|exact Hgen].
  destruct fields as [|g fields]; [|exact Hgen].
  done.
Qed.

Lemma dict_to_list_values row :
  dict_to_list row = [type row; root_path row; full_path row; name row].
Proof. reflexivity. Qed.

Lemma read_writerows rows :
  read (writerows rows) FieldStart "" [] = Some (map dict_to_list rows).
Proof.
  induction rows as [|row rows IH]; [done|].
  change (writerows (row :: rows))
    with (writerow (dict_to_list row) +:+ writerows rows).
  rewrite read_writerow by done. by rewrite IH.
Qed.

End CsvFacts.

(** C5, as the code has it. The record file begins with the header row
    [type,root_path,full_path,name], ended by CR LF; after it comes one
    line per record, in order; and a reader that follows the standard
    quoting gets back the four column names and then, for every record,
    its four values unchanged, whatever delimiters they hold. *)
Theorem write_csv_header_and_rows (rows : list ScanRecord) :
  write_csv rows
    = ("type,root_path,full_path,name" +:+ lineterminator) +:+ writerows rows /\
  read_csv (write_csv rows)
    = Some (["type"; "root_path"; "full_path"; "name"]
            :: map (fun r => [type r; root_path r; full_path r; name r]) rows).
Proof.
  split; [reflexivity|].
  unfold read_csv, write_csv, writeheader.
  rewrite read_writerow by done. by rewrite read_writerows.
Qed.

(** C5, as the claim words it: the first column of the header is not
    [kind]. Already the file of a run without records differs. *)
Lemma write_csv_header_not_kind :
  String.prefix "kind,root_path,full_path,name" (write_csv []) = false /\
  read_csv (write_csv []) <> Some [["kind"; "root_path"; "full_path"; "name"]].
Proof. split; [vm_compute; reflexivity|]. vm_compute. discriminate. Qed.


(** ** RetentionManager: the pattern of dated names *)

Example pattern_match_dated : pattern_match "scan_20240131_235959.csv" = true.
Proof. vm_compute. reflexivity. Qed.

Example pattern_match_latest : pattern_match LATEST_CSV_NAME = false.
Proof. vm_compute. reflexivity. Qed.

Example pattern_match_short : pattern_match "scan_2024013_235959.csv" = false.
Proof. vm_compute. reflexivity. Qed.

Example pattern_match_suffix : pattern_match "scan_20240131_235959.csv.bak" = false.
Proof. vm_compute. reflexivity. Qed.

Example pattern_match_newline :
  pattern_match ("scan_20240131_235959.csv" +:+ String LF "") = true.
Proof. vm_compute. reflexivity. Qed.

(** The class [\d] holds every decimal digit of Unicode: a name written
    with Arabic-Indic or with fullwidth digits is a dated name, one with a
    superscript digit is not. *)
Example pattern_match_arabic_indic :
  pattern_match "scan_٢٠٢٤٠١٣١_٢٣٥٩٥٩.csv" = true.
Proof. vm_compute. reflexivity. Qed.

Example pattern_match_fullwidth :
  pattern_match "scan_２０２４０１３１_235959.csv" = true.
Proof. vm_compute. reflexivity. Qed.

Example pattern_match_superscript :
  pattern_match "scan_²0240131_235959.csv" = false.
Proof. vm_compute. reflexivity. Qed.

(** ** RetentionManager: what a cleanup removes *)

Section RetentionFacts.

(** The fixed name of the latest file is not a dated name: the test on it
    in the loop never changes what the pattern decides. *)
Lemma expired_pattern expire_before name f :
  expired expire_before name f
  = is_file f && pattern_match name && (mtime f <? expire_before)%Z.
Proof.
  unfold expired. destruct (is_file f); simpl; [|done].
  destruct (String.eqb_spec name LATEST_CSV_NAME) as [->|Hne]; [done|].
  by destruct (pattern_match name).
Qed.


Lemma timedelta_days_int days delta :
  timedelta_days (JInt days) = Ok delta -> delta = (days * microseconds_per_day)%Z.
Proof.
  unfold timedelta_days. destruct (negb _); [done|].
  destruct (_ <? _)%Z; [done|]. by intros [= <-].
Qed.

Variable os : OS.
Variable expire_before : Z.

(** One turn of the loop. *)
Lemma cleanup_loop_cons name f rest removed w :
  cleanup_loop os expire_before ((name, f) :: rest) removed w =
    match fault os (IsFile name) with
    | Some e => (w, Raise e)
    | None =>
        if expired expire_before name f then
          match fault os (Stat name) with
          | Some e => (w, Raise e)
          | None =>
              match fault os (Unlink name) with
              | Some e => (w, Raise e)
              | None =>
                  cleanup_loop os expire_before rest (S removed)
                    (set_out_dir (delete name (out_dir w)) w)
              end
          end
        else if is_file f && negb (String.eqb name LATEST_CSV_NAME)
                && pattern_match name then
          match fault os (Stat name) with
          | Some e => (w, Raise e)
          | None => cleanup_loop os expire_before rest removed w
          end
        else cleanup_loop os expire_before rest removed w
    end.
Proof.
  cbn [cleanup_loop]. unfold mbind, M_bind, call, modify, expired.
  destruct (fault os (IsFile name)); [done|].
  destruct (is_file f); simpl; [|done].
  destruct (String.eqb name LATEST_CSV_NAME); simpl; [done|].
  destruct (pattern_match name); simpl; [|done].
  destruct (fault os (Stat name)); [by destruct (_ <? _)%Z|].
  destruct (_ <? _)%Z; [|done].
  by destruct (fault os (Unlink name)).
Qed.

(** What the loop does on every way out: it removes nothing but entries
    that it finds expired, and raises nothing but what the operating
    system answers to one of its calls. *)
Lemma cleanup_loop_any entries removed w w' r :
  cleanup_loop os expire_before entries removed w = (w', r) ->
  marker w' = marker w /\
  (forall name,
     out_dir w' !! name = out_dir w !! name \/
     out_dir w' !! name = None /\
     exists f, (name, f) ∈ entries /\ expired expire_before name f = true) /\
  (forall e, r = Raise e -> exists op, cleanup_op op /\ fault os op = Some e).
Proof.
  revert removed w. induction entries as [|[name f] rest IH]; intros removed w.
  { intros [= <- <-]. split; [done|]. split; [by left|done]. }
  rewrite cleanup_loop_cons.
  assert (Hrest : forall removed' w0,
            cleanup_loop os expire_before rest removed' w0 = (w', r) ->
            out_dir w0 = out_dir w -> marker w0 = marker w ->
            marker w' = marker w /\
            (forall name0,
               out_dir w' !! name0 = out_dir w !! name0 \/
               out_dir w' !! name0 = None /\
               exists f0, (name0, f0) ∈ (name, f) :: rest /\
                          expired expire_before name0 f0 = true) /\
            (forall e, r = Raise e -> exists op, cleanup_op op /\ fault os op = Some e)).
  { intros removed' w0 Hrun Hd Hm.
    destruct (IH _ _ Hrun) as (Hm' & Hl & He). split; [congruence|]. split; [|done].
    intros name0. rewrite <- Hd. destruct (Hl name0) as [?|(? & f0 & ? & ?)]; [by left|].
    right. split; [done|]. exists f0. split; [by right|done]. }
  assert (Hstop : forall op e, cleanup_op op -> fault os op = Some e ->
            (w, Raise e) = (w', r) ->
            marker w' = marker w /\
            (forall name0,
               out_dir w' !! name0 = out_dir w !! name0 \/
               out_dir w' !! name0 = None /\
               exists f0, (name0, f0) ∈ (name, f) :: rest /\
                          expired expire_before name0 f0 = true) /\
            (forall e, r = Raise e -> exists op, cleanup_op op /\ fault os op = Some e)).
  { intros op e Hop Hf [= <- <-]. split; [done|]. split; [by left|].
    intros e' [= <-]. by exists op. }
  destruct (fault os (IsFile name)) as [e|] eqn:F1; [by apply (Hstop (IsFile name))|].
  destruct (expired expire_before name f) eqn:Hex.
  - destruct (fault os (Stat name)) as [e|] eqn:F2; [by apply (Hstop (Stat name))|].
    destruct (fault os (Unlink name)) as [e|] eqn:F3; [by apply (Hstop (Unlink name))|].
    intros Hrun. destruct (IH _ _ Hrun) as (Hm' & Hl & He).
    split; [done|]. split; [|done]. intros name0.
    destruct (Hl name0) as [Heq|(Hnone & f0 & Hin & Hex0)].
    + simpl in Heq. destruct (decide (name0 = name)) as [->|Hne].
      * rewrite lookup_delete_eq in Heq. right. split; [done|].
        exists f. split; [by left|done].
      * rewrite lookup_delete_ne in Heq by done. by left.
    + right. split; [done|]. exists f0. split; [by right|done].
  - destruct (_ && _).
    + destruct (fault os (Stat name)) as [e|] eqn:F2; [by apply (Hstop (Stat name))|].
      intros Hrun. by apply (Hrest _ _ Hrun).
    + intros Hrun. by apply (Hrest _ _ Hrun).
Qed.

(** What the loop leaves when it goes through the entries of the
    directory. *)
Lemma cleanup_loop_Ok entries removed w w' n :
  NoDup entries.*1 ->
  (forall name f, (name, f) ∈ entries -> out_dir w !! name = Some f) ->
  cleanup_loop os expire_before entries removed w = (w', Ok n) ->
  (forall name f, (name, f) ∈ entries ->
     out_dir w' !! name = if expired expire_before name f then None else Some f) /\
  (forall name, name ∉ entries.*1 -> out_dir w' !! name = out_dir w !! name) /\
  (size (out_dir w') + n = size (out_dir w) + removed)%nat /\
  Forall (passes os expire_before) entries.
Proof.
  revert removed w. induction entries as [|[name f] rest IH]; intros removed w.
  { intros _ _ [= <- <-]. split; [by intros ?? ?%elem_of_nil|].
    split; [done|]. split; [done|constructor]. }
  intros [Hname Hnd]%NoDup_cons Hin. rewrite cleanup_loop_cons.
  assert (Hf : out_dir w !! name = Some f) by (apply Hin; by left).
  assert (Hother : forall name0 f0, (name0, f0) ∈ rest -> name0 <> name).
  { intros name0 f0 H0 ->. apply Hname. apply list_elem_of_fmap. by exists (name, f0). }
  destruct (fault os (IsFile name)) as [e|] eqn:F1; [done|].
  destruct (expired expire_before name f) eqn:Hex.
  - destruct (fault os (Stat name)) as [e|] eqn:F2; [done|].
    destruct (fault os (Unlink name)) as [e|] eqn:F3; [done|].
    intros Hrun.
    destruct (IH (S removed) (set_out_dir (delete name (out_dir w)) w) Hnd)
      as (Hl & Hout & Hsize & Hpass); [|exact Hrun|].
    { intros name0 f0 H0. simpl. rewrite lookup_delete_ne; [|by eapply not_eq_sym, Hother].
      apply Hin. by right. }
    split; [|split; [|split]].
    + intros name0 f0 [[= -> ->]|H0]%elem_of_cons; [|by apply Hl].
      rewrite Hex, (Hout name Hname). simpl. apply lookup_delete_eq.
    + intros name0 [Hne Hrest]%not_elem_of_cons. rewrite (Hout name0 Hrest).
      simpl. by rewrite lookup_delete_ne.
    + simpl in Hsize. rewrite map_size_delete_Some in Hsize by done.
      assert (0 < size (out_dir w))%nat; [|lia].
      apply Nat.neq_0_lt_0. intros H0%map_size_empty_inv. by rewrite H0 in Hf.
    + constructor; [|done]. split; [done|]. intros _ _ _. by split.
  - assert (Hkeep : forall w0, cleanup_loop os expire_before rest removed w0 = (w', Ok n) ->
              w0 = w ->
              (forall name0 f0, (name0, f0) ∈ (name, f) :: rest ->
                 out_dir w' !! name0
                 = if expired expire_before name0 f0 then None else Some f0) /\
              (forall name0, name0 ∉ ((name, f) :: rest).*1 ->
                 out_dir w' !! name0 = out_dir w !! name0) /\
              (size (out_dir w') + n = size (out_dir w) + removed)%nat /\
              Forall (passes os expire_before) rest).
    { intros w0 Hrun ->.
      destruct (IH removed w Hnd) as (Hl & Hout & Hsize & Hpass); [|exact Hrun|].
      { intros name0 f0 H0. apply Hin. by right. }
      split; [|split; [|split]]; try done.
      - intros name0 f0 [[= -> ->]|H0]%elem_of_cons; [|by apply Hl].
        by rewrite Hex, (Hout name Hname).
      - intros name0 [Hne Hrest]%not_elem_of_cons. by apply Hout. }
    destruct (is_file f && negb (String.eqb name LATEST_CSV_NAME)
              && pattern_match name) eqn:Hreach.
    + destruct (fault os (Stat name)) as [e|] eqn:F2; [done|].
      intros Hrun. destruct (Hkeep _ Hrun eq_refl) as (? & ? & ? & ?).
      repeat split; try done. constructor; [|done]. split; [done|].
      intros _ _ _. split; [done|]. intros Hlt. exfalso. simpl in Hlt.
      rewrite expired_pattern in Hex.
      apply andb_true_iff in Hreach as [[Hf' _]%andb_true_iff Hp'].
      rewrite Hf', Hp' in Hex. simpl in Hex. apply Z.ltb_ge in Hex. lia.
    + intros Hrun. destruct (Hkeep _ Hrun eq_refl) as (? & ? & ? & ?).
      repeat split; try done. constructor; [|done]. split; [done|].
      intros Hfile Hne Hpat. exfalso. simpl in Hfile, Hne, Hpat.
      rewrite Hfile, Hpat in Hreach.
      destruct (String.eqb_spec name LATEST_CSV_NAME); [done|by simpl in Hreach].
Qed.

(** Where every call goes through and nothing has expired, the loop
    leaves the directory as it is. *)
Lemma cleanup_loop_idle entries removed w :
  Forall (passes os expire_before) entries ->
  Forall (fun nf => expired expire_before nf.1 nf.2 = false) entries ->
  cleanup_loop os expire_before entries removed w = (w, Ok removed).
Proof.
  induction 1 as [|[name f] rest [Hfile Hstat] _ IH]; intros Hex; [done|].
  apply Forall_cons in Hex as [Hex Hrest]. simpl in Hex, Hfile, Hstat.
  rewrite cleanup_loop_cons, Hfile, Hex.
  destruct (is_file f && negb (String.eqb name LATEST_CSV_NAME)
            && pattern_match name) eqn:Hreach; [|by apply IH].
  apply andb_true_iff in Hreach as [[Hf Hne]%andb_true_iff Hpat].
  destruct Hstat as [-> _]; try done; [|by apply IH].
  intros ->. by rewrite String.eqb_refl in Hne.
Qed.

(** With every call going through the loop goes through. *)
Lemma cleanup_loop_quiet entries removed w :
  (forall op, cleanup_op op -> fault os op = None) ->
  exists w' n, cleanup_loop os expire_before entries removed w = (w', Ok n).
Proof.
  intros Hq. revert removed w.
  induction entries as [|[name f] rest IH]; intros removed w; [by eexists _, _|].
  rewrite cleanup_loop_cons, !Hq by done.
  destruct (expired _ _ _); [apply IH|]. destruct (_ && _); apply IH.
Qed.

End RetentionFacts.

Section CleanupFacts.

Lemma elem_of_listing os w name f :
  (name, f) ∈ listing os w <-> out_dir w !! name = Some f.
Proof.
  unfold listing. rewrite merge_sort_Permutation. apply elem_of_map_to_list.
Qed.

Lemma NoDup_listing os w : NoDup (listing os w).*1.
Proof.
  unfold listing. rewrite merge_sort_Permutation. apply NoDup_fst_map_to_list.
Qed.

Lemma not_elem_of_listing os w name :
  out_dir w !! name = None -> name ∉ (listing os w).*1.
Proof.
  intros Hnone ([name' f] & -> & Hin%elem_of_listing)%list_elem_of_fmap.
  simpl in Hnone. congruence.
Qed.

(** How a call of [cleanup_old_outputs] unfolds. *)
Lemma cleanup_old_outputs_inv os now keep_days w w' r :
  cleanup_old_outputs os now keep_days w = (w', r) ->
  (w' = w /\ exists e, r = Raise e /\
     (timedelta_days keep_days = Raise e \/
      exists delta, timedelta_days keep_days = Ok delta /\
                    datetime_sub now delta = Raise e)) \/
  (w' = w /\ exists e, r = Raise e /\ fault os Iterdir = Some e) \/
  (exists delta, timedelta_days keep_days = Ok delta /\
     datetime_sub now delta = Ok (now - delta)%Z /\
     fault os Iterdir = None /\
     cleanup_loop os (now - delta) (listing os w) 0 w = (w', r)).
Proof.
  unfold cleanup_old_outputs.
  destruct (timedelta_days keep_days) as [delta|e] eqn:Hd.
  - destruct (datetime_sub now delta) as [t|e] eqn:Hs.
    + unfold mbind, M_bind, call.
      destruct (fault os Iterdir) as [e|] eqn:Hi.
      * intros [= <- <-]. right. left. split; [done|]. by exists e.
      * intros Hrun. right. right. exists delta.
        assert (t = (now - delta)%Z) as ->.
        { unfold datetime_sub in Hs. destruct (_ && _); [|done]. by injection Hs. }
        done.
    + intros [= <- <-]. left. split; [done|]. exists e. split; [done|].
      right. by exists delta.
  - intros [= <- <-]. left. split; [done|]. exists e. split; [done|]. by left.
Qed.

(** What a cleanup that goes through leaves of each entry. *)
Lemma cleanup_old_outputs_lookup os now keep_days w w' n :
  cleanup_old_outputs os now keep_days w = (w', Ok n) ->
  exists delta,
    timedelta_days keep_days = Ok delta /\
    datetime_sub now delta = Ok (now - delta)%Z /\
    (forall name,
       out_dir w' !! name =
         match out_dir w !! name with
         | Some f => if expired (now - delta) name f then None else Some f
         | None => None
         end) /\
    (size (out_dir w') + n = size (out_dir w))%nat /\
    Forall (passes os (now - delta)) (listing os w).
Proof.
  intros [(_ & e & [=] & _)|[(_ & e & [=] & _)|(delta & Hd & Hs & _ & Hloop)]]%cleanup_old_outputs_inv.
  exists delta. split; [done|]. split; [done|].
  destruct (cleanup_loop_Ok os (now - delta) (listing os w) 0 w w' n)
    as (Hl & Hout & Hsize & Hpass); [apply NoDup_listing| |done|].
  { intros name f. by rewrite elem_of_listing. }
  split; [|split; [lia|done]].
  intros name. destruct (out_dir w !! name) as [f|] eqn:Hf.
  - apply Hl. by apply elem_of_listing.
  - rewrite Hout; [done|]. by apply not_elem_of_listing.
Qed.

Lemma cleanup_old_outputs_marker_of os now days w w' r :
  cleanup_old_outputs os now days w = (w', r) -> marker w' = marker w.
Proof.
  intros [(-> & _)|[(-> & _)|(delta & _ & _ & _ & Hloop)]]%cleanup_old_outputs_inv;
    try done.
  by destruct (cleanup_loop_any _ _ _ _ _ _ _ Hloop) as (? & _).
Qed.

(** Whatever the way out, an entry is as before or gone, and only a plain
    file with a dated name is ever gone. *)
Lemma cleanup_old_outputs_only_expired os now days w w' r name :
  cleanup_old_outputs os now days w = (w', r) ->
  out_dir w' !! name = out_dir w !! name \/
  out_dir w' !! name = None /\
  exists f, out_dir w !! name = Some f /\ is_file f = true /\
            name <> LATEST_CSV_NAME /\ pattern_match name = true.
Proof.
  intros [(-> & _)|[(-> & _)|(delta & _ & _ & _ & Hloop)]]%cleanup_old_outputs_inv;
    try by left.
  destruct (cleanup_loop_any _ _ _ _ _ _ _ Hloop) as (_ & Hl & _).
  destruct (Hl name) as [?|(Hnone & f & Hin%elem_of_listing & Hex)]; [by left|].
  right. split; [done|]. exists f. split; [done|].
  unfold expired in Hex. destruct (is_file f); [|done].
  destruct (String.eqb_spec name LATEST_CSV_NAME); [done|].
  by destruct (pattern_match name).
Qed.

(** A cleanup raises what the computation of the cutoff raises, before it
    touches the directory, or what the operating system answers to one of
    its calls. *)
Lemma cleanup_old_outputs_raises os now days w w' e :
  cleanup_old_outputs os now days w = (w', Raise e) ->
  (w' = w /\
   (timedelta_days days = Raise e \/
    exists delta, timedelta_days days = Ok delta /\ datetime_sub now delta = Raise e)) \/
  (exists op, cleanup_op op /\ fault os op = Some e).
Proof.
  intros [(-> & e' & [= <-] & H)|[(-> & e' & [= <-] & H)|(delta & _ & _ & _ & Hloop)]]%cleanup_old_outputs_inv.
  - by left.
  - right. by exists Iterdir.
  - right. destruct (cleanup_loop_any _ _ _ _ _ _ _ Hloop) as (_ & _ & He). by apply He.
Qed.

Lemma size_filter_complement (P : string * file -> Prop) `{!forall x, Decision (P x)}
    (m : gmap string file) :
  (size (filter P m) + size (filter (fun x => ~ P x) m) = size m)%nat.
Proof.
  rewrite <- map_size_disj_union by apply map_disjoint_filter_complement.
  by rewrite map_filter_union_complement.
Qed.

End CleanupFacts.

(** X3. RetentionManager, the part of C4 that holds. When the cleanup goes
    through, the cutoff lies [timedelta(days=keep_days)] before [now],
    which for a whole number of days is that many days; an entry is gone
    exactly when it was a plain file with a dated name and a modification
    time strictly before the cutoff; every other entry is as before, the
    marker too; and the count logged is the number of entries removed. *)
Theorem cleanup_old_outputs_removes_expired
    (os : OS) (now : Z) (keep_days : json) (w w' : World) (n : nat) :
  cleanup_old_outputs os now keep_days w = (w', Ok n) ->
  exists delta,
    timedelta_days keep_days = Ok delta /\
    (forall days, keep_days = JInt days -> delta = (days * microseconds_per_day)%Z) /\
    let cutoff := (now - delta)%Z in
    (forall name f, out_dir w !! name = Some f ->
       (out_dir w' !! name = None <->
          is_file f = true /\ pattern_match name = true /\ (mtime f < cutoff)%Z) /\
       (out_dir w' !! name = None \/ out_dir w' !! name = Some f)) /\
    (forall name, out_dir w !! name = None -> out_dir w' !! name = None) /\
    marker w' = marker w /\
    n = size (filter (fun nf => is_file nf.2 = true /\ pattern_match nf.1 = true /\
                                (mtime nf.2 < cutoff)%Z) (out_dir w)).
Proof.
  intros Hrun.
  destruct (cleanup_old_outputs_lookup _ _ _ _ _ _ Hrun)
    as (delta & Hd & _ & Hl & Hsize & _).
  exists delta. split; [done|]. split.
  { intros days ->. by apply timedelta_days_int. }
  intros cutoff. split; [|split; [|split]].
  - intros name f Hf. rewrite (Hl name), Hf, expired_pattern. fold cutoff.
    destruct (is_file f), (pattern_match name); simpl;
      try (split; [split; [done|]; by intros (? & ? & ?)|by right]).
    destruct (Z.ltb_spec (mtime f) cutoff).
    + split; [by split|by left].
    + split; [|by right]. split; [done|]. intros (_ & _ & ?). lia.
  - intros name Hnone. by rewrite (Hl name), Hnone.
  - by eapply cleanup_old_outputs_marker_of.
  - set (P := fun nf : string * file =>
                is_file nf.2 = true /\ pattern_match nf.1 = true /\
                (mtime nf.2 < cutoff)%Z).
    pose proof (size_filter_complement P (out_dir w)) as Hsum.
    match type of Hsum with
    | (_ + ?s2 = _)%nat => enough (size (out_dir w') = s2) by lia
    end.
    f_equal.
    apply map_eq. intros name. rewrite (Hl name), map_lookup_filter.
    destruct (out_dir w !! name) as [f|]; simpl; [|done].
    rewrite expired_pattern. fold cutoff.
    destruct (decide (P (name, f))) as [(Hf & Hp & Hlt)|HnP].
    + rewrite option_guard_False; [|intros Hno; by apply Hno].
      simpl in Hf, Hp, Hlt. by rewrite Hf, Hp, (proj2 (Z.ltb_lt _ _) Hlt).
    + rewrite option_guard_True by done.
      destruct (is_file f) eqn:Hf, (pattern_match name) eqn:Hp,
        (Z.ltb_spec (mtime f) cutoff); simpl; try done.
      by destruct HnP.
Qed.

(** X4. A file that carries the fixed name [scan_latest.csv] outlives
    every cleanup, whatever the retention, the clock and the answers of
    the operating system. *)
Theorem cleanup_old_outputs_keeps_fixed_name
    (os : OS) (now : Z) (keep_days : json) (w : World) :
  out_dir (cleanup_old_outputs os now keep_days w).1 !! LATEST_CSV_NAME
  = out_dir w !! LATEST_CSV_NAME.
Proof.
  destruct (cleanup_old_outputs os now keep_days w) as [w' r] eqn:E. simpl.
  destruct (cleanup_old_outputs_only_expired _ _ _ _ _ _ LATEST_CSV_NAME E)
    as [?|(_ & f & _ & _ & Hne & _)]; done.
Qed.

Lemma cleanup_old_outputs_removes_expired_witness :
  let w' := (cleanup_old_outputs quiet_os (day 738915) (JInt 7) dated_latest_world).1 in
  exists delta,
    timedelta_days (JInt 7) = Ok delta /\
    (forall days, JInt 7 = JInt days -> delta = (days * microseconds_per_day)%Z) /\
    let cutoff := (day 738915 - delta)%Z in
    (forall name f, out_dir dated_latest_world !! name = Some f ->
       (out_dir w' !! name = None <->
          is_file f = true /\ pattern_match name = true /\ (mtime f < cutoff)%Z) /\
       (out_dir w' !! name = None \/ out_dir w' !! name = Some f)) /\
    (forall name, out_dir dated_latest_world !! name = None ->
                  out_dir w' !! name = None) /\
    marker w' = marker dated_latest_world /\
    2%nat = size (filter (fun nf => is_file nf.2 = true /\ pattern_match nf.1 = true /\
                                    (mtime nf.2 < cutoff)%Z)
                         (out_dir dated_latest_world)).
Proof.
  intros w'.
  assert (Hrun : cleanup_old_outputs quiet_os (day 738915) (JInt 7) dated_latest_world
                 = (w', Ok 2%nat))
    by (vm_compute; reflexivity).
  exact (cleanup_old_outputs_removes_expired _ _ _ _ _ _ Hrun).
Defined.

(** C4, at the failing input. The latest file is configured under a dated
    name; a cleanup run 30 days after it was written, with 7 days of
    retention, removes it together with the other old dated file, and
    leaves the recent dated file and the note. *)
Theorem cleanup_removes_configured_latest :
  let w' := (action_cleanup dated_latest_config quiet_os (day 738915)
               dated_latest_world).1 in
  out_dir dated_latest_world !! latest_filename dated_latest_config
    = Some {| is_file := true; mtime := day 738885; content := "" |} /\
  out_dir w' !! latest_filename dated_latest_config = None /\
  out_dir w' !! "scan_20231231_000000.csv" = None /\
  is_Some (out_dir w' !! "scan_20240130_000000.csv") /\
  is_Some (out_dir w' !! "notes.txt").
Proof.
  split; [reflexivity|].
  split; [vm_compute; reflexivity|].
  split; [vm_compute; reflexivity|].
  split; vm_compute; eauto.
Qed.

(** ** UploadThrottle: when an upload is tried *)

Section UploadFacts.

(** The branches of [upload_latest_csv_to_oss], one by one. *)
Lemma upload_cases config latest env w :
  upload_latest_csv_to_oss config latest env w =
    match oss config with
    | None => (w, Ok SkippedDisabled)
    | Some oss_cfg =>
        if negb (truth (default (JBool false) (enabled oss_cfg)))
        then (w, Ok SkippedDisabled)
        else
          match latest_exists (upload_os env) latest w with
          | Raise e => (w, Raise e)
          | Ok false => (w, Ok SkippedNoLatest)
          | Ok true =>
              match should_upload_to_oss (upload_os env) oss_cfg (marker w)
                      (time_checked env) with
              | Raise e => (w, Raise e)
              | Ok false => (w, Ok SkippedInterval)
              | Ok true =>
                  match put env with
                  | PutOk request_id =>
                      match mark env with
                      | MarkOk =>
                          (set_marker (MarkerTime (time_marked env)) w,
                           Ok (Uploaded request_id))
                      | MarkRaise e residue =>
                          (set_marker residue w, Ok (UploadFailed e))
                      end
                  | PutRaise e => (w, Ok (UploadFailed e))
                  end
              end
          end
    end.
Proof.
  unfold upload_latest_csv_to_oss.
  destruct (oss config) as [oss_cfg|]; [|done].
  destruct (negb _); [done|].
  destruct (latest_exists _ _ _) as [[|]|]; try done.
  destruct (should_upload_to_oss _ _ _ _) as [[|]|]; try done.
  unfold try_except, mbind, M_bind, mark_oss_upload, raise.
  destruct (put env); [|done]. by destruct (mark env).
Qed.






End UploadFacts.




(** The rounding of the floats shows: with an interval of 0.7 days, a
    marker at 0.0 and the clock at 60479.99999999999 seconds the product
    [0.7 * 86400] is that same number, and the upload is due, although
    seven tenths of a day are 60480 seconds. *)
Example upload_due_rounding :
  let interval := JFloat (S754_finite false 6305039478318694 (-53)) in
  let now := S754_finite false 8312307905986559 (-37) in
  should_upload_to_oss quiet_os
    {| enabled := Some (JBool true); upload_interval_days := Some interval |}
    (MarkerTime (S754_zero false)) now = Ok true /\
  fge_int now 60480 = false.
Proof. split; vm_compute; reflexivity. Qed.

(** ** Running the pipeline: how calls chain *)

Section MonadFacts.

Context {S : Type}.

Lemma bind_Ok {A B} (m : M S A) (f : A -> M S B) s s' a :
  m s = (s', Ok a) -> (m ≫= f) s = f a s'.
Proof. intros H. unfold mbind, M_bind. by rewrite H. Qed.

Lemma bind_Raise {A B} (m : M S A) (f : A -> M S B) s s' e :
  m s = (s', Raise e) -> (m ≫= f) s = (s', Raise e).
Proof. intros H. unfold mbind, M_bind. by rewrite H. Qed.

Lemma bind_inv {A B} (m : M S A) (f : A -> M S B) s s'' r :
  (m ≫= f) s = (s'', r) ->
  (exists s' a, m s = (s', Ok a) /\ f a s' = (s'', r)) \/
  (exists e, m s = (s'', Raise e) /\ r = Raise e).
Proof.
  unfold mbind, M_bind. destruct (m s) as [s' [a|e]].
  - intros H. left. by exists s', a.
  - intros [= <- <-]. right. by exists e.
Qed.

End MonadFacts.

Section PipelineFacts.



Lemma first_refused_Some rows row :
  first_refused rows = Some row -> row ∈ rows /\ encodable (line_of row) = false.
Proof.
  unfold first_refused. intros [Hin Hrow]%find_some.
  split; [by apply list_elem_of_In|]. by apply negb_true_iff.
Qed.





(** The ways through the retention step. *)
Lemma retention_step_inv os config now w w' r :
  retention_step os config now w = (w', r) ->
  (w' = w /\ r = Ok tt /\
   forall days, retention_days config = Some days -> truth days = false) \/
  (exists days r', retention_days config = Some days /\ truth days = true /\
     cleanup_old_outputs os now days w = (w', r') /\
     r = match r' with Ok _ => Ok tt | Raise e => Raise e end).
Proof.
  unfold retention_step. destruct (retention_days config) as [days|].
  - destruct (truth days) eqn:Ht.
    + intros [(w1 & n & H1 & [= <- <-])|(e & H1 & ->)]%bind_inv; right.
      * by exists days, (Ok n).
      * by exists days, (Raise e).
    + intros [= <- <-]. left. split; [done|]. split; [done|]. by intros ? [= <-].
  - intros [= <- <-]. left. by repeat split.
Qed.



(** Whatever the way out of the retention step, an entry is as before or
    gone, and only a plain file with a dated name is ever gone. *)
Lemma retention_step_only_expired os config now w w' r name :
  retention_step os config now w = (w', r) ->
  out_dir w' !! name = out_dir w !! name \/
  out_dir w' !! name = None /\
  exists f, out_dir w !! name = Some f /\ is_file f = true /\
            name <> LATEST_CSV_NAME /\ pattern_match name = true.
Proof.
  intros [(-> & _)|(days & r' & _ & _ & H & _)]%retention_step_inv; [by left|].
  by eapply cleanup_old_outputs_only_expired.
Qed.



End PipelineFacts.

(** ** Missing roots *)

Section MissingRoots.





End MissingRoots.


Example scan_task_sample_default :
  let '(w, r) := scan_task (sample_config None) (sample_env (PutOk "req-1")) empty_world in
  r = Ok tt /\
  content <$> out_dir w !! "scan_latest.csv"
    = Some (write_csv (scan_root sample_fs ["/"; "data"; "a"] false)) /\
  out_dir w !! "scan_20240131_120000.csv" = out_dir w !! "scan_latest.csv" /\
  marker w = MarkerTime (float_of_Z 1001).
Proof. vm_compute. done. Qed.

Example scan_task_sample_strict :
  scan_task (sample_config (Some (JBool false))) (sample_env (PutOk "req-1")) empty_world
  = (empty_world, Raise (RuntimeError (missing_msg ["/"; "data"; "missing"]))).
Proof. vm_compute. reflexivity. Qed.


(** A configured path that the resolver rejects, as it does a chain of
    symbolic links that loops, ends the run before the option is read. *)
Example scan_task_resolve_raises config env w e :
  normalize_paths (resolve env) (paths config) = Raise e ->
  scan_task config env w = (w, Raise e).
Proof.
  intros Hn. unfold scan_task. apply bind_Raise.
  unfold scan_and_store. by rewrite Hn.
Qed.


(** ** The executor contains what an action raises *)

Section ExecutorFacts.

(** [run_action] returns, whatever the action does; the job is left as
    [success] when the action returned and as [error], with the message of
    the exception, when it raised. *)
Lemma run_action_contains name fn job_id t0 t1 p :
  exists p', run_action name fn job_id t0 t1 p = (p', Ok tt) /\
    world p' = (fn (world p)).1 /\
    jobs p' !! job_id =
      Some {| id := job_id; action := name;
              status := (if (fn (world p)).2 is Ok _ then "success" else "error");
              error := (if (fn (world p)).2 is Raise e then exc_msg e else "");
              updated_at := t1 |} /\
    forall other, other <> job_id -> jobs p' !! other = jobs p !! other.
Proof.
  unfold run_action, try_except, mbind, M_bind, record_job, modify, in_world.
  simpl. destruct (fn (world p)) as [w' [[]|e]]; simpl.
  - eexists. split; [done|]. simpl. split; [done|]. split.
    + by rewrite lookup_insert_eq.
    + intros other Hne. by rewrite !lookup_insert_ne.
  - eexists. split; [done|]. simpl. split; [done|]. split.
    + by rewrite lookup_insert_eq.
    + intros other Hne. by rewrite !lookup_insert_ne.
Qed.

(** X2. The synchronous trigger returns, whatever the action does, with the
    job that [run_action] left: [success] when the action returned, and
    [error] with the message of the exception when it raised. *)
Theorem trigger_sync_returns
    (name : string) (fn : M World unit) (job_id : string) (t0 t1 : Q) (p : Process) :
  exists p' job, trigger_sync name fn job_id t0 t1 p = (p', Ok job) /\
    id job = job_id /\
    status job = (if (fn (world p)).2 is Ok _ then "success" else "error") /\
    error job = (if (fn (world p)).2 is Raise e then exc_msg e else "").
Proof.
  destruct (run_action_contains name fn job_id t0 t1 p) as (p' & Hrun & _ & Hjob & _).
  unfold trigger_sync. rewrite (bind_Ok _ _ _ _ _ Hrun).
  unfold mbind, M_bind, get_state, mret, M_ret. rewrite Hjob.
  by eexists _, _.
Qed.

End ExecutorFacts.

(** The call that the scheduler makes hands on what [scan_task] raises and
    leaves the registry as it was. *)
Lemma scheduled_job_propagates config env p w' e :
  scan_task config env (world p) = (w', Raise e) ->
  scheduled_job config env p = ({| jobs := jobs p; world := w' |}, Raise e).
Proof. intros H. unfold scheduled_job, in_world. by rewrite H. Qed.

(** C3, at the failing input. The scheduler's job is [scan_task] itself,
    not [run_action]: with a missing root and [ignore_missing_path] set to
    false the call made by the scheduler ends with the exception, and the
    registry holds no job for the run.  The same action, triggered through
    the synchronous HTTP path, returns a job with status [error] and the
    message. *)
Theorem scheduled_failure_reaches_scheduler :
  let config := sample_config (Some (JBool false)) in
  let env := sample_env (PutOk "req-1") in
  let p := {| jobs := ∅; world := empty_world |} in
  let boom := RuntimeError (missing_msg ["/"; "data"; "missing"]) in
  scheduled_job config env p = (p, Raise boom) /\
  exists p', trigger_sync "scan" (action_scan config env) "job-1" 10 11 p
             = (p', Ok {| id := "job-1"; action := "scan"; status := "error";
                          error := exc_msg boom; updated_at := 11 |}).
Proof.
  split; [vm_compute; reflexivity|].
  eexists. vm_compute. reflexivity.
Qed.


(** ** A failing upload *)

Section UploadFailure.



(** Nothing raised between the [try] and the handler leaves the call:
    once the put is reached the call returns. *)
Lemma upload_try_returns config latest env w :
  reaches_put config latest env w ->
  exists w' report, upload_latest_csv_to_oss config latest env w = (w', Ok report).
Proof.
  intros (oss_cfg & Hoss & Hen & Hex & Hdue).
  rewrite upload_cases, Hoss, Hen, Hex, Hdue.
  destruct (put env); [destruct (mark env)|]; by eexists _, _.
Qed.

End UploadFailure.



(** A failure of the marking itself, after a put that went through, is
    contained in the same way; what it leaves at the marker path is what
    the failed write left there. *)
Example upload_mark_failure_contained config latest env w request_id e residue :
  reaches_put config latest env w ->
  put env = PutOk request_id ->
  mark env = MarkRaise e residue ->
  upload_latest_csv_to_oss config latest env w
    = (set_marker residue w, Ok (UploadFailed e)).
Proof.
  intros (oss_cfg & Hoss & Hen & Hex & Hdue) Hput Hmark.
  by rewrite upload_cases, Hoss, Hen, Hex, Hdue, Hput, Hmark.
Qed.

(** ** Threads: two interleavings *)

(** C1, at the failing input. One scan was triggered over HTTP and the
    scheduler fires: the HTTP thread takes the lock and enters
    [scan_task]; the scheduler's thread, which calls [scan_task] without
    the lock, enters it as well, and two scans run at once. *)
Theorem scheduled_scan_overlaps_http_scan :
  exists s,
    run [0; 0; 0; 1]%nat
        (init [trigger_sync_prog "scan" "job-1" true; scheduled_prog]) = Some s /\
    lock s = true /\
    Forall (fun t => in_scan t = true) (threads s) /\
    scanning s = 2%nat.
Proof.
  eexists. split; [vm_compute; reflexivity|].
  split; [reflexivity|]. split; [|reflexivity].
  repeat constructor.
Qed.

(** C2, at the failing input. An asynchronous trigger starts the thread
    before it stores [queued]; when the thread runs to its end first, the
    job goes through [running] and [success] and is then set back to
    [queued], where it stays: no step is left to any thread. *)
Theorem async_job_requeued_after_success :
  exists s,
    run [0; 1; 1; 0]%nat (init [trigger_async_prog "cleanup" "job-1" true]) = Some s /\
    history "job-1" s = ["running"; "success"; "queued"] /\
    last (history "job-1" s) = Some "queued" /\
    forall i, step i s = None.
Proof.
  eexists. split; [vm_compute; reflexivity|].
  split; [reflexivity|]. split; [reflexivity|].
  intros [|[|i]]; reflexivity.
Qed.

(** The order that the claim describes is one of the interleavings. *)
Example async_job_in_order :
  (history "job-1" <$>
     run [0; 0; 1; 1]%nat (init [trigger_async_prog "cleanup" "job-1" false]))
  = Some ["queued"; "running"; "error"].
Proof. vm_compute. reflexivity. Qed.

(** A synchronous trigger has one thread: [running], then the outcome. *)
Example sync_job_in_order :
  (history "job-1" <$>
     run [0; 0; 0; 0; 0; 0]%nat (init [trigger_sync_prog "scan" "job-1" true]))
  = Some ["running"; "success"].
Proof. vm_compute. reflexivity. Qed.

(** ** The lock does its work for the scans triggered over HTTP *)

Section LockDiscipline.

Lemma disciplined_holds h t : disciplined h t = true -> holds t = h.
Proof.
  revert h. induction t as [|ins t IH]; intros h; simpl.
  - by destruct h.
  - destruct ins; try apply IH; destruct h; simpl; try done.
    + intros H. by apply IH in H.
    + intros H. by apply IH in H.
Qed.

Lemma run_action_prog_disciplined name job_id ok :
  disciplined false (run_action_prog name job_id ok) = true.
Proof.
  unfold run_action_prog, action_prog. by destruct (String.eqb name "scan").
Qed.

Lemma http_prog_disciplined t : http_prog t -> disciplined false t = true.
Proof.
  intros (name & job_id & ok & [-> | ->]).
  - apply run_action_prog_disciplined.
  - done.
Qed.

Lemma count_app f ts ts' : count f (ts ++ ts') = (count f ts + count f ts')%nat.
Proof. induction ts as [|t ts IH]; simpl; [done|]. rewrite IH. lia. Qed.

Lemma count_insert f ts i t t' :
  ts !! i = Some t ->
  (count f (<[i := t']> ts) + (if f t then 1 else 0)
   = count f ts + (if f t' then 1 else 0))%nat.
Proof.
  revert i. induction ts as [|t0 ts IH]; intros [|i]; simpl; try done.
  - intros [= ->]. lia.
  - intros H. specialize (IH i H). lia.
Qed.

Lemma count_le f g ts :
  Forall (fun t => f t = true -> g t = true) ts -> (count f ts <= count g ts)%nat.
Proof.
  induction 1 as [|t ts Ht _ IH]; simpl; [done|].
  destruct (f t); [rewrite Ht by done|destruct (g t)]; lia.
Qed.

Lemma lock_inv_init ts : Forall http_prog ts -> lock_inv (init ts).
Proof.
  intros Hts. split; simpl.
  - eapply Forall_impl; [exact Hts|]. intros t Ht.
    apply http_prog_disciplined in Ht as Hd.
    by rewrite (disciplined_holds _ _ Hd).
  - induction Hts as [|t ts Ht _ IH]; simpl; [done|].
    apply http_prog_disciplined, disciplined_holds in Ht. by rewrite Ht, IH.
Qed.

Lemma lock_inv_step i s s' : step i s = Some s' -> lock_inv s -> lock_inv s'.
Proof.
  unfold step. destruct (threads s !! i) as [[|ins rest]|] eqn:Hi; try done.
  intros Hstep [Hd Hc].
  assert (Ht : disciplined (holds (ins :: rest)) (ins :: rest) = true).
  { rewrite Forall_forall in Hd. apply Hd. by eapply list_elem_of_lookup_2. }
  pose proof (count_insert holds _ _ _ rest Hi) as Hcount.
  destruct ins as [j n st| | | | |n j ok]; simpl in Ht, Hcount.
  - injection Hstep as <-. split; simpl.
    + by apply Forall_insert.
    + destruct (holds rest); lia.
  - destruct (lock s) eqn:Hl; [done|]. injection Hstep as <-.
    apply disciplined_holds in Ht as Hh. split; simpl.
    + apply Forall_insert; [done|]. by rewrite Hh.
    + rewrite Hh in Hcount. lia.
  - injection Hstep as <-.
    apply disciplined_holds in Ht as Hh. split; simpl.
    + apply Forall_insert; [done|]. by rewrite Hh.
    + rewrite Hh in Hcount. destruct (lock s); lia.
  - injection Hstep as <-. apply andb_true_iff in Ht as [_ Ht]. split; simpl.
    + by apply Forall_insert.
    + destruct (holds rest); lia.
  - injection Hstep as <-. apply andb_true_iff in Ht as [_ Ht]. split; simpl.
    + by apply Forall_insert.
    + destruct (holds rest); lia.
  - injection Hstep as <-.
    pose proof (run_action_prog_disciplined n j ok) as Hnew.
    apply disciplined_holds in Hnew as Hhnew. split; cbn [threads lock].
    + apply Forall_app. split; [by apply Forall_insert|].
      constructor; [by rewrite Hhnew|constructor].
    + rewrite count_app. cbn [count]. rewrite Hhnew. destruct (holds rest); lia.
Qed.

Lemma lock_inv_run schedule s s' :
  run schedule s = Some s' -> lock_inv s -> lock_inv s'.
Proof.
  revert s. induction schedule as [|i schedule IH]; intros s; simpl.
  - by intros [= <-].
  - destruct (step i s) as [s1|] eqn:E; simpl; [|done].
    intros Hrun Hinv. eapply IH; [done|]. by eapply lock_inv_step.
Qed.

(** X1. Among scans that are all triggered over HTTP, synchronous or not,
    at most one is inside [scan_task] at any moment of any interleaving. *)
Theorem http_scans_exclusive (ts : list program) (schedule : list nat) (s : state) :
  Forall http_prog ts -> run schedule (init ts) = Some s ->
  (scanning s <= 1)%nat.
Proof.
  intros Hts Hrun.
  destruct (lock_inv_run _ _ _ Hrun (lock_inv_init _ Hts)) as [Hd Hc].
  unfold scanning. transitivity (count holds (threads s)).
  - apply count_le. eapply Forall_impl; [exact Hd|].
    intros [|[] t]; simpl; try done. by intros [? _]%andb_true_iff.
  - rewrite Hc. destruct (lock s); lia.
Qed.

End LockDiscipline.

Lemma http_scans_exclusive_witness :
  exists s,
    run [0; 0; 0; 1; 2]%nat
        (init [trigger_sync_prog "scan" "job-1" true;
               trigger_async_prog "scan" "job-2" true]) = Some s /\
    (scanning s <= 1)%nat.
Proof.
  eexists. split; [vm_compute; reflexivity|].
  apply (http_scans_exclusive
           [trigger_sync_prog "scan" "job-1" true; trigger_async_prog "scan" "job-2" true]
           [0; 0; 0; 1; 2]%nat).
  - constructor; [by exists "scan", "job-1", true; left|].
    constructor; [by exists "scan", "job-2", true; right|constructor].
  - vm_compute. reflexivity.
Defined.


(** * Part IV: further properties of the code *)

(** ** PathResolver: the kept roots as a function of the inputs *)

Section DedupCanonical.

Lemma prefix_antisym (p q : Path) : p `prefix_of` q -> q `prefix_of` p -> p = q.
Proof.
  intros Hpq Hqp. apply prefix_length_eq; [done|]. by apply prefix_length.
Qed.

Lemma dedup_sorted_loop rest roots :
  dedup_inv roots rest -> StronglySorted path_le roots ->
  StronglySorted path_le (fold_left dedup_step rest roots).
Proof.
  revert roots. induction rest as [|p rest IH]; intros roots Hinv Hs; simpl; [done|].
  apply IH; [by apply dedup_inv_step|].
  unfold dedup_step. destruct (existsb _ _); [done|].
  apply StronglySorted_app_2; [|done|repeat constructor].
  intros r q Hr ->%list_elem_of_singleton.
  apply (inv_before _ _ Hinv); [done|by left].
Qed.

Lemma dedup_sorted paths : StronglySorted path_le (deduplicate_parent_paths paths).
Proof. apply dedup_sorted_loop; [apply dedup_inv_start|constructor]. Qed.

Lemma dedup_nodup paths : NoDup (deduplicate_parent_paths paths).
Proof. by destruct (dedup_inv_loop _ _ (dedup_inv_start paths)). Qed.

Lemma dedup_unrelated paths r p :
  r ∈ deduplicate_parent_paths paths -> p ∈ deduplicate_parent_paths paths ->
  r `prefix_of` p -> r = p.
Proof.
  destruct (dedup_inv_loop _ _ (dedup_inv_start paths)) as [_ H _ _].
  apply H.
Qed.

Lemma dedup_elem_of_inputs paths r :
  r ∈ deduplicate_parent_paths paths -> r ∈ paths.
Proof.
  intros [Hr|Hr]%dedup_loop_from; [by apply elem_of_nil in Hr|].
  by apply elem_of_sorted.
Qed.

Lemma dedup_covers_input paths q :
  q ∈ paths -> exists r, r ∈ deduplicate_parent_paths paths /\ r `prefix_of` q.
Proof. intros Hq. apply dedup_loop_covers. by apply elem_of_sorted. Qed.

Lemma dedup_elem_of_minimal paths r :
  r ∈ deduplicate_parent_paths paths <-> minimal_in paths r.
Proof.
  split.
  - intros Hr. split; [by apply dedup_elem_of_inputs|].
    intros q Hq Hqr.
    destruct (dedup_covers_input paths q Hq) as (r' & Hr' & Hr'q).
    assert (r' = r) as -> by (eapply dedup_unrelated; [done..|by etrans]).
    by apply prefix_antisym.
  - intros [Hr Hmin].
    destruct (dedup_covers_input paths r Hr) as (r' & Hr' & Hr'r).
    by rewrite <- (Hmin r' (dedup_elem_of_inputs _ _ Hr') Hr'r).
Qed.

Lemma dedup_same_elements l l' :
  (forall r, r ∈ deduplicate_parent_paths l <-> r ∈ deduplicate_parent_paths l') ->
  deduplicate_parent_paths l = deduplicate_parent_paths l'.
Proof.
  intros H. apply (StronglySorted_unique path_le); [apply dedup_sorted..|].
  apply NoDup_Permutation; [apply dedup_nodup..|done].
Qed.

End DedupCanonical.

(** X5. The roots that PathResolver keeps are exactly the inputs that have
    no proper ancestor among the inputs; no root comes out twice; and the
    roots come out in the order of the sort, as a part of the sorted
    inputs. *)
Theorem deduplicate_keeps_minimal (paths : list Path) :
  (forall r, r ∈ deduplicate_parent_paths paths <-> minimal_in paths r) /\
  NoDup (deduplicate_parent_paths paths) /\
  StronglySorted path_le (deduplicate_parent_paths paths) /\
  deduplicate_parent_paths paths `sublist_of` sorted paths.
Proof.
  split; [apply dedup_elem_of_minimal|]. split; [apply dedup_nodup|].
  split; [apply dedup_sorted|].
  unfold deduplicate_parent_paths.
  change (fold_left dedup_step (sorted paths) [])
    with (fold_left dedup_step (sorted paths) ([] ++ [])).
  generalize (sorted paths). intros l.
  assert (H : forall roots pre, roots `sublist_of` pre ->
                fold_left dedup_step l roots `sublist_of` pre ++ l).
  { induction l as [|p l IH]; intros roots pre Hsub; simpl.
    - by rewrite app_nil_r.
    - rewrite (cons_middle p pre l), app_assoc. apply IH.
      unfold dedup_step. destruct (existsb _ _).
      + by apply sublist_inserts_r.
      + by apply sublist_app. }
  apply (H [] []). constructor.
Qed.

(** X6. The kept roots depend only on which paths are given: the order of
    the configured paths and their repetitions change nothing. *)
Theorem deduplicate_set_determined (l l' : list Path) :
  (forall p, p ∈ l <-> p ∈ l') ->
  deduplicate_parent_paths l = deduplicate_parent_paths l'.
Proof.
  intros H. apply dedup_same_elements. intros r.
  rewrite !dedup_elem_of_minimal. unfold minimal_in.
  split; intros [Hr Hmin]; (split; [by apply H|]); intros q Hq; apply Hmin; by apply H.
Qed.

Lemma deduplicate_set_determined_witness :
  deduplicate_parent_paths
    [["/"; "data"; "b"]; ["/"; "data"; "a"; "sub"]; ["/"; "data"; "a"]]
  = deduplicate_parent_paths
      [["/"; "data"; "a"]; ["/"; "data"; "a"]; ["/"; "data"; "b"];
       ["/"; "data"; "a"; "sub"]; ["/"; "data"; "b"]].
Proof.
  apply deduplicate_set_determined. intros p.
  rewrite !elem_of_cons, !elem_of_nil. tauto.
Defined.

(** X7. Resolving twice is resolving once: the kept roots are their own
    kept roots. *)
Theorem deduplicate_idempotent (paths : list Path) :
  deduplicate_parent_paths (deduplicate_parent_paths paths)
  = deduplicate_parent_paths paths.
Proof.
  apply (StronglySorted_unique path_le); [apply dedup_sorted..|].
  apply NoDup_Permutation; [apply dedup_nodup..|]. intros r.
  rewrite (dedup_elem_of_minimal (deduplicate_parent_paths paths)). split.
  - by intros [Hr _].
  - intros Hr. split; [done|]. intros q Hq Hqr. by eapply dedup_unrelated.
Qed.


(** ** TreeScanner: the records, exactly *)

Section WalkExact.

Lemma walk_into_unfold follow top n l es :
  skipped n = false -> follow || negb l = true ->
  walk_into follow kept top (SubDir n l (Some es))
  = walk follow kept (path_div top n) es.
Proof.
  intros Hn Hl. simpl. unfold kept. by rewrite Hn, Hl.
Qed.

Lemma descends_walk follow es rel es' :
  descends follow es rel es' ->
  forall top, (top ++ rel, dirs_of es', nondirs_of es') ∈ walk follow kept top es.
Proof.
  induction 1 as [es|es n l es1 rel es' Hin Hn Hl _ IH]; intros top.
  - rewrite app_nil_r. by left.
  - unfold walk. right. apply list_elem_of_In, in_flat_map.
    exists (SubDir n l (Some es1)). split; [by apply list_elem_of_In|].
    apply list_elem_of_In. rewrite walk_into_unfold by done.
    specialize (IH (path_div top n)). unfold path_div in IH.
    by rewrite <- app_assoc in IH.
Qed.

Lemma walk_into_descends follow e :
  forall top t, t ∈ walk_into follow kept top e ->
    exists n l es1 rel es',
      e = SubDir n l (Some es1) /\ skipped n = false /\
      follow || negb l = true /\ descends follow es1 rel es' /\
      t = (top ++ n :: rel, dirs_of es', nondirs_of es').
Proof.
  induction e as [n|n l|n l es IH] using entry_tree_ind; intros top t; simpl.
  - by intros ?%elem_of_nil.
  - destruct (kept n && (follow || negb l)); by intros ?%elem_of_nil.
  - destruct (kept n) eqn:Hk; simpl; [|by intros ?%elem_of_nil].
    destruct (follow || negb l) eqn:Hl; [|by intros ?%elem_of_nil].
    assert (Hn : skipped n = false) by (unfold kept in Hk; by destruct (skipped n)).
    intros [->|Ht]%elem_of_cons.
    + exists n, l, es, [], es. repeat split; try done. constructor.
    + apply list_elem_of_In, in_flat_map in Ht as (e & He & Ht).
      apply list_elem_of_In in He, Ht. rewrite Forall_forall in IH.
      destruct (IH e He _ _ Ht) as (m & lm & es1 & rel & es' & -> & Hm & Hlm & Hd & ->).
      exists n, l, es, (m :: rel), es'. repeat split; try done.
      * by econstructor.
      * unfold path_div. by rewrite <- app_assoc.
Qed.

Lemma walk_descends follow es top t :
  t ∈ walk follow kept top es <->
  exists rel es', descends follow es rel es' /\
                  t = (top ++ rel, dirs_of es', nondirs_of es').
Proof.
  split.
  - unfold walk. intros [->|Ht]%elem_of_cons.
    + exists [], es. split; [constructor|by rewrite app_nil_r].
    + apply list_elem_of_In, in_flat_map in Ht as (e & He & Ht).
      apply list_elem_of_In in He, Ht.
      apply walk_into_descends in Ht
        as (n & l & es1 & rel & es' & -> & Hn & Hl & Hd & ->).
      exists (n :: rel), es'. split; [by econstructor|done].
  - intros (rel & es' & Hd & ->). by apply descends_walk.
Qed.

Lemma elem_of_dirs_of es n : n ∈ dirs_of es <-> exists l c, SubDir n l c ∈ es.
Proof.
  unfold dirs_of. rewrite list_elem_of_In, in_flat_map. split.
  - intros ([m|m l c] & He & Hn); simpl in Hn; [done|].
    destruct Hn as [<-|[]]. exists l, c. by apply list_elem_of_In.
  - intros (l & c & He). exists (SubDir n l c).
    split; [by apply list_elem_of_In|by left].
Qed.

Lemma elem_of_nondirs_of es n : n ∈ nondirs_of es <-> NonDir n ∈ es.
Proof.
  unfold nondirs_of. rewrite list_elem_of_In, in_flat_map. split.
  - intros ([m|m l c] & He & Hn); simpl in Hn; [|done].
    destruct Hn as [<-|[]]. by apply list_elem_of_In.
  - intros He. exists (NonDir n). split; [by apply list_elem_of_In|by left].
Qed.

Lemma elem_of_records_of root dirpath ds fns r :
  r ∈ records_of root (dirpath, ds, fns) <->
  exists n, skipped n = false /\
    (n ∈ ds /\ r = {| type := "dir"; root_path := path_str root;
                      full_path := path_str (path_div dirpath n); name := n |} \/
     n ∈ fns /\ r = {| type := "file"; root_path := path_str root;
                       full_path := path_str (path_div dirpath n); name := n |}).
Proof.
  unfold records_of. rewrite elem_of_app. split.
  - intros [H|H].
    + apply list_elem_of_fmap in H as (d & -> & Hd).
      apply list_elem_of_filter in Hd as [Hk Hd].
      exists d. split; [unfold kept in Hk; by destruct (skipped d)|by left].
    + apply list_elem_of_In, in_flat_map in H as (f & Hf & H).
      destruct (skipped f) eqn:E; [done|]. destruct H as [<-|[]].
      exists f. split; [done|]. right. split; [by apply list_elem_of_In|done].
  - intros (n & Hn & [[Hd ->]|[Hf ->]]).
    + left. apply list_elem_of_fmap. exists n. split; [done|].
      apply list_elem_of_filter. split; [|done]. unfold kept. by rewrite Hn.
    + right. apply list_elem_of_In, in_flat_map. exists n.
      split; [by apply list_elem_of_In|]. rewrite Hn. by left.
Qed.

End WalkExact.

(** X8. The records that TreeScanner emits for a listable root are exactly
    these: one [dir] record for every directory entry and one [file]
    record for every other entry whose name is not skipped and which lies
    in a listing that the walk reaches; the walk reaches a listing along
    directory entries that are not skipped, can be listed, and are not
    symbolic links unless links are followed. *)
Theorem scan_root_exact
    (fs : filesystem) (root : Path) (follow_symlinks : bool)
    (es : list entry) (r : ScanRecord) :
  fs root = Listing es ->
  (r ∈ scan_root fs root follow_symlinks <->
   exists rel es' n,
     descends follow_symlinks es rel es' /\ skipped n = false /\
     ((exists l c, SubDir n l c ∈ es') /\ r = record_of root rel "dir" n \/
      NonDir n ∈ es' /\ r = record_of root rel "file" n)).
Proof.
  intros Hfs. unfold scan_root. rewrite Hfs. split.
  - intros Hr. apply list_elem_of_In, in_flat_map in Hr as (t & Ht & Hr).
    apply list_elem_of_In in Ht, Hr.
    apply walk_descends in Ht as (rel & es' & Hd & ->).
    apply elem_of_records_of in Hr as (n & Hn & Hr).
    exists rel, es', n. split; [done|]. split; [done|].
    unfold record_of, path_div in *. rewrite app_assoc.
    destruct Hr as [[Hin ->]|[Hin ->]].
    + left. split; [by apply elem_of_dirs_of|done].
    + right. split; [by apply elem_of_nondirs_of|done].
  - intros (rel & es' & n & Hd & Hn & Hr).
    apply list_elem_of_In, in_flat_map.
    exists (root ++ rel, dirs_of es', nondirs_of es').
    split; [apply list_elem_of_In, walk_descends; by eauto|].
    apply list_elem_of_In, elem_of_records_of. exists n. split; [done|].
    unfold record_of, path_div in *. rewrite app_assoc in Hr.
    destruct Hr as [[Hin ->]|[Hin ->]].
    + left. split; [by apply elem_of_dirs_of|done].
    + right. split; [by apply elem_of_nondirs_of|done].
Qed.

Lemma scan_root_exact_witness :
  {| type := "file"; root_path := "/data/a"; full_path := "/data/a/sub/y.txt";
     name := "y.txt" |} ∈ scan_root sample_fs ["/"; "data"; "a"] false.
Proof.
  apply (scan_root_exact sample_fs ["/"; "data"; "a"] false sample_listing);
    [reflexivity|].
  exists ["sub"], [NonDir "y.txt"; NonDir "@eaDir"], "y.txt".
  split; [|split; [reflexivity|right; split; [by left|reflexivity]]].
  eapply descends_into; [do 4 right; left|reflexivity|reflexivity|constructor].
Defined.


(** ** RecordSink: nothing is lost in the file *)

Section CsvInjective.

Lemma read_write_csv rows :
  read_csv (write_csv rows) = Some (fieldnames :: map dict_to_list rows).
Proof.
  unfold read_csv, write_csv, writeheader.
  rewrite read_writerow by done. by rewrite read_writerows.
Qed.

Lemma dict_to_list_inj r r' : dict_to_list r = dict_to_list r' -> r = r'.
Proof.
  destruct r, r'. rewrite !dict_to_list_values. simpl. intros [= -> -> -> ->].
  reflexivity.
Qed.

Lemma map_dict_to_list_inj rows rows' :
  map dict_to_list rows = map dict_to_list rows' -> rows = rows'.
Proof.
  revert rows'. induction rows as [|r rows IH]; intros [|r' rows']; cbn [map];
    try done.
  intros H. f_equal.
  - apply dict_to_list_inj. exact (f_equal (fun l => default [] (head l)) H).
  - apply IH. exact (f_equal tail H).
Qed.

End CsvInjective.

(** X9. Two runs write the same record file only if they found the same
    records, in the same order: no quoting makes two different lists of
    records collide. *)
Theorem write_csv_injective (rows rows' : list ScanRecord) :
  write_csv rows = write_csv rows' -> rows = rows'.
Proof.
  intros H. apply map_dict_to_list_inj.
  pose proof (read_write_csv rows) as H1. rewrite H, read_write_csv in H1.
  by injection H1.
Qed.

Lemma write_csv_injective_witness :
  scan_root sample_fs ["/"; "data"; "a"] false
  = [ {| type := "dir"; root_path := "/data/a"; full_path := "/data/a/sub"; name := "sub" |};
      {| type := "dir"; root_path := "/data/a"; full_path := "/data/a/link"; name := "link" |};
      {| type := "file"; root_path := "/data/a"; full_path := "/data/a/x.txt"; name := "x.txt" |};
      {| type := "file"; root_path := "/data/a"; full_path := "/data/a/sub/y.txt"; name := "y.txt" |} ].
Proof.
  apply write_csv_injective. vm_compute. reflexivity.
Defined.


(** ** RetentionManager: bounds, repetition, counting *)

Section RetentionMore.

(** The cutoff of a whole number of days. *)
Lemma timedelta_days_JInt days :
  timedelta_days (JInt days) =
    if negb ((- 2 ^ 31 <=? days)%Z && (days <? 2 ^ 31)%Z)
    then Raise (OverflowError "Python int too large to convert to C int")
    else if (999999999 <? Z.abs days)%Z
    then Raise (OverflowError
                  ("days=" +:+ pretty days +:+ "; must have magnitude <= 999999999"))
    else Ok (days * microseconds_per_day)%Z.
Proof.
  unfold timedelta_days. by rewrite Z.div_mul.
Qed.

Lemma passes_mono os os2 expire_before nf :
  (forall op, cleanup_op op -> fault os op = None -> fault os2 op = None) ->
  passes os expire_before nf -> passes os2 expire_before nf.
Proof.
  intros Hq [Hfile Hstat]. split; [by apply Hq|].
  intros H1 H2 H3. destruct (Hstat H1 H2 H3) as [Hs Hu].
  split; [by apply Hq|]. intros Hlt. apply Hq; [done|by apply Hu].
Qed.

End RetentionMore.

(** X10. For a retention of a whole number of days, [cleanup_old_outputs]
    computes its cutoff exactly when the number has a magnitude of at most
    999999999 and the cutoff is a date of the years 1 to 9999.  Outside
    these bounds it raises [OverflowError], with the text of the failing
    step, and removes nothing.  Inside them it goes through when the
    operating system lets every call on the directory through, and what it
    raises otherwise is what the operating system answered to one of these
    calls: listing the directory, or testing, dating or removing an
    entry. *)
Theorem cleanup_old_outputs_bounds (os : OS) (now days : Z) (w : World) :
  (~ cutoff_in_range now days ->
     cleanup_old_outputs os now (JInt days) w
     = (w, Raise (OverflowError
                    (if negb ((- 2 ^ 31 <=? days)%Z && (days <? 2 ^ 31)%Z)
                     then "Python int too large to convert to C int"
                     else if (999999999 <? Z.abs days)%Z
                     then "days=" +:+ pretty days +:+ "; must have magnitude <= 999999999"
                     else "date value out of range")))) /\
  (cutoff_in_range now days ->
     ((forall op, cleanup_op op -> fault os op = None) ->
        exists w' n, cleanup_old_outputs os now (JInt days) w = (w', Ok n)) /\
     (forall w' e, cleanup_old_outputs os now (JInt days) w = (w', Raise e) ->
        exists op, cleanup_op op /\ fault os op = Some e)).
Proof.
  unfold cutoff_in_range. split.
  - intros Hout. unfold cleanup_old_outputs. rewrite timedelta_days_JInt.
    destruct (negb _); [done|].
    destruct (Z.ltb_spec 999999999 (Z.abs days)); [done|].
    unfold datetime_sub.
    destruct (Z.leb_spec 0 (now - days * microseconds_per_day)); simpl; [|done].
    destruct (Z.leb_spec (now - days * microseconds_per_day) datetime_max);
      simpl; [|done].
    destruct Hout. by repeat split.
  - intros (Hd & H0 & Hmax).
    assert (Htd : timedelta_days (JInt days) = Ok (days * microseconds_per_day)%Z).
    { rewrite timedelta_days_JInt.
      replace ((- 2 ^ 31 <=? days)%Z) with true by (symmetry; apply Z.leb_le; lia).
      replace ((days <? 2 ^ 31)%Z) with true by (symmetry; apply Z.ltb_lt; lia).
      simpl. by replace ((999999999 <? Z.abs days)%Z) with false
        by (symmetry; apply Z.ltb_ge; lia). }
    assert (Hsub : datetime_sub now (days * microseconds_per_day)
                   = Ok (now - days * microseconds_per_day)%Z).
    { unfold datetime_sub.
      by rewrite (proj2 (Z.leb_le _ _) H0), (proj2 (Z.leb_le _ _) Hmax). }
    split.
    + intros Hq. unfold cleanup_old_outputs. rewrite Htd, Hsub.
      unfold mbind, M_bind, call. rewrite (Hq Iterdir) by done.
      by apply cleanup_loop_quiet.
    + intros w' e [[_ [H|(delta & H1 & H2)]]|H]%cleanup_old_outputs_raises;
        [congruence| |done].
      rewrite Htd in H1. injection H1 as <-. congruence.
Qed.

(** X11. A cleanup that went through has nothing left to do: run again
    with the same clock and retention it removes no entry and logs a count
    of zero; and the entries it left, together with the count it logged,
    are as many as the entries it found.  The second run may meet other
    answers of the operating system, in another order of the entries, as
    long as the calls that went through the first time go through
    again. *)
Theorem cleanup_old_outputs_idempotent
    (os : OS) (now : Z) (keep_days : json) (w w1 : World) (n : nat) :
  cleanup_old_outputs os now keep_days w = (w1, Ok n) ->
  cleanup_old_outputs os now keep_days w1 = (w1, Ok 0%nat) /\
  (size (out_dir w1) + n = size (out_dir w))%nat /\
  (forall os2,
     (forall op, cleanup_op op -> fault os op = None -> fault os2 op = None) ->
     cleanup_old_outputs os2 now keep_days w1 = (w1, Ok 0%nat)).
Proof.
  intros Hrun.
  destruct (cleanup_old_outputs_lookup _ _ _ _ _ _ Hrun)
    as (delta & Hd & Hs & Hl & Hsize & Hpass).
  assert (Hiter : fault os Iterdir = None).
  { apply cleanup_old_outputs_inv in Hrun
      as [(_ & e & [=] & _)|[(_ & e & [=] & _)|(? & _ & _ & ? & _)]]. done. }
  assert (Hagain : forall os2,
            (forall op, cleanup_op op -> fault os op = None -> fault os2 op = None) ->
            cleanup_old_outputs os2 now keep_days w1 = (w1, Ok 0%nat)).
  { intros os2 Hq. unfold cleanup_old_outputs. rewrite Hd, Hs.
    unfold mbind, M_bind, call. rewrite (Hq Iterdir I Hiter).
    assert (Hleft : forall name f, (name, f) ∈ listing os2 w1 ->
              (name, f) ∈ listing os w /\ expired (now - delta) name f = false).
    { intros name f Hin%elem_of_listing. rewrite (Hl name) in Hin.
      rewrite elem_of_listing.
      destruct (out_dir w !! name) as [f0|]; [|done].
      destruct (expired (now - delta) name f0) eqn:Hex; [done|].
      injection Hin as <-. done. }
    apply cleanup_loop_idle.
    - apply Forall_forall. intros [name f] Hin.
      apply (passes_mono os); [done|].
      rewrite Forall_forall in Hpass. apply Hpass. by apply Hleft.
    - apply Forall_forall. intros [name f] Hin. by apply Hleft. }
  split; [by apply Hagain|]. split; [done|exact Hagain].
Qed.

Lemma cleanup_old_outputs_idempotent_witness :
  let w1 := (cleanup_old_outputs quiet_os (day 738915) (JInt 7) dated_latest_world).1 in
  cleanup_old_outputs quiet_os (day 738915) (JInt 7) w1 = (w1, Ok 0%nat) /\
  (size (out_dir w1) + 2 = size dated_latest_dir)%nat /\
  (forall os2,
     (forall op, cleanup_op op -> fault quiet_os op = None -> fault os2 op = None) ->
     cleanup_old_outputs os2 (day 738915) (JInt 7) w1 = (w1, Ok 0%nat)).
Proof.
  intros w1.
  apply (cleanup_old_outputs_idempotent quiet_os (day 738915) (JInt 7)
           dated_latest_world w1 2).
  vm_compute. reflexivity.
Defined.

(** A cleanup on a directory that is not there: listing it raises, with
    the retention in range. *)
Example cleanup_missing_directory os now w e :
  fault os Iterdir = Some e ->
  cutoff_in_range now 7 ->
  cleanup_old_outputs os now (JInt 7) w = (w, Raise e).
Proof.
  intros Hf (_ & H0 & Hmax). unfold cleanup_old_outputs.
  change (timedelta_days (JInt 7)) with (Ok (7 * microseconds_per_day)%Z : result Z).
  unfold datetime_sub.
  rewrite (proj2 (Z.leb_le _ _) H0), (proj2 (Z.leb_le _ _) Hmax). simpl.
  unfold mbind, M_bind, call. by rewrite Hf.
Qed.

(** ** UploadThrottle: what a call can and cannot do *)

Section UploadMore.




End UploadMore.




(** The window in floats: at an interval of a tenth of a day the product
    is 8640.0, and a call 8640 seconds after a marking at 1700000000 tries
    the put. *)
Example upload_throttle_window_tenth :
  let tenth := JFloat (S754_finite false 7205759403792794 (-56)) in
  elapsed_ge (fsub (float_of_Z 1700008640) (float_of_Z 1700000000)) tenth = Ok true /\
  elapsed_ge (fsub (float_of_Z 1700008639) (float_of_Z 1700000000)) tenth = Ok false.
Proof. split; vm_compute; reflexivity. Qed.

(** ** The pipeline: what a run leaves and how it can fail *)

Section PipelineMore.



End PipelineMore.



(** A latest file configured under a path with a directory part is no
    entry of the output directory: the write goes where the operating
    system lets it, and the run ends when this write fails. *)
Example scan_task_latest_elsewhere :
  let config :=
    {| paths := ["/data/a"]; ignore_missing_path := None; follow_symlinks := None;
       latest_filename := "sub/latest.csv"; retention_days := None; oss := None |} in
  let missing := FileNotFoundError "[Errno 2] No such file or directory: 'sub/latest.csv'" in
  let env :=
    {| resolve := fun p => Ok (sample_resolve p); fs := sample_fs;
       os := {| fault := fun op => match op with WriteLatest _ => Some missing | _ => None end;
                torn := fun _ => None; strerror := fun _ => ""; rank := fun _ => O;
                elsewhere := fun _ => false |};
       strftime := "20240131_120000"; written_at := day 738915;
       datetime_now := day 738915; upload_env := sample_upload_env (PutOk "req-1") |} in
  entry_name (latest_filename config) = None /\
  (scan_task config env empty_world).2 = Raise missing /\
  is_Some (out_dir (scan_task config env empty_world).1 !! "scan_20240131_120000.csv").
Proof. split; [done|]. split; vm_compute; eauto. Qed.



(** A name that the codec refuses: the dated file keeps the header and
    the rows before it, and the run ends with the error of the codec. *)
Example write_csv_file_refused :
  let bad := {| type := "file"; root_path := "/data/a";
                full_path := "/data/a/" +:+ String (chr 255) ".txt";
                name := String (chr 255) ".txt" |} in
  let good := {| type := "dir"; root_path := "/data/a";
                 full_path := "/data/a/sub"; name := "sub" |} in
  write_csv_file quiet_os "scan_20240131_120000.csv" [good; bad; good] 0 empty_world
  = (store "scan_20240131_120000.csv" (write_csv [good]) 0 empty_world,
     Raise (UnicodeEncodeError
              "'utf-8' codec can't encode character '\udcff' in position 21: surrogates not allowed")).
Proof. vm_compute. reflexivity. Qed.

(** ** The HTTP handlers *)

Section HttpFacts.

Lemma ACTIONS_get_registered config env name fn :
  ACTIONS_get config env name = Some fn ->
  name = "scan" \/ name = "cleanup" \/ name = "upload_latest".
Proof.
  unfold ACTIONS_get, ACTIONS. cbn -[String.eqb].
  destruct (String.eqb_spec "scan" name); [by left|].
  destruct (String.eqb_spec "cleanup" name); [by right; left|].
  destruct (String.eqb_spec "upload_latest" name); [by right; right|done].
Qed.

Lemma ACTIONS_get_unknown config env name :
  ACTIONS_get config env name = None <->
  name <> "scan" /\ name <> "cleanup" /\ name <> "upload_latest".
Proof.
  unfold ACTIONS_get, ACTIONS. cbn -[String.eqb].
  destruct (String.eqb_spec "scan" name) as [<-|]; [by split; [|intros [? _]]|].
  destruct (String.eqb_spec "cleanup" name) as [<-|];
    [by split; [|intros (_ & ? & _)]|].
  destruct (String.eqb_spec "upload_latest" name) as [<-|];
    [by split; [|intros (_ & _ & ?)]|].
  split; [|done]. intros _. repeat split; congruence.
Qed.

Lemma trigger_sync_run name fn job_id t0 t1 p :
  let job := {| id := job_id; action := name;
                status := (if (fn (world p)).2 is Ok _ then "success" else "error");
                error := (if (fn (world p)).2 is Raise e then exc_msg e else "");
                updated_at := t1 |} in
  exists p', trigger_sync name fn job_id t0 t1 p = (p', Ok job) /\
    jobs p' !! job_id = Some job /\
    forall other, other <> job_id -> jobs p' !! other = jobs p !! other.
Proof.
  intros job.
  destruct (run_action_contains name fn job_id t0 t1 p) as (p' & Hrun & _ & Hjob & Hother).
  exists p'. split; [|by split].
  unfold trigger_sync. rewrite (bind_Ok _ _ _ _ _ Hrun).
  unfold mbind, M_bind, get_state. by rewrite Hjob.
Qed.

(** The branches of [trigger_action], one by one. *)
Lemma trigger_action_cases token config env name x_api_token body job_id t0 t1 p :
  trigger_action token config env name x_api_token body job_id t0 t1 p =
    match require_token token x_api_token with
    | Some (status_code, detail) => (p, Ok (HttpError status_code detail, None))
    | None =>
        match ACTIONS_get config env name with
        | None => (p, Ok (HttpError 404%nat "unknown_action", None))
        | Some fn =>
            match mode_of body with
            | Raise e => (p, Raise e)
            | Ok mode =>
                if is_sync mode then
                  (job ← trigger_sync name fn job_id t0 t1;
                   mret (Body (TriggeredJob job), None)) p
                else
                  (_ ← record_job job_id name "queued" "" t0;
                   mret (Body (TriggeredQueued job_id "queued"),
                         Some (run_action name fn job_id t0 t1))) p
            end
        end
    end.
Proof.
  unfold trigger_action. destruct (require_token _ _) as [[]|]; [done|].
  destruct (ACTIONS_get _ _ _); [|done].
  unfold lift_result, mbind at 1, M_bind at 1.
  destruct (mode_of body) as [mode|]; [by destruct (is_sync mode)|done].
Qed.

Lemma mode_of_raises body e :
  mode_of body = Raise e <->
  exists v, body = Some v /\ (forall members, v <> JObject members) /\
    e = AttributeError ("'" +:+ type_name v +:+ "' object has no attribute 'get'").
Proof.
  unfold mode_of. destruct body as [v|].
  - destruct v as [|b|n|x|s|items|members];
      try (split; [intros [= <-]; by eexists|by intros (? & [= <-] & _ & ->)]).
    split; [done|]. intros (? & [= <-] & Hno & _). by destruct (Hno members).
  - split; [done|]. by intros (? & ? & _).
Qed.

End HttpFacts.

(** X16. Both front ends let the same requests through: a request is
    turned away, with status 401, exactly when a token that is not empty
    is configured and the request's header differs from it (a missing
    header counting as the empty string); with no token, or an empty one,
    every request passes. *)
Theorem require_token_agree (token : option string) (header : option string) :
  require_token token (default "" header) = require_token_flask token header /\
  (require_token_flask token header = None <->
     token = None \/ token = Some "" \/ token = Some (default "" header)) /\
  (require_token_flask token header <> None ->
     require_token_flask token header = Some (401%nat, "unauthorized")).
Proof.
  unfold require_token, require_token_flask.
  destruct token as [[|c t]|]; simpl.
  - split; [done|]. split; [|done]. split; [|done]. intros _. by right; left.
  - destruct (String.eqb_spec (default "" header) (String c t)) as [->|Hne]; simpl.
    + split; [done|]. split; [|done]. split; [|done]. intros _. by right; right.
    + split; [done|]. split; [|done]. split; [done|].
      intros [?|[?|[= Heq]]]; done.
  - split; [done|]. split; [|done]. split; [|done]. intros _. by left.
Qed.

(** X17. A synchronous trigger (a body that is an object whose [mode] is
    the text [sync]) that passes the token check, for a registered action,
    answers with the job in its final state, [success] when the action
    returned and [error] with the exception's message when it raised, and
    starts no thread; [GET /jobs/{id}] on that id then answers with the
    same job, and on every other id with what it answered before the
    trigger. *)
Theorem trigger_sync_then_get_job
    (token : option string) (config : Config) (env : Env)
    (name x_api_token job_id : string) (fn : M World unit) (t0 t1 : Q) (p : Process)
    (members : list (string * json)) :
  require_token token x_api_token = None ->
  ACTIONS_get config env name = Some fn ->
  dict_get members "mode" = Some (JString "sync") ->
  exists p' job,
    trigger_action token config env name x_api_token (Some (JObject members))
      job_id t0 t1 p
      = (p', Ok (Body (TriggeredJob job), None)) /\
    id job = job_id /\ action job = name /\
    status job = (if (fn (world p)).2 is Ok _ then "success" else "error") /\
    error job = (if (fn (world p)).2 is Raise e then exc_msg e else "") /\
    get_job token job_id x_api_token p' = (p', Ok (Body job)) /\
    forall other, other <> job_id ->
      (get_job token other x_api_token p').2 = (get_job token other x_api_token p).2.
Proof.
  intros Hauth Hfn Hmode.
  destruct (trigger_sync_run name fn job_id t0 t1 p) as (p' & Hsync & Hjob & Hother).
  eexists p', _. split.
  { unfold trigger_action. rewrite Hauth, Hfn.
    unfold mode_of, lift_result. rewrite Hmode. unfold mbind at 1, M_bind at 1.
    change (is_sync (default (JString "async") (Some (JString "sync")))) with true.
    cbv iota. by rewrite (bind_Ok _ _ _ _ _ Hsync). }
  do 4 (split; [done|]). unfold get_job. rewrite Hauth. split.
  - unfold mbind, M_bind, get_state. by rewrite Hjob.
  - intros other Hne. unfold mbind, M_bind, get_state.
    rewrite (Hother other Hne). by destruct (jobs p !! other).
Qed.

Lemma trigger_sync_then_get_job_witness :
  let config := sample_config (Some (JBool false)) in
  let env := sample_env (PutOk "req-1") in
  let p := {| jobs := ∅; world := empty_world |} in
  exists p' job,
    trigger_action (Some "secret") config env "scan" "secret"
      (Some (JObject [("mode", JString "sync")])) "job-1" 10 11 p
      = (p', Ok (Body (TriggeredJob job), None)) /\
    id job = "job-1" /\ action job = "scan" /\
    status job = (if (action_scan config env (world p)).2 is Ok _
                  then "success" else "error") /\
    error job = (if (action_scan config env (world p)).2 is Raise e
                 then exc_msg e else "") /\
    get_job (Some "secret") "job-1" "secret" p' = (p', Ok (Body job)) /\
    forall other, other <> "job-1" ->
      (get_job (Some "secret") other "secret" p').2
      = (get_job (Some "secret") other "secret" p).2.
Proof.
  intros config env p.
  apply (trigger_sync_then_get_job (Some "secret") config env "scan" "secret"
           "job-1" (action_scan config env) 10 11 p [("mode", JString "sync")]);
    reflexivity.
Defined.

(** X18. How [trigger_action] ends, whatever the action does.  An
    exception leaves the handler exactly when the request passes the token
    check, the action is registered, and the body is JSON but no object
    (an array, a number, a text, [true], [null]): the exception is the
    [AttributeError] of the missing [get], and nothing was run or
    recorded.  In every other case the handler answers.  When it answers
    with an error, nothing was run and nothing was recorded either: the
    registry and the output directory are as before and no thread is
    started; the error is 401 for a request that fails the token check,
    whatever the action named, and otherwise 404 for a name that is none
    of [scan], [cleanup], [upload_latest]. *)
Theorem trigger_action_rejects
    (token : option string) (config : Config) (env : Env)
    (name x_api_token : string) (body : option json) (job_id : string)
    (t0 t1 : Q) (p : Process) :
  let run := trigger_action token config env name x_api_token body job_id t0 t1 p in
  (forall e, run.2 = Raise e <->
     require_token token x_api_token = None /\
     is_Some (ACTIONS_get config env name) /\
     exists v, body = Some v /\ (forall members, v <> JObject members) /\
       e = AttributeError ("'" +:+ type_name v +:+ "' object has no attribute 'get'")) /\
  (forall e, run.2 = Raise e -> run.1 = p) /\
  (forall status_code detail thread,
     run.2 = Ok (HttpError status_code detail, thread) ->
     run.1 = p /\ thread = None /\
     ((status_code = 401%nat /\ detail = "unauthorized" /\
       require_token token x_api_token <> None) \/
      (status_code = 404%nat /\ detail = "unknown_action" /\
       require_token token x_api_token = None /\
       name <> "scan" /\ name <> "cleanup" /\ name <> "upload_latest"))).
Proof.
  intros run. subst run. rewrite trigger_action_cases.
  destruct (require_token token x_api_token) as [[code detail]|] eqn:Hauth.
  { split; [|split]; try done.
    - intros e. split; [done|]. by intros (? & _).
    - intros c d th [= <- <- <-]. split; [done|]. split; [done|]. left.
      unfold require_token in Hauth. destruct (_ && _); [|done].
      by injection Hauth as <- <-. }
  destruct (ACTIONS_get config env name) as [fn|] eqn:Hfn.
  2:{ split; [|split]; try done.
      - intros e. split; [done|]. by intros (_ & [? ?] & _).
      - intros c d th [= <- <- <-]. split; [done|]. split; [done|]. right.
        by apply ACTIONS_get_unknown in Hfn. }
  destruct (mode_of body) as [mode|e0] eqn:Hmode.
  2:{ split; [|split]; try done. intros e. simpl. split.
      - intros [= <-]. split; [done|]. split; [done|]. by apply mode_of_raises.
      - intros (_ & _ & He%mode_of_raises). congruence. }
  assert (Hanswers :
            exists p' answer thread,
              (if is_sync mode then
                 (job ← trigger_sync name fn job_id t0 t1;
                  mret (Body (TriggeredJob job), None)) p
               else
                 (_ ← record_job job_id name "queued" "" t0;
                  mret (Body (TriggeredQueued job_id "queued"),
                        Some (run_action name fn job_id t0 t1))) p)
              = (p', Ok (Body answer, thread))).
  { destruct (is_sync mode).
    - destruct (trigger_sync_run name fn job_id t0 t1 p) as (p' & Hsync & _).
      rewrite (bind_Ok _ _ _ _ _ Hsync). by eexists _, _, _.
    - by eexists _, _, _. }
  destruct Hanswers as (p' & answer & thread & ->). simpl.
  split; [|split]; try done.
  intros e. split; [done|]. intros (_ & _ & He%mode_of_raises). congruence.
Qed.

(** The bodies that are JSON but no object: the handler does not answer. *)
Example trigger_action_array_body :
  (trigger_action None (sample_config None) (sample_env (PutOk "req-1")) "scan" ""
     (Some (JArray [JInt 1])) "job-1" 10 11 {| jobs := ∅; world := empty_world |}).2
  = Raise (AttributeError "'list' object has no attribute 'get'").
Proof. vm_compute. reflexivity. Qed.

Example trigger_action_null_body :
  (trigger_action None (sample_config None) (sample_env (PutOk "req-1")) "scan" ""
     (Some JNull) "job-1" 10 11 {| jobs := ∅; world := empty_world |}).2
  = Raise (AttributeError "'NoneType' object has no attribute 'get'").
Proof. vm_compute. reflexivity. Qed.

(** ** Threads: the lock never blocks for good *)

Section Progress.

Lemma step_inv i s s' :
  step i s = Some s' ->
  exists ins rest,
    threads s !! i = Some (ins :: rest) /\
    (ins = Acquire -> lock s = false) /\
    lock s' = match ins with Acquire => true | Release => false | _ => lock s end /\
    threads s' = <[i := rest]> (threads s) ++ spawned ins /\
    written s' = written s ++ store_of ins.
Proof.
  unfold step. destruct (threads s !! i) as [[|ins rest]|]; try done.
  intros H. exists ins, rest. split; [done|].
  destruct ins; try (injection H as <-; simpl; by rewrite ?app_nil_r).
  destruct (lock s); [done|]. injection H as <-. simpl. by rewrite !app_nil_r.
Qed.

Lemma step_ready i s ins rest :
  threads s !! i = Some (ins :: rest) ->
  (ins = Acquire -> lock s = false) ->
  exists s', step i s = Some s'.
Proof.
  intros Hi Hfree. unfold step. rewrite Hi.
  destruct ins; try by eexists. by rewrite Hfree; [eexists|].
Qed.

Lemma balanced_holds h t : balanced h t = true -> holds t = h.
Proof.
  revert h. induction t as [|ins t IH]; intros h; simpl.
  - by destruct h.
  - destruct ins; try apply IH; destruct h; simpl; done.
Qed.

Lemma disciplined_balanced h t : disciplined h t = true -> balanced h t = true.
Proof.
  revert h. induction t as [|ins t IH]; intros h; simpl; [done|].
  destruct ins; try apply IH; destruct h; simpl; try done; apply IH.
Qed.

Lemma service_prog_balanced t : service_prog t -> balanced false t = true.
Proof.
  intros [Ht| ->]; [|done]. by apply disciplined_balanced, http_prog_disciplined.
Qed.

Lemma balance_inv_init ts : Forall service_prog ts -> balance_inv (init ts).
Proof.
  intros Hts. split; simpl.
  - eapply Forall_impl; [exact Hts|]. intros t Ht.
    apply service_prog_balanced in Ht as Hb.
    by rewrite (balanced_holds _ _ Hb).
  - induction Hts as [|t ts Ht _ IH]; simpl; [done|].
    apply service_prog_balanced, balanced_holds in Ht. by rewrite Ht, IH.
Qed.

Lemma balance_inv_step i s s' : step i s = Some s' -> balance_inv s -> balance_inv s'.
Proof.
  intros (ins & rest & Hi & Hfree & Hlock & Hth & _)%step_inv [Hb Hc].
  assert (Ht : balanced (holds (ins :: rest)) (ins :: rest) = true).
  { rewrite Forall_forall in Hb. apply Hb. by eapply list_elem_of_lookup_2. }
  pose proof (count_insert holds _ _ _ rest Hi) as Hcount.
  assert (Hnew : Forall (fun t => balanced (holds t) t = true) (spawned ins)
                 /\ count holds (spawned ins) = 0%nat).
  { destruct ins as [| | | | |n j ok]; cbn [spawned count]; try by split.
    pose proof (disciplined_balanced _ _ (run_action_prog_disciplined n j ok)) as Hn.
    pose proof (balanced_holds _ _ Hn) as Hh. rewrite Hh. split; [|done].
    constructor; [by rewrite Hh|constructor]. }
  destruct Hnew as [Hnew Hzero].
  assert (Hrest : balanced (holds rest) rest = true /\
                  (count holds (<[i := rest]> (threads s))
                   = if lock s' then 1 else 0)%nat).
  { rewrite Hlock.
    destruct ins; simpl in Ht, Hcount;
      try (split; [done|destruct (holds rest); lia]).
    - rewrite (Hfree eq_refl) in Hc.
      apply balanced_holds in Ht as Hh. rewrite Hh in Hcount |- *. split; [done|lia].
    - apply balanced_holds in Ht as Hh. rewrite Hh in Hcount |- *.
      split; [done|]. destruct (lock s); lia. }
  destruct Hrest as [Hrest Hcount'].
  split; rewrite Hth.
  - apply Forall_app. split; [by apply Forall_insert|done].
  - rewrite count_app, Hzero, Hcount'. lia.
Qed.

Lemma balance_inv_run schedule s s' :
  run schedule s = Some s' -> balance_inv s -> balance_inv s'.
Proof.
  revert s. induction schedule as [|i schedule IH]; intros s; simpl.
  - by intros [= <-].
  - destruct (step i s) as [s1|] eqn:E; simpl; [|done].
    intros Hrun Hinv. eapply IH; [done|]. by eapply balance_inv_step.
Qed.

Lemma count_pos f ts :
  (0 < count f ts)%nat -> exists i t, ts !! i = Some t /\ f t = true.
Proof.
  induction ts as [|t ts IH]; simpl; [lia|].
  destruct (f t) eqn:E; [by exists 0%nat, t|].
  intros H. destruct IH as (i & t' & Hi & Hf); [lia|]. by exists (S i), t'.
Qed.

Lemma finished_or_not (ts : list program) :
  Forall (fun t => t = []) ts \/ exists i ins rest, ts !! i = Some (ins :: rest).
Proof.
  induction ts as [|t ts [IH|(i & ins & rest & Hi)]].
  - by left.
  - destruct t as [|ins rest]; [left; by constructor|right; by exists 0%nat, ins, rest].
  - right. by exists (S i), ins, rest.
Qed.

End Progress.

(** X19. The service never blocks for good.  At any moment of any
    interleaving of HTTP triggers, synchronous or not, and firings of the
    scheduled scan, some thread can take its next step, unless every
    thread has run to its end, and then the lock is free. *)
Theorem service_never_deadlocks (ts : list program) (schedule : list nat) (s : state) :
  Forall service_prog ts -> run schedule (init ts) = Some s ->
  (exists i s', step i s = Some s') \/ (finished s /\ lock s = false).
Proof.
  intros Hts Hrun.
  destruct (balance_inv_run _ _ _ Hrun (balance_inv_init _ Hts)) as [Hb Hc].
  destruct (lock s) eqn:Hl.
  - left. destruct (count_pos holds (threads s)) as (i & t & Hi & Hh); [lia|].
    destruct t as [|ins rest]; [done|].
    destruct (step_ready i s ins rest Hi) as [s' Hs']; [by intros ->|].
    by exists i, s'.
  - destruct (finished_or_not (threads s)) as [Hfin|(i & ins & rest & Hi)]; [by right|].
    left. destruct (step_ready i s ins rest Hi) as [s' Hs']; [done|].
    by exists i, s'.
Qed.

Lemma service_never_deadlocks_witness :
  exists s,
    run [0; 0; 1; 2]%nat
        (init [trigger_sync_prog "scan" "job-1" true;
               trigger_async_prog "scan" "job-2" true; scheduled_prog]) = Some s /\
    ((exists i s', step i s = Some s') \/ (finished s /\ lock s = false)).
Proof.
  eexists. split; [vm_compute; reflexivity|].
  apply (service_never_deadlocks
           [trigger_sync_prog "scan" "job-1" true;
            trigger_async_prog "scan" "job-2" true; scheduled_prog]
           [0; 0; 1; 2]%nat).
  - constructor; [left; by exists "scan", "job-1", true; left|].
    constructor; [left; by exists "scan", "job-2", true; right|].
    constructor; [by right|constructor].
  - vm_compute. reflexivity.
Defined.

(** ** Threads: the statuses of a job, in order *)

Section JobHistory.

Variable keep : string -> bool.
Variable job_id : string.

Lemma progress_step s s' ins :
  written s' = written s ++ store_of ins ->
  progress keep job_id s' = progress keep job_id s ++ stores_of keep job_id ins.
Proof.
  intros Hw. unfold progress, history. rewrite Hw, filter_app, fmap_app, filter_app.
  f_equal. destruct ins as [j n st| | | | |]; try done. simpl.
  rewrite filter_cons, filter_nil. simpl.
  destruct (decide (j = job_id)); [|done]. simpl.
  rewrite filter_cons, filter_nil. by destruct (keep st); simpl.
Qed.

Lemma pending_no_spawn t :
  Forall (fun ins => spawned ins = []) t ->
  pending keep job_id t = stores keep job_id t.
Proof.
  induction 1 as [|ins t Hins _ IH]; [done|].
  unfold pending, stores in *. simpl. unfold pending_of at 1.
  rewrite Hins, IH. simpl. by rewrite app_nil_r.
Qed.

Lemma tame_no_spawn t :
  Forall (fun ins => spawned ins = []) t -> tame keep job_id t = true.
Proof.
  induction 1 as [|ins t Hins _ IH]; [done|]. simpl. by rewrite Hins, IH.
Qed.

Lemma run_action_prog_no_spawn name j ok :
  Forall (fun ins => spawned ins = []) (run_action_prog name j ok).
Proof.
  unfold run_action_prog, action_prog.
  destruct (String.eqb name "scan"); repeat constructor.
Qed.

Lemma spawned_no_spawn ins :
  Forall (fun t => Forall (fun ins' => spawned ins' = []) t) (spawned ins).
Proof.
  destruct ins; try constructor; [apply run_action_prog_no_spawn|constructor].
Qed.

Lemma absent_stores t : job_id ∉ job_ids t -> stores keep job_id t = [].
Proof.
  unfold job_ids, stores. induction t as [|ins t IH]; [done|]. simpl.
  rewrite elem_of_app. intros Hno. rewrite IH by tauto. rewrite app_nil_r.
  destruct ins; try done. simpl in *.
  destruct (decide _) as [->|]; [|done]. destruct Hno. left. by left.
Qed.

Lemma absent_pending t : job_id ∉ job_ids t -> pending keep job_id t = [].
Proof.
  unfold job_ids, pending. induction t as [|ins t IH]; [done|]. simpl.
  rewrite elem_of_app. intros Hno. rewrite IH by tauto. rewrite app_nil_r.
  unfold pending_of.
  destruct ins as [j n st| | | | |n j ok]; try done;
    cbn [stores_of spawned flat_map app ids_of] in *.
  - destruct (decide _) as [->|]; [|done]. destruct Hno. left. by left.
  - rewrite app_nil_r. apply absent_stores.
    assert (job_id <> j) as Hj by (intros ->; apply Hno; left; by left).
    unfold run_action_prog, action_prog, job_ids.
    destruct (String.eqb n "scan"); simpl; rewrite !elem_of_cons, elem_of_nil; tauto.
Qed.

Lemma absent_tame t : job_id ∉ job_ids t -> tame keep job_id t = true.
Proof.
  induction t as [|ins t IH]; [done|]. unfold job_ids in *. simpl.
  rewrite elem_of_app. intros Hno. rewrite IH by tauto.
  rewrite (bool_decide_eq_true_2 (pending keep job_id t = [])).
  - by rewrite orb_true_r.
  - apply absent_pending. unfold job_ids. tauto.
Qed.

Lemma lookup_step (ths : list program) k rest sp k' t' :
  (<[k := rest]> ths ++ sp) !! k' = Some t' ->
  (k' = k /\ t' = rest) \/ (k' <> k /\ ths !! k' = Some t') \/
  ((length ths <= k')%nat /\ sp !! (k' - length ths)%nat = Some t').
Proof.
  intros H. destruct (decide (k' < length ths)%nat) as [Hlt|Hge].
  - rewrite lookup_app_l in H by by rewrite length_insert.
    destruct (decide (k' = k)) as [->|Hne].
    + rewrite list_lookup_insert_eq in H by done. left. split; [done|congruence].
    + rewrite list_lookup_insert_ne in H by done. right. left. by split.
  - rewrite lookup_app_r in H by (rewrite length_insert; lia).
    rewrite length_insert in H. right. right. split; [lia|done].
Qed.

Lemma job_inv_step statuses k s s' :
  step k s = Some s' -> job_inv keep job_id statuses s -> job_inv keep job_id statuses s'.
Proof.
  intros (ins & rest & Hk & _ & _ & Hth & Hw)%step_inv (Htame & i & t & Hi & HL & Hothers).
  assert (Hlt : (k < length (threads s))%nat) by by eapply lookup_lt_Some.
  assert (Htk : tame keep job_id (ins :: rest) = true).
  { rewrite Forall_forall in Htame. apply Htame. by eapply list_elem_of_lookup_2. }
  simpl in Htk. apply andb_true_iff in Htk as [Hor Hrest].
  assert (Hsp : forall t', t' ∈ spawned ins ->
            pending keep job_id t' = stores keep job_id t' /\
            flat_map (stores keep job_id) (spawned ins) = stores keep job_id t').
  { intros t' Ht'. destruct ins; try by apply elem_of_nil in Ht'.
    apply list_elem_of_singleton in Ht' as ->. split.
    - apply pending_no_spawn, run_action_prog_no_spawn.
    - simpl. by rewrite app_nil_r. }
  split.
  { rewrite Hth. apply Forall_app. split; [by apply Forall_insert|].
    eapply Forall_impl; [apply spawned_no_spawn|]. apply tame_no_spawn. }
  rewrite (progress_step _ _ _ Hw).
  destruct (decide (k = i)) as [->|Hne].
  - assert (t = ins :: rest) as -> by congruence.
    change (pending keep job_id (ins :: rest))
      with (pending_of keep job_id ins ++ pending keep job_id rest) in HL.
    unfold pending_of in HL.
    apply orb_true_iff in Hor as [Hquiet|Hquiet]; apply bool_decide_eq_true_1 in Hquiet.
    + exists i, rest. rewrite Hth. split; [|split].
      * rewrite lookup_app_l by by rewrite length_insert.
        by apply list_lookup_insert_eq.
      * rewrite Hquiet, app_nil_r in HL. by rewrite <- app_assoc.
      * intros k' t' Hk' [[? _]|[[_ Hold]|[_ Hnew]]]%lookup_step; [done| |].
        -- by eapply Hothers.
        -- apply list_elem_of_lookup_2 in Hnew.
           destruct (Hsp t' Hnew) as [-> <-]. exact Hquiet.
    + destruct ins as [j n st| | | | |n j ok];
        try (exists i, rest; rewrite Hth; split; [|split];
             [rewrite lookup_app_l by (by rewrite length_insert);
              by apply list_lookup_insert_eq
             |simpl in *; rewrite ?app_nil_r in *; by rewrite <- ?app_assoc
             |intros k' t' Hk' [[? _]|[[_ Hold]|[_ Hnew]]]%lookup_step;
              [done|by eapply Hothers|done]]).
      exists (length (threads s)), (run_action_prog n j ok). rewrite Hth.
      split; [|split].
      * rewrite lookup_app_r by (rewrite length_insert; lia).
        by rewrite length_insert, Nat.sub_diag.
      * rewrite Hquiet, app_nil_r in HL.
        cbn [stores_of spawned flat_map app] in HL |- *.
        rewrite app_nil_r in HL. rewrite app_nil_r.
        by rewrite (pending_no_spawn _ (run_action_prog_no_spawn n j ok)).
      * intros k' t' Hk' [[_ ->]|[[Hk'i Hold]|[Hge Hnew]]]%lookup_step; [done| |].
        -- by eapply Hothers.
        -- exfalso. apply Hk'. cbn [spawned] in Hnew.
           destruct (k' - length (threads s))%nat as [|m] eqn:E; [lia|done].
  - assert (Hquiet : pending keep job_id (ins :: rest) = []) by by eapply Hothers.
    change (pending keep job_id (ins :: rest))
      with (pending_of keep job_id ins ++ pending keep job_id rest) in Hquiet.
    unfold pending_of in Hquiet.
    apply app_eq_nil in Hquiet as [[Hins Hnew]%app_eq_nil Hquiet].
    exists i, t. rewrite Hth. split; [|split].
    + assert ((i < length (threads s))%nat) by by eapply lookup_lt_Some.
      rewrite lookup_app_l by by rewrite length_insert.
      by rewrite list_lookup_insert_ne.
    + by rewrite Hins, app_nil_r.
    + intros k' t' Hk' [[_ ->]|[[_ Hold]|[_ Hsp']]]%lookup_step; [done| |].
      * by eapply Hothers.
      * apply list_elem_of_lookup_2 in Hsp'.
        destruct (Hsp t' Hsp') as [-> <-]. exact Hnew.
Qed.

Lemma job_inv_run statuses schedule s s' :
  run schedule s = Some s' -> job_inv keep job_id statuses s ->
  job_inv keep job_id statuses s'.
Proof.
  revert s. induction schedule as [|i schedule IH]; intros s; simpl.
  - by intros [= <-].
  - destruct (step i s) as [s1|] eqn:E; simpl; [|done].
    intros Hrun Hinv. eapply IH; [done|]. by eapply job_inv_step.
Qed.

Lemma job_inv_init ts i t :
  ts !! i = Some t ->
  tame keep job_id t = true ->
  (forall k t', k <> i -> ts !! k = Some t' -> job_id ∉ job_ids t') ->
  job_inv keep job_id (pending keep job_id t) (init ts).
Proof.
  intros Hi Ht Hothers. split.
  - apply Forall_lookup. intros k t' Hk. simpl in Hk.
    destruct (decide (k = i)) as [->|Hne]; [congruence|].
    apply absent_tame. by eapply Hothers.
  - exists i, t. split; [done|]. split; [done|].
    intros k t' Hne Hk. apply absent_pending. by eapply Hothers.
Qed.

Lemma job_inv_prefix statuses s :
  job_inv keep job_id statuses s ->
  progress keep job_id s `prefix_of` statuses /\
  (finished s -> progress keep job_id s = statuses).
Proof.
  intros (_ & i & t & Hi & HL & _). split.
  - by exists (pending keep job_id t).
  - intros Hfin. unfold finished in Hfin. rewrite Forall_forall in Hfin.
    rewrite (Hfin t) in HL by by eapply list_elem_of_lookup_2.
    by rewrite app_nil_r in HL.
Qed.

End JobHistory.

Section JobStatuses.

Lemma filter_all (l : list string) : filter (fun _ : string => true = true) l = l.
Proof.
  induction l as [|x l IH]; [done|]. rewrite filter_cons. simpl. by rewrite IH.
Qed.

Lemma last_filter (P : string -> Prop) `{!forall x, Decision (P x)} l x :
  last l = Some x -> P x -> last (filter P l) = Some x.
Proof.
  intros [l' ->]%last_Some HP. rewrite filter_app, filter_cons, filter_nil.
  rewrite decide_True by done. apply last_snoc.
Qed.

Lemma pending_trigger_sync keep name job_id ok :
  pending keep job_id (trigger_sync_prog name job_id ok)
  = filter (fun status => keep status = true)
      ["running"; if ok then "success" else "error"].
Proof.
  unfold trigger_sync_prog.
  rewrite (pending_no_spawn _ _ _ (run_action_prog_no_spawn name job_id ok)).
  unfold stores, run_action_prog, action_prog.
  rewrite !filter_cons, filter_nil.
  destruct (String.eqb name "scan"); cbn [app flat_map stores_of action_scan_prog
    scan_task_prog]; rewrite !decide_True by done;
    destruct (keep "running"), (keep (if ok then "success" else "error")); done.
Qed.

Lemma pending_trigger_async keep name job_id ok :
  pending keep job_id (trigger_async_prog name job_id ok)
  = filter (fun status => keep status = true)
      ["running"; if ok then "success" else "error"]
    ++ filter (fun status => keep status = true) ["queued"].
Proof.
  unfold trigger_async_prog, pending.
  cbn [flat_map pending_of stores_of spawned app]. unfold pending_of.
  cbn [stores_of spawned flat_map app]. rewrite !app_nil_r.
  rewrite <- (pending_trigger_sync keep name job_id ok). unfold trigger_sync_prog.
  rewrite (pending_no_spawn _ _ _ (run_action_prog_no_spawn name job_id ok)).
  f_equal. rewrite decide_True by done. rewrite filter_cons, filter_nil.
  by destruct (keep "queued").
Qed.

End JobStatuses.

(** X20. A job triggered synchronously, under an id that no other thread
    uses, is recorded as [running] and then with its outcome, whatever
    other requests and scheduled scans run beside it: at every moment the
    statuses stored for it are the start of this sequence, and all of it
    once every thread has run to its end. *)
Theorem sync_job_statuses (ts : list program) (i : nat) (name job_id : string)
    (ok : bool) (schedule : list nat) (s : state) :
  ts !! i = Some (trigger_sync_prog name job_id ok) ->
  (forall k t, k <> i -> ts !! k = Some t -> job_id ∉ job_ids t) ->
  run schedule (init ts) = Some s ->
  history job_id s `prefix_of` ["running"; if ok then "success" else "error"] /\
  (finished s -> history job_id s = ["running"; if ok then "success" else "error"]).
Proof.
  intros Hi Hothers Hrun.
  pose proof (job_inv_init (fun _ => true) job_id ts i _ Hi
                (tame_no_spawn _ _ _ (run_action_prog_no_spawn name job_id ok))
                Hothers) as Hinit.
  apply (job_inv_run _ _ _ _ _ _ Hrun), job_inv_prefix in Hinit.
  unfold progress in Hinit.
  by rewrite pending_trigger_sync, !filter_all in Hinit.
Qed.

Lemma sync_job_statuses_witness :
  exists s,
    run [1; 0; 2; 0; 0; 1; 0; 0; 0]%nat
        (init [trigger_sync_prog "scan" "job-1" false;
               trigger_async_prog "cleanup" "job-2" true; scheduled_prog]) = Some s /\
    history "job-1" s `prefix_of` ["running"; "error"] /\
    (finished s -> history "job-1" s = ["running"; "error"]).
Proof.
  eexists. split; [vm_compute; reflexivity|].
  apply (sync_job_statuses
           [trigger_sync_prog "scan" "job-1" false;
            trigger_async_prog "cleanup" "job-2" true; scheduled_prog]
           0%nat "scan" "job-1" false [1; 0; 2; 0; 0; 1; 0; 0; 0]%nat).
  - reflexivity.
  - intros [|[|[|k]]] t Hk [= <-]; [done| |].
    + cbv [job_ids trigger_async_prog flat_map ids_of app].
      rewrite !elem_of_cons, elem_of_nil. by intros [|[|]].
    + cbv [job_ids scheduled_prog scan_task_prog flat_map ids_of app].
      apply not_elem_of_nil.
  - vm_compute. reflexivity.
Defined.

(** X21. A job triggered asynchronously, under an id that no other thread
    uses, is recorded as [running] before its outcome, and as [queued]
    once, at any place among the two: at every moment the statuses other
    than [queued] stored for it are the start of [running], outcome, and
    [queued] is stored at most once; once every thread has run to its end
    all three are stored, and the status that stays is [queued] or the
    outcome. *)
Theorem async_job_statuses (ts : list program) (i : nat) (name job_id : string)
    (ok : bool) (schedule : list nat) (s : state) :
  ts !! i = Some (trigger_async_prog name job_id ok) ->
  (forall k t, k <> i -> ts !! k = Some t -> job_id ∉ job_ids t) ->
  run schedule (init ts) = Some s ->
  filter (fun status => status <> "queued") (history job_id s)
    `prefix_of` ["running"; if ok then "success" else "error"] /\
  filter (fun status => status = "queued") (history job_id s) `prefix_of` ["queued"] /\
  (finished s ->
   filter (fun status => status <> "queued") (history job_id s)
     = ["running"; if ok then "success" else "error"] /\
   filter (fun status => status = "queued") (history job_id s) = ["queued"] /\
   (last (history job_id s) = Some "queued" \/
    last (history job_id s) = Some (if ok then "success" else "error"))).
Proof.
  intros Hi Hothers Hrun.
  set (other := fun status => negb (String.eqb status "queued")).
  set (queued := fun status => String.eqb status "queued").
  assert (Hother : forall l : list string,
            filter (fun status => other status = true) l
            = filter (fun status => status <> "queued") l).
  { intros l. apply list_filter_iff. intros x. unfold other.
    by destruct (String.eqb_spec x "queued"). }
  assert (Hqueued : forall l : list string,
            filter (fun status => queued status = true) l
            = filter (fun status => status = "queued") l).
  { intros l. apply list_filter_iff. intros x. unfold queued.
    by destruct (String.eqb_spec x "queued"). }
  assert (Htame1 : tame other job_id (trigger_async_prog name job_id ok) = true).
  { unfold trigger_async_prog. cbn [tame spawned flat_map].
    rewrite (bool_decide_eq_true_2 (pending other job_id [RecordJob _ _ _] = [])).
    - by rewrite orb_true_r.
    - unfold pending, pending_of. cbn [flat_map stores_of spawned app].
      by rewrite decide_True. }
  assert (Htame2 : tame queued job_id (trigger_async_prog name job_id ok) = true).
  { unfold trigger_async_prog. cbn [tame spawned flat_map].
    rewrite (bool_decide_eq_true_2 (_ ++ [] = [])); [done|].
    rewrite app_nil_r.
    rewrite <- (pending_no_spawn _ _ _ (run_action_prog_no_spawn name job_id ok)).
    pose proof (pending_trigger_sync queued name job_id ok) as Hp.
    unfold trigger_sync_prog in Hp. rewrite Hp. by destruct ok. }
  pose proof (job_inv_init other job_id ts i _ Hi Htame1 Hothers) as H1.
  apply (job_inv_run _ _ _ _ _ _ Hrun), job_inv_prefix in H1.
  pose proof (job_inv_init queued job_id ts i _ Hi Htame2 Hothers) as H2.
  apply (job_inv_run _ _ _ _ _ _ Hrun), job_inv_prefix in H2.
  unfold progress in H1, H2. rewrite pending_trigger_async, Hother in H1.
  rewrite pending_trigger_async, Hqueued in H2.
  replace (filter _ ["running"; _] ++ filter _ ["queued"])
    with ["running"; if ok then "success" else "error"] in H1 by by destruct ok.
  replace (filter _ ["running"; _] ++ filter _ ["queued"])
    with ["queued"] in H2 by by destruct ok.
  destruct H1 as [Hpre1 Hfin1], H2 as [Hpre2 Hfin2].
  split; [done|]. split; [done|]. intros Hfin.
  specialize (Hfin1 Hfin). specialize (Hfin2 Hfin). split; [done|]. split; [done|].
  destruct (last (history job_id s)) as [x|] eqn:Hlast.
  - destruct (decide (x = "queued")) as [->|Hx]; [by left|right].
    apply (last_filter (fun status => status <> "queued")) in Hlast; [|done].
    rewrite Hfin1 in Hlast. exact (eq_sym Hlast).
  - apply last_None in Hlast. by rewrite Hlast in Hfin2.
Qed.

Lemma async_job_statuses_witness :
  exists s,
    run [0; 1; 2; 1; 0; 2; 1]%nat
        (init [trigger_async_prog "cleanup" "job-1" true;
               trigger_sync_prog "scan" "job-2" true]) = Some s /\
    filter (fun status => status <> "queued") (history "job-1" s)
      `prefix_of` ["running"; "success"] /\
    filter (fun status => status = "queued") (history "job-1" s)
      `prefix_of` ["queued"] /\
    (finished s ->
     filter (fun status => status <> "queued") (history "job-1" s)
       = ["running"; "success"] /\
     filter (fun status => status = "queued") (history "job-1" s) = ["queued"] /\
     (last (history "job-1" s) = Some "queued" \/
      last (history "job-1" s) = Some "success")).
Proof.
  eexists. split; [vm_compute; reflexivity|].
  apply (async_job_statuses
           [trigger_async_prog "cleanup" "job-1" true;
            trigger_sync_prog "scan" "job-2" true]
           0%nat "cleanup" "job-1" true [0; 1; 2; 1; 0; 2; 1]%nat).
  - reflexivity.
  - intros [|[|k]] t Hk [= <-]; [done|].
    cbv [job_ids trigger_sync_prog run_action_prog action_prog action_scan_prog
         scan_task_prog flat_map ids_of app].
    change (String.eqb "scan" "scan") with true. cbv iota.
    cbv [flat_map ids_of app].
    rewrite !elem_of_cons, elem_of_nil. by intros [|[|]].
  - vm_compute. reflexivity.
Defined.

